(** * tev: channel data model, image validation, channel grouping and the
      ordered publication of background loads.

    A shallow embedding of [include/tev/Channel.h] and [src/Image.cpp],
    with the utilities of [include/tev/Common.h] and the file checks of the
    loaders in [src/imageio], followed by the properties established about
    them. *)

From Stdlib Require Import ZArith String Ascii Bool Lia.
From Stdlib Require Import Floats.SpecFloat.
From stdpp Require Import base tactics option list sorting strings.

Local Open Scope string_scope.
Local Open Scope list_scope.
Local Open Scope Z_scope.

(** ** Single-precision values

    [float] of the source is IEEE-754 binary32.  The arithmetic is the
    executable specification of the standard library with a 24 bit
    significand and infinities at exponent 128 (round to nearest even). *)

Module F32.

Definition t : Type := spec_float.

Definition prec : Z := 24.
Definition emax : Z := 128.

Definition zero : t := S754_zero false.
Definition one : t := S754_finite false 8388608 (-23).
Definition half : t := S754_finite false 8388608 (-24).
(** 0.1f, the single-precision number nearest to one tenth: 13421773 / 2^27. *)
Definition tenth : t := S754_finite false 13421773 (-27).

Definition mul (x y : t) : t := SFmul prec emax x y.
Definition div (x y : t) : t := SFdiv prec emax x y.

(** [x == y] and [x != y] of the source. *)
Definition eqb (x y : t) : bool := SFeqb x y.
Definition neqb (x y : t) : bool := negb (SFeqb x y).

Definition valid (x : t) : bool := valid_binary prec emax x.

End F32.

(** ** Errors *)

(** One argument of a [tfm::format] call. *)
Inductive fmt_arg : Type :=
| ArgS (s : string)
| ArgD (n : Z).

(** [std::runtime_error]: the format string of the message and its
    arguments; [TEV_ASSERT] throws the same exception type. *)
Inductive exception : Type :=
| runtime_error (description : string) (args : list fmt_arg).

(** Outcome of a computation that may throw. *)
Inductive res (A : Type) : Type :=
| Ok (a : A)
| Throw (e : exception).
Arguments Ok {A} a.
Arguments Throw {A} e.

(** ** Channel (include/tev/Channel.h)

    Indices, extents and counters are mathematical integers: the properties
    below concern values within the range of the machine types
    ([Eigen::DenseIndex], [int]), where the two agree. *)

(** [mData] is a row-major matrix: [rows] and [cols] with the coefficient
    buffer.  Eigen maintains [length mData = rows * cols]; that invariant
    is [Channel_wf]. *)
Record Channel : Type := mkChannel {
  mName : string;
  rows : Z;
  cols : Z;
  mData : list F32.t
}.

Definition Channel_wf (c : Channel) : Prop :=
  0 <= rows c /\ 0 <= cols c /\ Z.of_nat (List.length (mData c)) = rows c * cols c.

Definition name (c : Channel) : string := mName c.

(** [mData.size()] *)
Definition count (c : Channel) : Z := rows c * cols c.

(** [size()]: the pair (cols, rows). *)
Definition size (c : Channel) : Z * Z := (cols c, rows c).

(** [mData(index)]: Eigen's unchecked coefficient access.  An index
    outside the buffer has no defined result, which is [None] here. *)
Definition coeff (c : Channel) (index : Z) : option F32.t :=
  if 0 <=? index then mData c !! Z.to_nat index else None.

(** Write through the reference returned by [at(index)]. *)
Definition setCoeff (c : Channel) (index : Z) (v : F32.t) : option Channel :=
  if (0 <=? index) && (Z.to_nat index <? List.length (mData c))%nat
  then Some (mkChannel (mName c) (rows c) (cols c) (<[Z.to_nat index := v]> (mData c)))
  else None.

(** [float eval(Eigen::DenseIndex index) const] *)
Definition eval (c : Channel) (index : Z) : option F32.t :=
  if index >=? count c then Some F32.zero
  else coeff c index.

(** [float eval(Eigen::Vector2i index) const] *)
Definition eval2 (c : Channel) (index : Z * Z) : option F32.t :=
  let '(x, y) := index in
  if (x <? 0) || (x >=? cols c) || (y <? 0) || (y >=? rows c)
  then Some F32.zero
  else coeff c (x + y * cols c).

(** [float at(Eigen::DenseIndex index) const] *)
Definition at_ (c : Channel) (index : Z) : option F32.t := coeff c index.

(** Modelled from the spec: [ThreadPool::parallelForAsync] is declared in
    tev/ThreadPool.h, which is not part of the sources at hand.  It runs
    [body] once for every index of the half-open range [[start, stop)] and
    completes when all of them have run.  The bodies used in this file touch
    index [i] of their target only, so the order in which the pool runs them
    is immaterial ([parallelFor_any_order] below); the indices are visited
    in ascending order here.  A body that reads or writes outside a buffer
    makes the whole loop undefined. *)
Fixpoint forEach {S I : Type} (body : I -> S -> option S) (l : list I) (s : S)
  : option S :=
  match l with
  | [] => Some s
  | i :: l' => match body i s with
               | Some s' => forEach body l' s'
               | None => None
               end
  end.

Definition indexRange (start stop : Z) : list Z := seqZ start (stop - start).

Definition parallelFor {S : Type} (start stop : Z) (body : Z -> S -> option S)
  (s : S) : option S :=
  forEach body (indexRange start stop) s.

(** Body of the loop in [divideByAsync]. *)
Definition divideByBody (other : Channel) (i : Z) (self : Channel) : option Channel :=
  match at_ other i with
  | None => None
  | Some o =>
      if F32.neqb o F32.zero then
        match at_ self i with
        | Some x => setCoeff self i (F32.div x o)
        | None => None
        end
      else setCoeff self i F32.zero
  end.

(** What the loop of [divideByAsync] leaves at one index. *)
Definition quotient (x o : F32.t) : F32.t :=
  if F32.neqb o F32.zero then F32.div x o else F32.zero.

(** [auto divideByAsync(const Channel& other, int priority)], awaited. *)
Definition divideBy (self other : Channel) : option Channel :=
  parallelFor 0 (count other) (divideByBody other) self.

(** Body of the loop in [multiplyWithAsync]. *)
Definition multiplyWithBody (other : Channel) (i : Z) (self : Channel) : option Channel :=
  match at_ self i, at_ other i with
  | Some x, Some o => setCoeff self i (F32.mul x o)
  | _, _ => None
  end.

(** [auto multiplyWithAsync(const Channel& other, int priority)], awaited. *)
Definition multiplyWith (self other : Channel) : option Channel :=
  parallelFor 0 (count other) (multiplyWithBody other) self.

(** ** Strings *)

(** [s.find(".") != string::npos] *)
Fixpoint contains_dot (s : string) : bool :=
  match s with
  | EmptyString => false
  | String c s' => if Ascii.eqb c "."%char then true else contains_dot s'
  end.

(** [s.rfind(".")] *)
Fixpoint rfind_dot (s : string) : option nat :=
  match s with
  | EmptyString => None
  | String c s' =>
      match rfind_dot s' with
      | Some k => Some (S k)
      | None => if Ascii.eqb c "."%char then Some 0%nat else None
      end
  end.

(** [s.starts_with(p)] *)
Definition starts_with (s p : string) : bool := String.prefix p s.

(** [s.substr(pos)] for [pos <= s.length()]. *)
Definition substr_from (s : string) (pos : nat) : string :=
  String.substring pos (String.length s - pos) s.

(** [join(components, delim)] of tev/Common.h. *)
Fixpoint join (components : list string) (delim : string) : string :=
  match components with
  | [] => ""
  | [c] => c
  | c :: rest => c +:+ delim +:+ join rest delim
  end.

(** Modelled from the spec: [Channel::head] and [Channel::tail] are defined
    in Channel.cpp, which is not part of the sources at hand.  A channel
    name is dot-delimited, "layer.leaf": the head is the part before the
    last dot ("foo.R" has head "foo"), and the empty root layer when the
    name has no dot; the tail is the part after the last dot, and the whole
    name when there is none. *)
Definition head (fullChannel : string) : string :=
  match rfind_dot fullChannel with
  | Some k => String.substring 0 k fullChannel
  | None => ""
  end.

Definition tail (fullChannel : string) : string :=
  match rfind_dot fullChannel with
  | Some k => substr_from fullChannel (S k)
  | None => fullChannel
  end.

(** Two channels of one name and one extent: what the elementwise
    operations leave unchanged. *)
Definition sameShape (c c' : Channel) : Prop :=
  mName c = mName c' /\ rows c = rows c' /\ cols c = cols c' /\
  List.length (mData c) = List.length (mData c').

(** ** ImageData *)

(** Modelled from the spec: [Box2i] is declared in tev/Box.h, which is not
    part of the sources at hand.  A rectangle has integer min and max
    corners with an exclusive upper bound; it is valid iff max > min on both
    axes, and its size is max - min.  Assigning a size to a window gives the
    rectangle from the origin to that size. *)
Record Box2i : Type := mkBox { boxMin : Z * Z; boxMax : Z * Z }.

Definition isValid (b : Box2i) : bool :=
  (fst (boxMax b) >? fst (boxMin b)) && (snd (boxMax b) >? snd (boxMin b)).

Definition boxSize (b : Box2i) : Z * Z :=
  (fst (boxMax b) - fst (boxMin b), snd (boxMax b) - snd (boxMin b)).

Definition boxOfSize (sz : Z * Z) : Box2i := mkBox (0, 0) sz.

Record ImageData : Type := mkImageData {
  channels : list Channel;
  layers : list string;
  dataWindow : Box2i;
  displayWindow : Box2i;
  hasPremultipliedAlpha : bool;
  partName : string
}.

Definition setChannels (cs : list Channel) (d : ImageData) : ImageData :=
  mkImageData cs (layers d) (dataWindow d) (displayWindow d)
    (hasPremultipliedAlpha d) (partName d).

Definition setLayers (ls : list string) (d : ImageData) : ImageData :=
  mkImageData (channels d) ls (dataWindow d) (displayWindow d)
    (hasPremultipliedAlpha d) (partName d).

Definition setDataWindow (b : Box2i) (d : ImageData) : ImageData :=
  mkImageData (channels d) (layers d) b (displayWindow d)
    (hasPremultipliedAlpha d) (partName d).

Definition setDisplayWindow (b : Box2i) (d : ImageData) : ImageData :=
  mkImageData (channels d) (layers d) (dataWindow d) b
    (hasPremultipliedAlpha d) (partName d).

Definition setHasPremultipliedAlpha (b : bool) (d : ImageData) : ImageData :=
  mkImageData (channels d) (layers d) (dataWindow d) (displayWindow d)
    b (partName d).

(** Modelled from the spec: the accessors [channel], [mutableChannel],
    [hasChannel] and [size] of ImageData are declared in tev/Image.h, which
    is not part of the sources at hand.  A channel is addressed by its
    name; the first channel of that name in the ordered channel list is the
    one found, with its position.  The size of an image is the size of its
    data window. *)
Definition channel (channelName : string) (cs : list Channel)
  : option (nat * Channel) :=
  list_find (fun c => name c = channelName) cs.

Definition hasChannel (channelName : string) (cs : list Channel) : bool :=
  match channel channelName cs with Some _ => true | None => false end.

Definition imageSize (d : ImageData) : Z * Z := boxSize (dataWindow d).

(** The test of the loops in [ImageData::channelsInLayer]. *)
Definition inLayer (layerName n : string) : bool :=
  if String.eqb layerName "" then negb (contains_dot n)
  else
    starts_with n layerName
    && (String.length layerName <? String.length n)%nat
    && negb (contains_dot (substr_from n (String.length layerName + 1))).

(** [vector<string> ImageData::channelsInLayer(string layerName) const] *)
Definition channelsInLayer (layerName : string) (cs : list Channel) : list string :=
  List.map name (List.filter (fun c => inLayer layerName (name c)) cs).

Definition layerPrefix (layer : string) : string :=
  if String.eqb layer "" then "" else layer +:+ ".".

Definition alphaChannelName (layer : string) : string := layerPrefix layer +:+ "A".

(** One call of [func] on the channel [mutableChannel(channelName)] points
    to and on the alpha channel: the target is updated in place. *)
Definition applyToChannel (func : Channel -> Channel -> option Channel)
  (alphaName channelName : string) (cs : list Channel) : option (list Channel) :=
  match channel alphaName cs, channel channelName cs with
  | Some (_, alpha), Some (i, target) =>
      match func target alpha with
      | Some target' => Some (<[i := target']> cs)
      | None => None
      end
  | _, _ => None
  end.

(** Body of the outer loop of [ImageData::alphaOperation]. *)
Definition alphaOperationLayer (func : Channel -> Channel -> option Channel)
  (layer : string) (cs : list Channel) : option (list Channel) :=
  let alphaName := alphaChannelName layer in
  if hasChannel alphaName cs then
    forEach
      (fun channelName cs' =>
         if String.eqb channelName alphaName then Some cs'
         else applyToChannel func alphaName channelName cs')
      (channelsInLayer layer cs) cs
  else Some cs.

(** [void ImageData::alphaOperation(func)].  The tasks [func] starts are
    taken in the order in which they are created; [None] when one of them
    leaves the bounds of a buffer. *)
Definition alphaOperation (func : Channel -> Channel -> option Channel)
  (d : ImageData) : option ImageData :=
  match forEach (alphaOperationLayer func) (layers d) (channels d) with
  | Some cs => Some (setChannels cs d)
  | None => None
  end.

(** *** The alpha operations of an image, listed

    The calls of [func] that [alphaOperation] makes depend on the names of
    the channels and on the layers alone.  [alphaOps] lists them in order,
    each as the name of the alpha channel and the name of the target. *)
Definition layerOps (names : list string) (layer : string) : list (string * string) :=
  let alphaName := alphaChannelName layer in
  if existsb (String.eqb alphaName) names
  then List.map (fun n => (alphaName, n))
         (List.filter (fun n => negb (String.eqb n alphaName))
            (List.filter (inLayer layer) names))
  else [].

Definition alphaOps (names : list string) (ls : list string) : list (string * string) :=
  flat_map (layerOps names) ls.

(** One operation of the list, carried out. *)
Definition applyOp (func : Channel -> Channel -> option Channel)
  (op : string * string) (cs : list Channel) : option (list Channel) :=
  applyToChannel func (fst op) (snd op) cs.

(** The channel [c] after the alpha operations [ops] with the elementwise
    function [f], the alpha channels being those of [cs]. *)
Definition combined (f : F32.t -> F32.t -> F32.t) (ops : list (string * string))
  (cs : list Channel) (c : Channel) : Channel :=
  match List.find (fun p => String.eqb (snd p) (name c)) ops with
  | Some (alphaName, _) =>
      match channel alphaName cs with
      | Some (_, alpha) =>
          mkChannel (mName c) (rows c) (cols c) (zip_with f (mData c) (mData alpha))
      | None => c
      end
  | None => c
  end.

(** The channels are matrices with buffers of one length. *)
Definition uniform (cs : list Channel) : Prop :=
  Forall Channel_wf cs /\
  forall c c', c ∈ cs -> c' ∈ cs -> List.length (mData c) = List.length (mData c').

(** No channel is the target of two operations, no alpha channel is a
    target, and the channels named exist. *)
Definition independent (ops : list (string * string)) (names : list string) : Prop :=
  NoDup (List.map snd ops) /\
  (forall op, op ∈ ops -> fst op ∉ List.map snd ops) /\
  (forall op, op ∈ ops -> fst op ∈ names /\ snd op ∈ names).

(** An image whose layers partition its channels: channel names and layer
    names are not repeated, every channel listed for a layer of the image
    has that layer as its head, and all channels are matrices of one
    size. *)
Record wellLayered (d : ImageData) : Prop := {
  wl_names : NoDup (List.map name (channels d));
  wl_layers : NoDup (layers d);
  wl_heads : forall l n,
    l ∈ layers d -> n ∈ channelsInLayer l (channels d) -> head n = l;
  wl_wf : Forall Channel_wf (channels d);
  wl_sizes : forall c c', c ∈ channels d -> c' ∈ channels d -> size c = size c'
}.

(** Result of a member function of ImageData: it returns, leaving the
    object in state [d]; or throws [e], leaving it in state [d]; or has
    left the bounds of a buffer. *)
Inductive outcome : Type :=
| Done (d : ImageData)
| Raised (e : exception) (d : ImageData)
| Undefined.

(** [Task<void> ImageData::multiplyAlpha(int priority)], awaited.  The
    priority orders the work of the pool and has no part in the result. *)
Definition multiplyAlpha (d : ImageData) : outcome :=
  if hasPremultipliedAlpha d
  then Raised (runtime_error "Can't multiply with alpha twice." []) d
  else
    match alphaOperation multiplyWith d with
    | Some d' => Done (setHasPremultipliedAlpha true d')
    | None => Undefined
    end.

(** [Task<void> ImageData::unmultiplyAlpha(int priority)], awaited. *)
Definition unmultiplyAlpha (d : ImageData) : outcome :=
  if negb (hasPremultipliedAlpha d)
  then Raised (runtime_error "Can't divide by alpha twice." []) d
  else
    match alphaOperation divideBy d with
    | Some d' => Done (setHasPremultipliedAlpha false d')
    | None => Undefined
    end.

(** ** Validation (ImageData::ensureValid) *)

(** Order of [pair<size_t, size_t>]: lexicographic, first component first.
    [std::sort] arranges the matches in ascending order; the matches are
    pairwise distinct (their second components are), so that order is
    unique. *)
Definition pair_le (p q : nat * nat) : Prop :=
  (fst p < fst q)%nat \/ (fst p = fst q /\ (snd p <= snd q)%nat).

#[global] Instance pair_le_dec : RelDecision pair_le.
Proof. intros p q. unfold pair_le. apply _. Defined.

(** The strict order that goes with it. *)
Definition pair_lt (p q : nat * nat) : Prop :=
  (fst p < fst q)%nat \/ (fst p = fst q /\ (snd p < snd q)%nat).

Definition size_eqb (a b : Z * Z) : bool :=
  (fst a =? fst b) && (snd a =? snd b).

(** Insertion into a [std::set<string>], kept as the ascending list of its
    members. *)
Fixpoint set_insert (x : string) (s : list string) : list string :=
  match s with
  | [] => [x]
  | y :: s' =>
      match String.compare x y with
      | Lt => x :: s
      | Eq => s
      | Gt => y :: set_insert x s'
      end
  end.

(** The order of [std::set<string>]: [operator<] on strings. *)
Definition string_lt (s1 s2 : string) : Prop := String.compare s1 s2 = Lt.

(** The set [layerNames] built from the channel list. *)
Definition layerNamesOf (cs : list Channel) : list string :=
  fold_left (fun s c => set_insert (head (name c)) s) cs [].

(** The size check passes: every channel has the size of the data window,
    or of the first channel where the data window is not valid. *)
Definition sizesAgree (d : ImageData) : Prop :=
  match channels d with
  | [] => True
  | front :: _ =>
      Forall (fun c => size c = (if isValid (dataWindow d) then boxSize (dataWindow d)
                                 else size front)) (channels d)
  end.

Section Validation.

(** [bool matchesFuzzy(string text, string filter, size_t* matchedPartId)]
    is defined in Common.cpp, which is not part of the sources at hand; it
    is a parameter.  [Some id] stands for the result [true] with [id]
    stored through [matchedPartId], [None] for the result [false]. *)
Variable matchesFuzzy : string -> string -> option nat.

(** The loop that fills [matches], from channel index [i] on. *)
Fixpoint collectMatches (channelSelector : string) (i : nat) (cs : list Channel)
  : list (nat * nat) :=
  match cs with
  | [] => []
  | c :: cs' =>
      match matchesFuzzy (name c) channelSelector with
      | Some matchId => (matchId, i) :: collectMatches channelSelector (S i) cs'
      | None => collectMatches channelSelector (S i) cs'
      end
  end.

(** [matches] after [sort(begin(matches), end(matches))]. *)
Definition sortedMatches (channelSelector : string) (cs : list Channel)
  : list (nat * nat) :=
  merge_sort pair_le (collectMatches channelSelector 0 cs).

(** Prune and sort channels by the channel selector: the channels
    [tmp[match.second]], match by match. *)
Definition selectChannels (channelSelector : string) (tmp : list Channel)
  : list Channel :=
  omap (fun m : nat * nat => tmp !! snd m) (sortedMatches channelSelector tmp).

Definition sizeMismatch (c : Channel) (d : ImageData) : exception :=
  runtime_error
    "All channels must have the same size as the data window. (%s:%dx%d != %dx%d)"
    [ArgS (name c); ArgD (fst (size c)); ArgD (snd (size c));
     ArgD (fst (imageSize d)); ArgD (snd (imageSize d))].

(** No data window? Default to the channel size; the same for the display
    window. *)
Definition defaultWindows (front : Channel) (d : ImageData) : ImageData :=
  let d1 := if isValid (dataWindow d) then d
            else setDataWindow (boxOfSize (size front)) d in
  if isValid (displayWindow d1) then d1
  else setDisplayWindow (boxOfSize (size front)) d1.

(** The block under [if (!channelSelector.empty())]. *)
Definition applySelector (channelSelector : string) (d : ImageData) : ImageData :=
  if String.eqb channelSelector "" then d
  else setChannels (selectChannels channelSelector (channels d)) d.

(** The block under [if (layers.empty())]. *)
Definition deriveLayers (d : ImageData) : ImageData :=
  match layers d with
  | [] => setLayers (layerNamesOf (channels d)) d
  | _ :: _ => d
  end.

(** The object on which the premultiplication step of [ensureValid]
    runs. *)
Definition prepared (channelSelector : string) (front : Channel) (d : ImageData) : ImageData :=
  deriveLayers (applySelector channelSelector (defaultWindows front d)).

(** [Task<void> ImageData::ensureValid(const string& channelSelector,
    int taskPriority)], awaited. *)
Definition ensureValid (channelSelector : string) (d : ImageData) : outcome :=
  match channels d with
  | [] => Raised (runtime_error "Images must have at least one channel." []) d
  | front :: _ =>
      let d := defaultWindows front d in
      match List.find (fun c => negb (size_eqb (size c) (imageSize d))) (channels d) with
      | Some c => Raised (sizeMismatch c d) d
      | None =>
          let d := deriveLayers (applySelector channelSelector d) in
          let r := if hasPremultipliedAlpha d then Done d else multiplyAlpha d in
          match r with
          | Done d =>
              if hasPremultipliedAlpha d then Done d
              else Raised (runtime_error
                     "tev assumes an internal pre-multiplied-alpha representation." []) d
          | Raised e d => Raised e d
          | Undefined => Undefined
          end
      end
  end.

End Validation.

(** ** Channel groups (Image::getGroupedChannels) *)

Module ChannelGroup.
Record t : Type := mk { name : string; channels : list string }.
End ChannelGroup.

(** The table [groups] of canonical tuples, in the order they are tried. *)
Definition groups : list (list string) :=
  [ ["R"; "G"; "B"];
    ["r"; "g"; "b"];
    ["X"; "Y"; "Z"];
    ["x"; "y"; "z"];
    ["U"; "V"];
    ["u"; "v"];
    ["Z"];
    ["z"] ].

(** [std::unique] followed by [erase]: of each run of equal neighbours the
    first is kept. *)
Fixpoint uniqueFrom (prev : string) (l : list string) : list string :=
  match l with
  | [] => []
  | x :: l' => if String.eqb x prev then uniqueFrom prev l' else x :: uniqueFrom x l'
  end.

Definition unique (l : list string) : list string :=
  match l with
  | [] => []
  | x :: l' => x :: uniqueFrom x l'
  end.

(** The lambda [createChannelGroup]. *)
Definition createChannelGroup (layer : string) (chans : list string)
  : res ChannelGroup.t :=
  match chans with
  | [] => Throw (runtime_error "Can't create a channel group without channels." [])
  | _ :: _ =>
      let channelTails := List.map tail (unique chans) in
      let channelsString := join channelTails "," in
      let name :=
        if String.eqb layer "" then channelsString
        else if (List.length channelTails =? 1)%nat then layer +:+ "." +:+ channelsString
        else layer +:+ ".(" +:+ channelsString +:+ ")" in
      Ok (ChannelGroup.mk name chans)
  end.

(** [find(begin(l), end(l), n) != end(l)] *)
Definition found (n : string) (l : list string) : bool := existsb (String.eqb n) l.

(** [l.erase(find(begin(l), end(l), n))] when [n] is found. *)
Fixpoint erase_first (n : string) (l : list string) : list string :=
  match l with
  | [] => []
  | x :: l' => if String.eqb n x then l' else x :: erase_first n l'
  end.

(** The inner loop over the members of one canonical tuple: the members
    present in the pool, and the pool without them. *)
Fixpoint takeGroup (prefix : string) (group : list string) (allChannels : list string)
  : list string * list string :=
  match group with
  | [] => ([], allChannels)
  | chan :: rest =>
      let n := prefix +:+ chan in
      if found n allChannels then
        let '(g, pool) := takeGroup prefix rest (erase_first n allChannels) in
        (n :: g, pool)
      else takeGroup prefix rest allChannels
  end.

(** The loop over the canonical tuples. *)
Fixpoint matchGroups (layerName : string) (hasAlpha : bool) (gs : list (list string))
  (allChannels : list string) (result : list ChannelGroup.t)
  : res (list string * list ChannelGroup.t) :=
  match gs with
  | [] => Ok (allChannels, result)
  | group :: gs' =>
      let '(groupChannels, pool) := takeGroup (layerPrefix layerName) group allChannels in
      match groupChannels with
      | [] => matchGroups layerName hasAlpha gs' pool result
      | first :: _ =>
          let tripled := if (List.length groupChannels =? 1)%nat
                         then groupChannels ++ [first; first]
                         else groupChannels in
          let withAlpha := if hasAlpha then tripled ++ [alphaChannelName layerName]
                           else tripled in
          match createChannelGroup layerName withAlpha with
          | Ok g => matchGroups layerName hasAlpha gs' pool (result ++ [g])
          | Throw e => Throw e
          end
      end
  end.

(** The loop over the channels no tuple has taken. *)
Fixpoint singleGroups (layerName : string) (hasAlpha : bool) (allChannels : list string)
  (result : list ChannelGroup.t) : res (list ChannelGroup.t) :=
  match allChannels with
  | [] => Ok result
  | n :: rest =>
      let members := if hasAlpha then [n; n; n; alphaChannelName layerName]
                     else [n; n; n] in
      match createChannelGroup layerName members with
      | Ok g => singleGroups layerName hasAlpha rest (result ++ [g])
      | Throw e => Throw e
      end
  end.

(** The part of [getGroupedChannels] that follows the call of
    [channelsInLayer]: it works on the names [allChannels] alone. *)
Definition groupChannels (layerName : string) (allChannels : list string)
  : res (list ChannelGroup.t) :=
  let alphaName := alphaChannelName layerName in
  let hasAlpha := found alphaName allChannels in
  let allChannels := if hasAlpha then erase_first alphaName allChannels
                     else allChannels in
  match matchGroups layerName hasAlpha groups allChannels [] with
  | Throw e => Throw e
  | Ok (pool, result) =>
      match singleGroups layerName hasAlpha pool result with
      | Throw e => Throw e
      | Ok result =>
          let alphaOnly :=
            if hasAlpha && (List.length result =? 0)%nat
            then
              match createChannelGroup layerName [alphaName; alphaName; alphaName] with
              | Ok g => Ok (result ++ [g])
              | Throw e => Throw e
              end
            else Ok result in
          match alphaOnly with
          | Throw e => Throw e
          | Ok [] => Throw (runtime_error "Images with no channels should never exist." [])
          | Ok (g :: result) => Ok (g :: result)
          end
      end
  end.

(** [vector<ChannelGroup> Image::getGroupedChannels(const string& layerName)
    const], on the image data [mData] of the image. *)
Definition getGroupedChannels (mData : ImageData) (layerName : string)
  : res (list ChannelGroup.t) :=
  groupChannels layerName (channelsInLayer layerName (channels mData)).

(** The display name of a group as the specification words it: the
    de-duplicated channel tails joined by commas, in parentheses when more
    than one tail remains and bare otherwise, with the layer and a dot in
    front exactly when the layer is not the root. *)
Definition claimedGroupName (layer : string) (members : list string) : string :=
  let tails := remove_dups (List.map tail members) in
  let body := if (1 <? List.length tails)%nat
              then "(" +:+ join tails "," +:+ ")"
              else join tails "," in
  if String.eqb layer "" then body else layer +:+ "." +:+ body.

(** The display name as the code builds it, in the same words: the tails
    of the de-duplicated members joined by commas; in a layer other than the
    root, with the layer and a dot in front and in parentheses when more
    than one member remains; in the root layer, the joined tails as they
    are. *)
Definition displayName (layer : string) (members : list string) : string :=
  let tails := List.map tail (remove_dups members) in
  if String.eqb layer "" then join tails ","
  else if (1 <? List.length tails)%nat
       then layer +:+ "." +:+ "(" +:+ join tails "," +:+ ")"
       else layer +:+ "." +:+ join tails ",".

(** Member lists as [getGroupedChannels] builds them: pairwise distinct
    names, or one name three times, or one name three times and a fourth. *)
Definition tidy (members : list string) : Prop :=
  NoDup members \/
  (exists n, members = [n; n; n]) \/
  (exists n a, members = [n; n; n; a]).

(** A group as the grouping loops make it: named as [displayName] says,
    and ending in the alpha channel when the layer has one. *)
Definition groupOK (layer : string) (hasAlpha : bool) (g : ChannelGroup.t) : Prop :=
  ChannelGroup.name g = displayName layer (ChannelGroup.channels g) /\
  (hasAlpha = true ->
   last (ChannelGroup.channels g) = Some (alphaChannelName layer)).

(** Every canonical tuple lists distinct names, none of them "A". *)
Definition tupleOK (group : list string) : Prop := NoDup group /\ "A" ∉ group.

(** Comparison of a result of [getGroupedChannels] with a list of groups. *)
Definition res_groups_eqb (r : res (list ChannelGroup.t)) (gs : list ChannelGroup.t) : bool :=
  match r with
  | Ok gs' =>
      bool_decide (List.map (fun g => (ChannelGroup.name g, ChannelGroup.channels g)) gs'
                   = List.map (fun g => (ChannelGroup.name g, ChannelGroup.channels g)) gs)
  | Throw _ => false
  end.

(** ** Sample data *)

(** A 4x4 channel holding [v] everywhere. *)
Definition plane (n : string) (v : F32.t) : Channel :=
  mkChannel n 4 4 (replicate 16 v).

(** Channels R, G, B at 1.0 and A at 0.5. *)
Definition rgbaChannels : list Channel :=
  [plane "R" F32.one; plane "G" F32.one; plane "B" F32.one; plane "A" F32.half].

(** The image of these channels with the root layer, 4x4 windows and the
    given flag. *)
Definition rgbaImage (premultiplied : bool) : ImageData :=
  mkImageData rgbaChannels [""] (boxOfSize (4, 4)) (boxOfSize (4, 4)) premultiplied "".

(** A window that is not valid: its max corner lies below its min corner. *)
Definition noWindow : Box2i := mkBox (0, 0) (-1, -1).

(** Channels of two layers, and a stand-in for the matcher that accepts a
    channel when its tail is the selector, with rank 0. *)
Definition layeredChannels : list Channel :=
  [plane "layer1.R" F32.one; plane "layer1.G" F32.one; plane "layer2.R" F32.one].

Definition matchesTail (text filter : string) : option nat :=
  if String.eqb (tail text) filter then Some 0%nat else None.

(** Two layers of which the code lists the channel "ab" for both: it has no
    dot, and it starts with the layer name "a". *)
Definition sharedChannels : list Channel :=
  [plane "A" F32.one; plane "ab" F32.one; plane "a.A" F32.zero; plane "a.R" F32.one].

Definition sharedImage : ImageData :=
  mkImageData sharedChannels [""; "a"] (boxOfSize (4, 4)) (boxOfSize (4, 4)) false "".

(** A divisor with a zero in it, and a target of the same size. *)
Definition divisor : Channel := mkChannel "A" 1 2 [F32.zero; F32.half].
Definition dividend : Channel := mkChannel "R" 1 2 [F32.one; F32.one].

(** ** BackgroundImagesLoader: ordered publication of loads *)

Section Loader.

(** [shared_ptr<Image>]; the loader moves images around and never looks
    into them. *)
Variable Image : Type.

(** The record pushed for a finished load. *)
Record ImageAddition : Type := mkImageAddition {
  loadId : Z;
  shallSelect : bool;
  images : list Image
}.

(** Modelled from the spec: the members of BackgroundImagesLoader are
    declared in tev/Image.h, which is not part of the sources at hand.
    [mPendingLoadedImages] is an ordered-priority buffer of the completed
    and not yet published records, keyed by their sequence id, whose top is
    the record of minimum key; it is kept as the list of its records in
    ascending key order.  [mLoadedImages] is the FIFO of published records,
    oldest first.  Both counters start at 0. *)
Record BackgroundImagesLoader : Type := mkLoader {
  mUnsortedLoadCounter : Z;
  mLoadCounter : Z;
  mPendingLoadedImages : list ImageAddition;
  mLoadedImages : list ImageAddition
}.

Definition newLoader : BackgroundImagesLoader := mkLoader 0 0 [] [].

(** [mPendingLoadedImages.push(r)] *)
Fixpoint pq_push (r : ImageAddition) (q : list ImageAddition) : list ImageAddition :=
  match q with
  | [] => [r]
  | x :: q' => if loadId r <? loadId x then r :: q else x :: pq_push r q'
  end.

(** The synchronous part of [BackgroundImagesLoader::enqueue]:
    [int loadId = mUnsortedLoadCounter++]. *)
Definition enqueue (l : BackgroundImagesLoader) : Z * BackgroundImagesLoader :=
  (mUnsortedLoadCounter l,
   mkLoader (mUnsortedLoadCounter l + 1) (mLoadCounter l)
     (mPendingLoadedImages l) (mLoadedImages l)).

(** The first critical section of the detached task:
    [mPendingLoadedImages.push({ loadId, shallSelect, images })]. *)
Definition pushLoad (r : ImageAddition) (l : BackgroundImagesLoader)
  : BackgroundImagesLoader :=
  mkLoader (mUnsortedLoadCounter l) (mLoadCounter l)
    (pq_push r (mPendingLoadedImages l)) (mLoadedImages l).

(** The loop of [publishSortedLoads]; every iteration pops the top. *)
Fixpoint publishLoop (pending : list ImageAddition) (counter : Z)
  (loaded : list ImageAddition) (pushed : bool)
  : list ImageAddition * Z * list ImageAddition * bool :=
  match pending with
  | [] => (pending, counter, loaded, pushed)
  | top :: rest =>
      if loadId top =? counter then
        publishLoop rest (counter + 1)
          (match images top with
           | [] => loaded
           | _ :: _ => loaded ++ [top]
           end)
          true
      else (pending, counter, loaded, pushed)
  end.

(** [bool BackgroundImagesLoader::publishSortedLoads()] *)
Definition publishSortedLoads (l : BackgroundImagesLoader)
  : bool * BackgroundImagesLoader :=
  let '(pending, counter, loaded, pushed) :=
    publishLoop (mPendingLoadedImages l) (mLoadCounter l) (mLoadedImages l) false in
  (pushed, mkLoader (mUnsortedLoadCounter l) counter pending loaded).

(** *** The loader with its detached tasks

    Every call of [enqueue] draws a [loadId] and starts one task, which
    captures it.  A task first loads (off the lock), then pushes its record,
    with the [loadId] it has captured, under the lock, then calls
    [publishSortedLoads], which takes the lock again; tasks of different
    requests interleave freely between these steps. *)

Inductive phase : Type :=
| Loading    (* [tryLoadImage] has not returned yet *)
| Pushed     (* the record is pushed, [publishSortedLoads] not yet called *)
| Finished.

(** [tasks !! k] is the task that call number [k] of [enqueue] has
    started, calls being counted from 0: the [loadId] and the [shallSelect]
    it has captured, and its phase. *)
Record system : Type := mkSystem {
  loader : BackgroundImagesLoader;
  tasks : list (Z * bool * phase)
}.

Definition init : system := mkSystem newLoader [].

Inductive event : Type :=
| Enqueue (select : bool)
    (* a call of [enqueue] *)
| Complete (request : Z) (imgs : list Image)
    (* the task of call number [request]: load done, record pushed *)
| Publish (request : Z).
    (* the task of call number [request]: [publishSortedLoads] *)

(** One atomic step; [None] when the event cannot happen in that state. *)
Definition step (s : system) (ev : event) : option system :=
  match ev with
  | Enqueue select =>
      let '(loadId, l) := enqueue (loader s) in
      Some (mkSystem l (tasks s ++ [(loadId, select, Loading)]))
  | Complete request imgs =>
      if 0 <=? request then
        match tasks s !! Z.to_nat request with
        | Some (loadId, select, Loading) =>
            Some (mkSystem (pushLoad (mkImageAddition loadId select imgs) (loader s))
                    (<[Z.to_nat request := (loadId, select, Pushed)]> (tasks s)))
        | _ => None
        end
      else None
  | Publish request =>
      if 0 <=? request then
        match tasks s !! Z.to_nat request with
        | Some (loadId, select, Pushed) =>
            Some (mkSystem (snd (publishSortedLoads (loader s)))
                    (<[Z.to_nat request := (loadId, select, Finished)]> (tasks s)))
        | _ => None
        end
      else None
  end.

Fixpoint run (s : system) (tr : list event) : option system :=
  match tr with
  | [] => Some s
  | ev :: tr' =>
      match step s ev with
      | Some s' => run s' tr'
      | None => None
      end
  end.

(** The loads that have completed along a trace, in completion order:
    the number of the request, counted from 0 in the order of the calls of
    [enqueue], and the images loaded for it. *)
Fixpoint completions (tr : list event) : list (Z * list Image) :=
  match tr with
  | [] => []
  | Complete request imgs :: tr' => (request, imgs) :: completions tr'
  | _ :: tr' => completions tr'
  end.

(** The number of requests made along a trace. *)
Fixpoint enqueued (tr : list event) : nat :=
  match tr with
  | [] => 0%nat
  | Enqueue _ :: tr' => S (enqueued tr')
  | _ :: tr' => enqueued tr'
  end.

(** No task is under way. *)
Definition quiescent (s : system) : bool :=
  forallb (fun t => match snd t with Finished => true | _ => false end) (tasks s).

(** Sequence id and images of a record: the [loadId] it was pushed
    with. *)
Definition entry (r : ImageAddition) : Z * list Image := (loadId r, images r).

(** What the consumer sees: sequence ids and images of the published
    FIFO. *)
Definition published (s : system) : list (Z * list Image) :=
  List.map entry (mLoadedImages (loader s)).

(** A failed load: its image list is empty. *)
Definition failed (r : Z * list Image) : bool :=
  match snd r with [] => true | _ :: _ => false end.

Definition succeeded (r : Z * list Image) : bool := negb (failed r).

(** Records in strictly ascending order of their sequence ids. *)
Definition ascending (q : list ImageAddition) : Prop :=
  StronglySorted (fun a b => loadId a < loadId b) q.

(** What holds of the loader and its tasks after any trace with the
    completions [hist]. *)
Record loader_inv (s : system) (hist : list (Z * list Image)) : Prop := {
  inv_counter :
    mUnsortedLoadCounter (loader s) = Z.of_nat (List.length (tasks s));
  inv_ids : forall i id select ph,
    tasks s !! i = Some (id, select, ph) -> id = Z.of_nat i;
  inv_next :
    0 <= mLoadCounter (loader s) <= mUnsortedLoadCounter (loader s);
  inv_loading : forall i id select ph,
    tasks s !! i = Some (id, select, ph) ->
    (ph = Loading <-> Z.of_nat i ∉ List.map fst hist);
  inv_hist_range : forall x,
    x ∈ hist -> 0 <= fst x < mUnsortedLoadCounter (loader s);
  inv_hist_nodup : NoDup (List.map fst hist);
  inv_pending_sorted : ascending (mPendingLoadedImages (loader s));
  inv_pending_elem : forall x,
    x ∈ List.map entry (mPendingLoadedImages (loader s)) <->
    x ∈ hist /\ mLoadCounter (loader s) <= fst x;
  inv_published : exists pub,
    published s = List.filter succeeded pub /\
    List.map fst pub = seqZ 0 (mLoadCounter (loader s)) /\
    forall x, x ∈ pub -> x ∈ hist;
  inv_publishable : forall r rest,
    mPendingLoadedImages (loader s) = r :: rest ->
    loadId r = mLoadCounter (loader s) ->
    exists i id select, tasks s !! i = Some (id, select, Pushed)
}.

End Loader.

Arguments mkImageAddition {Image}.
Arguments loadId {Image}.
Arguments shallSelect {Image}.
Arguments images {Image}.
Arguments mkLoader {Image}.
Arguments mUnsortedLoadCounter {Image}.
Arguments mLoadCounter {Image}.
Arguments mPendingLoadedImages {Image}.
Arguments mLoadedImages {Image}.
Arguments newLoader {Image}.
Arguments pq_push {Image}.
Arguments enqueue {Image}.
Arguments pushLoad {Image}.
Arguments publishLoop {Image}.
Arguments publishSortedLoads {Image}.
Arguments mkSystem {Image}.
Arguments loader {Image}.
Arguments tasks {Image}.
Arguments init {Image}.
Arguments Enqueue {Image}.
Arguments Complete {Image}.
Arguments Publish {Image}.
Arguments step {Image}.
Arguments run {Image}.
Arguments completions {Image}.
Arguments enqueued {Image}.
Arguments quiescent {Image}.
Arguments published {Image}.
Arguments failed {Image}.
Arguments entry {Image}.
Arguments succeeded {Image}.
Arguments ascending {Image}.
Arguments loader_inv {Image}.

(** *** The example of three requests

    Requests 0, 1 and 2 are made; their loads complete in the order 2, 0,
    1, every task publishing right after its push.  In the second trace the
    load of request 1 fails. *)
Definition threeRequests (second : list string) : list (event string) :=
  [ Enqueue false; Enqueue false; Enqueue false;
    Complete 2 ["c"]; Publish 2;
    Complete 0 ["a"]; Publish 0;
    Complete 1 second; Publish 1 ].

(** ** The image (Image.cpp: constructor, [shortName], [channelsInGroup],
       [getSortedChannels], [texture]) *)

(** [std::invalid_argument], which [texture] and the loaders throw: the
    format string of the message and its arguments. *)
Inductive invalid_argument : Type :=
| mkInvalidArgument (description : string) (args : list fmt_arg).

(** [s.find_last_of(chars)] *)
Fixpoint find_last_of (chars : list ascii) (s : string) : option nat :=
  match s with
  | EmptyString => None
  | String c s' =>
      match find_last_of chars s' with
      | Some k => Some (S k)
      | None => if existsb (Ascii.eqb c) chars then Some 0%nat else None
      end
  end.

(** The two characters of the literal "/\\" in [shortName]: the slash and
    the backslash (character 92). *)
Definition slash : ascii := "/"%char.
Definition backslash : ascii := ascii_of_nat 92.

(** The loop of the constructor over [mData.layers]: the groups of every
    layer, appended to [mChannelGroups]. *)
Fixpoint collectGroups (mData : ImageData) (ls : list string)
  (mChannelGroups : list ChannelGroup.t) : res (list ChannelGroup.t) :=
  match ls with
  | [] => Ok mChannelGroups
  | l :: ls' =>
      match getGroupedChannels mData l with
      | Ok gs => collectGroups mData ls' (mChannelGroups ++ gs)
      | Throw e => Throw e
      end
  end.

(** The loop of [channelsInGroup]. *)
Fixpoint lookupGroup (groupName : string) (gs : list ChannelGroup.t) : list string :=
  match gs with
  | [] => []
  | group :: gs' =>
      if String.eqb (ChannelGroup.name group) groupName
      then ChannelGroup.channels group
      else lookupGroup groupName gs'
  end.

(** The inner loop of [getSortedChannels], over the members of one group;
    the state is [includesAlphaChannel] and [result]. *)
Fixpoint sortMembers (alphaChannelName : string) (members : list string)
  (st : bool * list string) : bool * list string :=
  match members with
  | [] => st
  | n :: rest =>
      let '(includesAlphaChannel, result) := st in
      if String.eqb n alphaChannelName then
        if includesAlphaChannel then sortMembers alphaChannelName rest st
        else sortMembers alphaChannelName rest (true, result ++ [n])
      else sortMembers alphaChannelName rest (includesAlphaChannel, result ++ [n])
  end.

(** Its outer loop, over the groups. *)
Fixpoint sortGroups (alphaChannelName : string) (gs : list ChannelGroup.t)
  (st : bool * list string) : bool * list string :=
  match gs with
  | [] => st
  | group :: gs' =>
      sortGroups alphaChannelName gs'
        (sortMembers alphaChannelName (ChannelGroup.channels group) st)
  end.

(** A group as the loops of [getGroupedChannels] put it together from the
    names [pool] of a layer: two or three of these names, or one of them
    three times, and behind them the alpha channel where the layer has
    one. *)
Definition madeFrom (layer : string) (hasAlpha : bool) (pool : list string)
  (g : ChannelGroup.t) : Prop :=
  (if hasAlpha then 3 <= List.length (ChannelGroup.channels g) <= 4
   else 2 <= List.length (ChannelGroup.channels g) <= 3)%nat /\
  (forall n, n ∈ ChannelGroup.channels g ->
     n ∈ pool \/ (hasAlpha = true /\ n = alphaChannelName layer)) /\
  (exists n, n ∈ ChannelGroup.channels g /\ n ∈ pool).

(** The body of the loops of [Image::texture] over the pixels: the
    assignment [data[j * 4 + i] = value], undefined outside [data] or where
    the value is read outside its buffer. *)
Definition writeComponent (i : Z) (value : Z -> option F32.t) (j : Z)
  (data : list F32.t) : option (list F32.t) :=
  match value j with
  | Some v =>
      let k := j * 4 + i in
      if (0 <=? k) && (Z.to_nat k <? List.length data)%nat
      then Some (<[Z.to_nat k := v]> data)
      else None
  | None => None
  end.

(** The loop of [Image::texture] over the components [i], for the
    components listed.  The four loops over the pixels run in the pool;
    they write different places of [data], and are taken one after the
    other here. *)
Fixpoint textureComponents (path : string) (cs : list Channel) (numPixels : Z)
  (channelNames : list string) (components : list nat)
  (data : option (list F32.t))
  : invalid_argument + option (list F32.t) :=
  match components with
  | [] => inr data
  | i :: rest =>
      match channelNames !! i with
      | Some channelName =>
          match channel channelName cs with
          | None =>
              inl (mkInvalidArgument
                     "Cannot obtain texture of %s:%s, because the channel does not exist."
                     [ArgS path; ArgS channelName])
          | Some (_, chan) =>
              textureComponents path cs numPixels channelNames rest
                (data ≫= parallelFor 0 numPixels
                           (writeComponent (Z.of_nat i) (coeff chan)))
          end
      | None =>
          let val := if (i =? 3)%nat then F32.one else F32.zero in
          textureComponents path cs numPixels channelNames rest
            (data ≫= parallelFor 0 numPixels
                       (writeComponent (Z.of_nat i) (fun _ => Some val)))
      end
  end.

(** What these loops put at component [i] of the pixel [j]: the
    coefficient [j] of the channel named at position [i], and for a position
    behind the names given 1 for the fourth component and 0 for the
    others. *)
Definition componentValue (cs : list Channel) (channelNames : list string)
  (i : nat) (j : Z) : option F32.t :=
  match channelNames !! i with
  | Some n =>
      match channel n cs with
      | Some (_, chan) => coeff chan j
      | None => None
      end
  | None => Some (if (i =? 3)%nat then F32.one else F32.zero)
  end.

Module Image.

(** The members of [Image] that the functions below read.  A path is the
    string [path.str()] gives. *)
Record t : Type := mk {
  mPath : string;
  mChannelSelector : string;
  mData : ImageData;
  mName : string;
  mChannelGroups : list ChannelGroup.t;
  mId : Z
}.

(** [Image::Image(const path& path, ImageData&& data, const string&
    channelSelector)]; [id] is the value that [drawId()] hands out.  The
    constructor throws what [getGroupedChannels] throws. *)
Definition Image (id : Z) (path : string) (data : ImageData) (channelSelector : string)
  : res t :=
  let name := if String.eqb channelSelector "" then path
              else path +:+ ":" +:+ channelSelector in
  match collectGroups data (layers data) [] with
  | Ok groups => Ok (mk path channelSelector data name groups id)
  | Throw e => Throw e
  end.

(** [string Image::shortName() const] *)
Definition shortName (img : t) : string :=
  let result := mName img in
  let result :=
    match find_last_of [slash; backslash] result with
    | Some slashPosition => substr_from result (slashPosition + 1)
    | None => result
    end in
  match find_last_of [":"%char] result with
  | Some colonPosition => String.substring 0 colonPosition result
  | None => result
  end.

(** [vector<string> Image::channelsInGroup(const string& groupName) const] *)
Definition channelsInGroup (img : t) (groupName : string) : list string :=
  lookupGroup groupName (mChannelGroups img).

(** [vector<string> Image::getSortedChannels(const string& layerName) const] *)
Definition getSortedChannels (img : t) (layerName : string) : res (list string) :=
  match getGroupedChannels (mData img) layerName with
  | Ok gs => Ok (snd (sortGroups (alphaChannelName layerName) gs (false, [])))
  | Throw e => Throw e
  end.

(** The vector [data] that [Texture* Image::texture(const vector<string>&
    channelNames)] fills and uploads for a group that has no texture yet:
    four values for each of the [numPixels] pixels, all 0 at first.
    [numPixels] is what [numPixels()] of Image.h returns. *)
Definition textureData (img : t) (numPixels : Z) (channelNames : list string)
  : invalid_argument + option (list F32.t) :=
  textureComponents (mPath img) (channels (mData img)) numPixels channelNames
    [0; 1; 2; 3]%nat
    (Some (replicate (Z.to_nat (numPixels * 4)) F32.zero)).

End Image.

(** ** Utilities (include/tev/Common.h) *)

(** [template <typename T> T clamp(T value, T min, T max)] at an integer
    type [T]. *)
Definition clamp (value min max : Z) : res Z :=
  if max >=? min then Ok (Z.max (Z.min value max) min)
  else Throw (runtime_error "Minimum (%f) may not be larger than maximum (%f)."
                [ArgD min; ArgD max]).

(** [int codePointLength(char first)].  [first] is promoted to [int] before
    it is masked, so it is a number from -128 to 127 where [char] is signed
    and from 0 to 255 where it is not; the masks act on the two's
    complement representation, as [Z.land] does. *)
Definition codePointLength (first : Z) : Z :=
  if Z.land first 248 =? 240 then 4
  else if Z.land first 240 =? 224 then 3
  else if Z.land first 224 =? 192 then 2
  else 1.

(** The value of the byte [b] as a signed [char]. *)
Definition signedChar (b : Z) : Z := if b <? 128 then b else b - 256.

(** [int] of the source, 32 bits wide.  An operation on [int] whose
    result is outside the range of the type has no defined result, and
    neither has a division by zero; [/] rounds towards zero. *)
Definition INT_MIN : Z := -2147483648.
Definition INT_MAX : Z := 2147483647.

Definition int_of (z : Z) : option Z :=
  if (INT_MIN <=? z) && (z <=? INT_MAX) then Some z else None.

Definition int_add (a b : Z) : option Z := int_of (a + b).
Definition int_sub (a b : Z) : option Z := int_of (a - b).
Definition int_mul (a b : Z) : option Z := int_of (a * b).
Definition int_div (a b : Z) : option Z :=
  if b =? 0 then None else int_of (Z.quot a b).

(** ** Input streams

    [std::istream] as the loaders use it: the characters of the file, the
    read position, the state bits [eofbit] and [failbit], and the count of
    the last unformatted read. *)
Record istream : Type := mkStream {
  buffer : list ascii;
  cursor : nat;
  eofbit : bool;
  failbit : bool;
  gcount : nat
}.

(** [good()]: no state bit is set. *)
Definition good (s : istream) : bool := negb (eofbit s) && negb (failbit s).

(** [!!iStream], which is [!fail()]. *)
Definition operator_bool (s : istream) : bool := negb (failbit s).

(** [iStream.read(b, n)]: the characters stored into [b] and the stream
    afterwards.  On a stream that is not good nothing is read and [failbit]
    is set; where fewer than [n] characters are left they are all read and
    [eofbit] and [failbit] are set. *)
Definition read (n : nat) (s : istream) : list ascii * istream :=
  if good s then
    let got := take n (drop (cursor s) (buffer s)) in
    if (List.length got <? n)%nat
    then (got, mkStream (buffer s) (cursor s + List.length got) true true (List.length got))
    else (got, mkStream (buffer s) (cursor s + n) false false n)
  else ([], mkStream (buffer s) (cursor s) (eofbit s) true 0).

(** [iStream.clear()] *)
Definition clear (s : istream) : istream :=
  mkStream (buffer s) (cursor s) false false (gcount s).

(** [iStream.seekg(p)]: clears [eofbit]; on a stream that has not failed it
    moves the read position, which succeeds for a position within the
    file. *)
Definition seekg (p : nat) (s : istream) : istream :=
  if failbit s then mkStream (buffer s) (cursor s) false true (gcount s)
  else if (p <=? List.length (buffer s))%nat
       then mkStream (buffer s) p false false (gcount s)
       else mkStream (buffer s) (cursor s) false true (gcount s).

Module EmptyImageLoader.

Definition magic : list ascii := list_ascii_of_string "empty".

(** [bool EmptyImageLoader::canLoadFile(istream& iStream) const]: the
    result and the stream it leaves. *)
Definition canLoadFile (iStream : istream) : bool * istream :=
  let '(b, s) := read 5 iStream in
  let result := operator_bool s && (gcount s =? 5)%nat && bool_decide (b = magic) in
  (result, seekg 0 (clear s)).

End EmptyImageLoader.

Module ExrImageLoader.

(** The four characters 0x76, 0x2f, 0x31, 0x01 that [canLoadFile] compares
    with. *)
Definition magic : list ascii :=
  [ascii_of_nat 118; ascii_of_nat 47; ascii_of_nat 49; ascii_of_nat 1].

(** [bool ExrImageLoader::canLoadFile(istream& iStream) const] *)
Definition canLoadFile (iStream : istream) : bool * istream :=
  let '(b, s) := read 4 iStream in
  let result := operator_bool s && (gcount s =? 4)%nat && bool_decide (b = magic) in
  (result, seekg 0 (clear s)).

(** [Imath::Box2i]: a rectangle both of whose corners belong to it. *)
Record ImathBox2i : Type := mkImathBox { imin : Z * Z; imax : Z * Z }.

(** What [load] reads of the header of one part of the file: the names of
    its channels in the order of the channel list, and its windows. *)
Record Part : Type := mkPart {
  partChannels : list string;
  partDataWindow : ImathBox2i;
  partDisplayWindow : ImathBox2i
}.

(** EXR's windows have inclusive upper ends while tev's upper ends are
    exclusive.  Hence the +1. *)
Definition toBox2i (w : ImathBox2i) : Box2i :=
  mkBox (imin w) (fst (imax w) + 1, snd (imax w) + 1).

(** What [load] has fixed when it starts to read pixels: the size of the
    channels, the two windows, and the matched channels of the part it
    reads. *)
Record Header : Type := mkHeader {
  hPartIdx : nat;
  hSize : Z * Z;
  hDataWindow : Box2i;
  hDisplayWindow : Box2i;
  hMatches : list string
}.

Definition windowError (description : string) (w : Box2i) : invalid_argument :=
  mkInvalidArgument description
    [ArgD (fst (boxMin w)); ArgD (snd (boxMin w));
     ArgD (fst (boxMax w)); ArgD (snd (boxMax w))].

Section Load.

(** [matchesFuzzy] of Common.cpp, as for [ensureValid]. *)
Variable matchesFuzzy : string -> string -> option nat.

Definition matchesSelector (channelSelector n : string) : bool :=
  match matchesFuzzy n channelSelector with Some _ => true | None => false end.

(** The loop that finds the first part containing a channel that matches
    the selector, from part [i] on; [partIdx] stays 0 when there is none. *)
Fixpoint findPart (channelSelector : string) (i : nat) (parts : list Part) : nat :=
  match parts with
  | [] => 0%nat
  | part :: rest =>
      if existsb (matchesSelector channelSelector) (partChannels part) then i
      else findPart channelSelector (S i) rest
  end.

(** [ExrImageLoader::load] up to the allocation of the raw channels: the
    checks it makes, in their order.  The part read is [Imf::InputPart
    file{multiPartFile, partIdx}]; [partIdx] is below the number of parts
    whenever there is a part.  [hMatches] lists the matched channels in the
    order of the channel list; the sort by the matched component of the
    selector rearranges them and neither adds nor drops one. *)
Definition loadHeader (channelSelector : string) (parts : list Part)
  : invalid_argument + Header :=
  match parts with
  | [] => inl (mkInvalidArgument "EXR image does not contain any parts." [])
  | first :: _ =>
      let partIdx := findPart channelSelector 0 parts in
      let file := nth partIdx parts first in
      let dataWindow := partDataWindow file in
      let displayWindow := partDisplayWindow file in
      let size := (fst (imax dataWindow) - fst (imin dataWindow) + 1,
                   snd (imax dataWindow) - snd (imin dataWindow) + 1) in
      if (fst size =? 0) || (snd size =? 0)
      then inl (mkInvalidArgument "EXR image has zero pixels." [])
      else if negb (isValid (toBox2i dataWindow))
      then inl (windowError "EXR image has invalid data window: [%d,%d] - [%d,%d]"
                  (toBox2i dataWindow))
      else if negb (isValid (toBox2i displayWindow))
      then inl (windowError "EXR image has invalid display window: [%d,%d] - [%d,%d]"
                  (toBox2i displayWindow))
      else
        let matches := List.filter (matchesSelector channelSelector)
                         (partChannels file) in
        match matches with
        | [] => inl (mkInvalidArgument "No channels match '%s'." [ArgS channelSelector])
        | _ :: _ =>
            inr (mkHeader partIdx size (toBox2i dataWindow) (toBox2i displayWindow)
                   matches)
        end
  end.

End Load.

(** The image data that [load] returns for a header, [cs] being the
    channels it has made of the raw channels. *)
Definition loaded (h : Header) (cs : list Channel) : ImageData :=
  mkImageData cs [] (hDataWindow h) (hDisplayWindow h) true "".

(** [RawChannel::copyToTyped]: the index at which the raw buffer is read
    for the pixel [(x, y)] of a channel of width [width], computed in
    [int] as the source computes it. *)
Definition rawIndex (xSampling ySampling width x y : Z) : option Z :=
  widthSubsampled ← int_div width ySampling;
  column ← int_div x xSampling;
  row ← int_div y ySampling;
  offset ← int_mul row widthSubsampled;
  int_add column offset.

(** The slice that [RawChannel::registerWith] hands to the frame buffer:
    its base, as the offset in bytes from [mData.data()], its two strides in
    bytes and its sampling rates. *)
Record Slice : Type := mkSlice {
  base : Z;
  xStride : Z;
  yStride : Z;
  sliceXSampling : Z;
  sliceYSampling : Z
}.

(** [void registerWith(Imf::FrameBuffer& frameBuffer, const Imath::Box2i&
    dw)], for a channel of [bytesPerPixel()] bytes a value: the slice it
    inserts, every operand being an [int]. *)
Definition registerWith (bytesPerPixel xSampling ySampling : Z) (dw : ImathBox2i)
  : option Slice :=
  extent ← int_sub (fst (imax dw)) (fst (imin dw));
  width ← int_add extent 1;
  rows ← int_mul (snd (imin dw)) width;
  first ← int_add (fst (imin dw)) rows;
  offset ← int_mul first bytesPerPixel;
  widthSubsampled ← int_div width xSampling;
  stride ← int_mul bytesPerPixel widthSubsampled;
  Some (mkSlice (- offset) bytesPerPixel stride xSampling ySampling).

(** OpenEXR keeps the pixel [(x, y)] of the data window at the address
    [base + (x / xSampling) * xStride + (y / ySampling) * yStride] of a
    slice (ImfFrameBuffer.h of the library), computed in the width of a
    pointer; this is that address as an offset in bytes from
    [mData.data()]. *)
Definition sliceAddress (sl : Slice) (x y : Z) : Z :=
  base sl
  + Z.quot x (sliceXSampling sl) * xStride sl
  + Z.quot y (sliceYSampling sl) * yStride sl.

End ExrImageLoader.

(** ** tryLoadImage: the choice of the loader *)

(** A stream as [tryLoadImage] hands it to a loader: at the start of the
    file, with no state bit set. *)
Definition fresh (s : istream) : bool := (cursor s =? 0)%nat && good s.

(** What [tryLoadImage] relies on in a [canLoadFile]: it reads the file and
    does not change it, and on a stream at the start of the file its answer
    depends on the file alone. *)
Definition probes (canLoadFile : istream -> bool * istream) : Prop :=
  (forall s, buffer (snd (canLoadFile s)) = buffer s) /\
  (forall s1 s2, buffer s1 = buffer s2 -> fresh s1 = true -> fresh s2 = true ->
     fst (canLoadFile s1) = fst (canLoadFile s2)).

(** The loop of [tryLoadImage] over [ImageLoader::getLoaders()], from
    loader [i] on; a loader is given as its [canLoadFile].  The result is
    the index of the loader whose [load] is called and the stream it is
    called with; [None] stands for the throw of "No suitable image loader
    found." behind the loop.  The last loader is used without being
    asked. *)
Fixpoint chooseLoader (loaders : list (istream -> bool * istream)) (i : nat)
  (iStream : istream) : option (nat * istream) :=
  match loaders with
  | [] => None
  | canLoadFile :: rest =>
      let '(useLoader, s) :=
        match rest with
        | [] => (true, iStream)
        | _ :: _ => canLoadFile iStream
        end in
      let s := seekg 0 (clear s) in
      if useLoader then Some (i, s) else chooseLoader rest (S i) s
  end.


(** ** Reads *)

Lemma coeff_lookup (c : Channel) (i : Z) :
  0 <= i -> coeff c i = mData c !! Z.to_nat i.
Proof. intros Hi. unfold coeff. by rewrite (proj2 (Z.leb_le 0 i) Hi). Qed.

Lemma coeff_negative (c : Channel) (i : Z) : i < 0 -> coeff c i = None.
Proof. intros Hi. unfold coeff. by rewrite (proj2 (Z.leb_gt 0 i) Hi). Qed.

Lemma coeff_in_range (c : Channel) (i : Z) :
  Channel_wf c -> 0 <= i < count c -> is_Some (coeff c i).
Proof.
  intros (_ & _ & Hlen) Hi. rewrite coeff_lookup by lia.
  apply lookup_lt_is_Some. unfold count in Hi. lia.
Qed.

Lemma eval_past_end (c : Channel) (i : Z) : count c <= i -> eval c i = Some F32.zero.
Proof. intros Hi. unfold eval. by rewrite (proj2 (Z.geb_le i (count c)) Hi). Qed.

Lemma eval_in_range (c : Channel) (i : Z) :
  0 <= i < count c -> eval c i = mData c !! Z.to_nat i.
Proof.
  intros Hi. unfold eval.
  destruct (i >=? count c) eqn:E; [apply Z.geb_le in E; lia|].
  apply coeff_lookup. lia.
Qed.

Lemma eval2_outside (c : Channel) (x y : Z) :
  x < 0 \/ cols c <= x \/ y < 0 \/ rows c <= y -> eval2 c (x, y) = Some F32.zero.
Proof.
  intros H. unfold eval2.
  destruct (x <? 0) eqn:E1; [done|].
  destruct (x >=? cols c) eqn:E2; [done|].
  destruct (y <? 0) eqn:E3; [done|].
  destruct (y >=? rows c) eqn:E4; [done|].
  apply Z.ltb_ge in E1, E3.
  assert (~ cols c <= x) by (intros ?%Z.geb_le; congruence).
  assert (~ rows c <= y) by (intros ?%Z.geb_le; congruence).
  lia.
Qed.

Lemma eval2_inside (c : Channel) (x y : Z) :
  0 <= x < cols c -> 0 <= y < rows c ->
  eval2 c (x, y) = mData c !! Z.to_nat (x + y * cols c).
Proof.
  intros Hx Hy. unfold eval2.
  destruct (x <? 0) eqn:E1; [apply Z.ltb_lt in E1; lia|].
  destruct (x >=? cols c) eqn:E2; [apply Z.geb_le in E2; lia|].
  destruct (y <? 0) eqn:E3; [apply Z.ltb_lt in E3; lia|].
  destruct (y >=? rows c) eqn:E4; [apply Z.geb_le in E4; lia|].
  simpl. apply coeff_lookup. nia.
Qed.

Lemma eval2_never_fails (c : Channel) (index : Z * Z) :
  Channel_wf c -> is_Some (eval2 c index).
Proof.
  intros Hwf. destruct index as [x y].
  destruct (decide (0 <= x < cols c /\ 0 <= y < rows c)) as [[Hx Hy]|Hout].
  - rewrite eval2_inside by done. destruct Hwf as (_ & _ & Hlen).
    apply lookup_lt_is_Some. nia.
  - rewrite eval2_outside; [done|lia].
Qed.

(** C8 (the linear read).  The one-dimensional [eval] compares the index
    with the end of the buffer only: a negative index is passed on to the
    unchecked coefficient access and reads outside the buffer, it does not
    give 0. *)
Theorem eval_negative_index (c : Channel) (index : Z) :
  Channel_wf c -> index < 0 -> eval c index = None.
Proof.
  intros (Hr & Hc & _) Hneg. unfold eval.
  destruct (index >=? count c) eqn:E.
  - apply Z.geb_le in E. unfold count in E. nia.
  - by apply coeff_negative.
Qed.

(** ** Elementwise loops *)

Section Pointwise.

Variable f : F32.t -> F32.t -> F32.t.
Variable body : Channel -> Z -> Channel -> option Channel.
Hypothesis body_at : forall other i self x o,
  at_ self i = Some x -> at_ other i = Some o ->
  body other i self = setCoeff self i (f x o).

Lemma setCoeff_middle n r c (done rest : list F32.t) (x v : F32.t) :
  setCoeff (mkChannel n r c (done ++ x :: rest)) (Z.of_nat (length done)) v
  = Some (mkChannel n r c ((done ++ [v]) ++ rest)).
Proof using Type.
  unfold setCoeff. simpl. rewrite Nat2Z.id.
  replace (0 <=? Z.of_nat (length done)) with true by (symmetry; apply Z.leb_le; lia).
  replace (length done <? length (done ++ x :: rest))%nat with true.
  2:{ symmetry. apply Nat.ltb_lt. rewrite length_app. simpl. lia. }
  simpl. do 2 f_equal.
  replace (length done) with (length done + 0)%nat at 1 by lia.
  rewrite insert_app_r. simpl. by rewrite <- app_assoc.
Qed.

Lemma pointwise_from n r c (other : Channel) (done mine theirs : list F32.t) :
  length mine = length theirs ->
  drop (length done) (mData other) = theirs ->
  forEach (body other) (seqZ (Z.of_nat (length done)) (Z.of_nat (length mine)))
    (mkChannel n r c (done ++ mine))
  = Some (mkChannel n r c (done ++ zip_with f mine theirs)).
Proof using body_at.
  revert done theirs. induction mine as [|x mine IH]; intros done theirs Hlen Hdrop.
  - destruct theirs; [|done]. done.
  - destruct theirs as [|o theirs]; [done|]. simpl in Hlen.
    rewrite seqZ_cons by (simpl; lia). simpl forEach.
    assert (Hother : at_ other (Z.of_nat (length done)) = Some o).
    { unfold at_. rewrite coeff_lookup by lia. rewrite Nat2Z.id.
      rewrite <- (Nat.add_0_r (length done)), <- lookup_drop, Hdrop. done. }
    assert (Hself : at_ (mkChannel n r c (done ++ x :: mine)) (Z.of_nat (length done))
                    = Some x).
    { unfold at_. rewrite coeff_lookup by lia. rewrite Nat2Z.id. simpl.
      by apply list_lookup_middle. }
    rewrite (body_at _ _ _ _ _ Hself Hother), setCoeff_middle.
    replace (Z.succ (Z.of_nat (length done))) with (Z.of_nat (length (done ++ [f x o])))
      by (rewrite length_app; simpl; lia).
    replace (Z.pred (Z.of_nat (S (length mine)))) with (Z.of_nat (length mine)) by lia.
    rewrite (IH (done ++ [f x o]) theirs).
    + simpl. by rewrite <- app_assoc.
    + lia.
    + rewrite length_app. simpl.
      rewrite <- drop_drop, Hdrop. done.
Qed.

(** A loop over all indices of [other] combines the two buffers
    coefficient by coefficient. *)
Lemma pointwise_loop (self other : Channel) :
  Channel_wf other ->
  length (mData self) = length (mData other) ->
  parallelFor 0 (count other) (body other) self
  = Some (mkChannel (mName self) (rows self) (cols self)
            (zip_with f (mData self) (mData other))).
Proof using body_at.
  intros (_ & _ & Hcount) Hlen. unfold parallelFor, indexRange, count.
  rewrite Z.sub_0_r, <- Hcount, <- Hlen.
  destruct self as [n r c mine]. simpl in *.
  apply (pointwise_from n r c other [] mine (mData other)); done.
Qed.

End Pointwise.

Lemma multiplyWith_pointwise (self other : Channel) :
  Channel_wf other ->
  length (mData self) = length (mData other) ->
  multiplyWith self other
  = Some (mkChannel (mName self) (rows self) (cols self)
            (zip_with F32.mul (mData self) (mData other))).
Proof.
  intros. apply pointwise_loop; [|done..].
  intros o i s x y Hs Ho. unfold multiplyWithBody. by rewrite Hs, Ho.
Qed.

Lemma divideBy_pointwise (self other : Channel) :
  Channel_wf other ->
  length (mData self) = length (mData other) ->
  divideBy self other
  = Some (mkChannel (mName self) (rows self) (cols self)
            (zip_with quotient (mData self) (mData other))).
Proof.
  intros. apply pointwise_loop; [|done..].
  intros o i s x y Hs Ho. unfold divideByBody, quotient. rewrite Ho.
  destruct (F32.neqb y F32.zero); [by rewrite Hs|].
  unfold at_, coeff, setCoeff in *.
  destruct (0 <=? i); [|done]. simpl.
  apply lookup_lt_Some in Hs. apply Nat.ltb_lt in Hs. by rewrite Hs.
Qed.

Lemma wf_same_size_length (a b : Channel) :
  Channel_wf a -> Channel_wf b -> size a = size b ->
  length (mData a) = length (mData b).
Proof.
  intros (_ & _ & Ha) (_ & _ & Hb) Hsz. unfold size in Hsz.
  injection Hsz as Hc Hr. rewrite Hc, Hr in Ha. lia.
Qed.

(** C4. For equal-size channels the division returns, and at every linear
    index the result holds 0 where the divisor is zero and the quotient of
    the two coefficients elsewhere. *)
Theorem divideBy_saturates (A B : Channel) :
  Channel_wf A -> Channel_wf B -> size A = size B ->
  exists R,
    divideBy A B = Some R /\
    name R = name A /\ size R = size A /\
    forall i, 0 <= i < count A ->
      exists a b,
        at_ A i = Some a /\ at_ B i = Some b /\
        at_ R i = Some (if F32.eqb b F32.zero then F32.zero else F32.div a b).
Proof.
  intros HA HB Hsz.
  pose proof (wf_same_size_length A B HA HB Hsz) as Hlen.
  eexists. split; [by apply divideBy_pointwise|].
  split; [done|]. split; [done|].
  intros i Hi.
  destruct (coeff_in_range A i HA Hi) as [a Ha].
  assert (HiB : 0 <= i < count B).
  { unfold count in *. unfold size in Hsz. injection Hsz as Hc Hr.
    by rewrite <- Hc, <- Hr. }
  destruct (coeff_in_range B i HB HiB) as [b Hb].
  exists a, b. split; [done|]. split; [done|].
  unfold at_ in *. rewrite coeff_lookup in * by lia. simpl.
  rewrite lookup_zip_with, Ha. simpl. rewrite Hb. simpl.
  unfold quotient, F32.neqb, F32.eqb. by destruct (SFeqb b F32.zero).
Qed.

(** ** The order of the loop bodies is immaterial *)

Lemma forEach_Permutation {S I : Type} (body : I -> S -> option S) (l l' : list I) :
  (forall i j s,
     match body i s with Some s' => body j s' | None => None end
     = match body j s with Some s' => body i s' | None => None end) ->
  l ≡ₚ l' -> forall s, forEach body l s = forEach body l' s.
Proof.
  intros Hcomm. induction 1 as [|x l l' _ IH|x y l|l1 l2 l3 _ IH1 _ IH2]; intros s.
  - done.
  - simpl. destruct (body x s); [apply IH|done].
  - simpl. specialize (Hcomm y x s).
    destruct (body y s) as [sy|], (body x s) as [sx|]; simpl in *.
    + by rewrite Hcomm.
    + by rewrite Hcomm.
    + by rewrite <- Hcomm.
    + done.
  - by rewrite IH1.
Qed.

Section AnyOrder.

Variable f : F32.t -> F32.t -> F32.t.
Variable body : Channel -> Z -> Channel -> option Channel.
Hypothesis body_spec : forall other i self,
  body other i self
  = match at_ self i, at_ other i with
    | Some x, Some o => setCoeff self i (f x o)
    | _, _ => None
    end.

Lemma at_setCoeff (c c' : Channel) (i j : Z) (v : F32.t) :
  setCoeff c i v = Some c' ->
  at_ c' j = if decide (i = j) then Some v else at_ c j.
Proof using Type.
  unfold setCoeff, at_, coeff.
  destruct (0 <=? i) eqn:Ei; [|done]. simpl.
  destruct (Z.to_nat i <? length (mData c))%nat eqn:Elt; [|done].
  intros [= <-]. simpl. apply Z.leb_le in Ei. apply Nat.ltb_lt in Elt.
  destruct (decide (i = j)) as [<-|Hne].
  - rewrite (proj2 (Z.leb_le 0 i) Ei). by apply list_lookup_insert_eq.
  - destruct (0 <=? j) eqn:Ej; [|done]. apply Z.leb_le in Ej.
    apply list_lookup_insert_ne. lia.
Qed.

Lemma setCoeff_Some (c c' : Channel) (i : Z) (v : F32.t) :
  setCoeff c i v = Some c' <->
  0 <= i /\ (Z.to_nat i < length (mData c))%nat /\
  c' = mkChannel (mName c) (rows c) (cols c) (<[Z.to_nat i := v]> (mData c)).
Proof using Type.
  unfold setCoeff. destruct (0 <=? i) eqn:Ei; simpl.
  - apply Z.leb_le in Ei.
    destruct (Z.to_nat i <? length (mData c))%nat eqn:El.
    + apply Nat.ltb_lt in El. split; [by intros [= <-]|by intros (_ & _ & ->)].
    + apply Nat.ltb_ge in El. split; [done|]. intros (_ & ? & _). lia.
  - apply Z.leb_gt in Ei. split; [done|]. intros (? & _). lia.
Qed.

Lemma setCoeff_defined (c : Channel) (i : Z) (x v : F32.t) :
  at_ c i = Some x -> is_Some (setCoeff c i v).
Proof using Type.
  unfold at_, coeff. destruct (0 <=? i) eqn:Ei; [|done]. intros Hx.
  eexists. apply setCoeff_Some. apply Z.leb_le in Ei.
  apply lookup_lt_Some in Hx. done.
Qed.

Lemma body_Some (other : Channel) (i : Z) (self s' : Channel) :
  body other i self = Some s' ->
  exists x o,
    at_ self i = Some x /\ at_ other i = Some o /\ setCoeff self i (f x o) = Some s'.
Proof using body_spec.
  rewrite body_spec. destruct (at_ self i) as [x|]; [|done].
  destruct (at_ other i) as [o|]; [|done]. intros H. by exists x, o.
Qed.

Lemma body_None (other : Channel) (i : Z) (self : Channel) :
  body other i self = None <-> at_ self i = None \/ at_ other i = None.
Proof using body_spec.
  rewrite body_spec. destruct (at_ self i) as [x|] eqn:Hx; [|by split; [left|]].
  destruct (at_ other i) as [o|]; [|by split; [right|]].
  destruct (setCoeff_defined self i x (f x o) Hx) as [c' Hc'].
  rewrite Hc'. split; [done|]. by intros [|].
Qed.

Lemma body_commutes (other : Channel) (i j : Z) (self : Channel) :
  match body other i self with Some s' => body other j s' | None => None end
  = match body other j self with Some s' => body other i s' | None => None end.
Proof using body_spec.
  destruct (decide (i = j)) as [->|Hne]; [done|].
  destruct (body other i self) as [si|] eqn:Hi, (body other j self) as [sj|] eqn:Hj.
  - destruct (body_Some _ _ _ _ Hi) as (xi & oi & Hxi & Hoi & Hsi).
    destruct (body_Some _ _ _ _ Hj) as (xj & oj & Hxj & Hoj & Hsj).
    rewrite (body_spec other j si), (body_spec other i sj), Hoi, Hoj.
    rewrite (at_setCoeff self si i j _ Hsi), (at_setCoeff self sj j i _ Hsj).
    rewrite !decide_False by done. rewrite Hxi, Hxj.
    apply setCoeff_Some in Hsi as (Hi0 & Hil & ->).
    apply setCoeff_Some in Hsj as (Hj0 & Hjl & ->).
    transitivity (Some (mkChannel (mName self) (rows self) (cols self)
                          (<[Z.to_nat j := f xj oj]>
                             (<[Z.to_nat i := f xi oi]> (mData self))))).
    + apply setCoeff_Some. simpl. by rewrite length_insert.
    + symmetry. apply setCoeff_Some. simpl. rewrite length_insert.
      repeat split; [done..|]. f_equal. apply list_insert_insert_ne. lia.
  - destruct (body_Some _ _ _ _ Hi) as (xi & oi & _ & _ & Hsi).
    apply body_None. apply body_None in Hj as [Hj|Hj]; [left|by right].
    rewrite (at_setCoeff self si i j _ Hsi). by rewrite decide_False.
  - destruct (body_Some _ _ _ _ Hj) as (xj & oj & _ & _ & Hsj).
    symmetry. apply body_None. apply body_None in Hi as [Hi|Hi]; [left|by right].
    rewrite (at_setCoeff self sj j i _ Hsj). by rewrite decide_False.
  - done.
Qed.

(** Whatever the order in which the pool takes the indices, the loop ends
    in the state the ascending order gives. *)
Lemma parallelFor_any_order (self other : Channel) (schedule : list Z) :
  schedule ≡ₚ indexRange 0 (count other) ->
  forEach (body other) schedule self
  = parallelFor 0 (count other) (body other) self.
Proof using body_spec.
  intros Hperm. unfold parallelFor.
  apply forEach_Permutation; [|done]. intros i j s. apply body_commutes.
Qed.

End AnyOrder.

Lemma multiplyWithBody_spec (other : Channel) (i : Z) (self : Channel) :
  multiplyWithBody other i self
  = match at_ self i, at_ other i with
    | Some x, Some o => setCoeff self i (F32.mul x o)
    | _, _ => None
    end.
Proof. done. Qed.

Lemma divideByBody_spec (other : Channel) (i : Z) (self : Channel) :
  divideByBody other i self
  = match at_ self i, at_ other i with
    | Some x, Some o => setCoeff self i (quotient x o)
    | _, _ => None
    end.
Proof.
  unfold divideByBody, quotient.
  destruct (at_ other i) as [o|]; [|by destruct (at_ self i)].
  destruct (F32.neqb o F32.zero); [done|].
  destruct (at_ self i) as [x|] eqn:Hx; [done|].
  unfold at_, coeff, setCoeff in *. destruct (0 <=? i); [|done]. simpl.
  apply lookup_ge_None in Hx. apply Nat.ltb_ge in Hx. by rewrite Hx.
Qed.

Lemma divideBy_any_order (self other : Channel) (schedule : list Z) :
  schedule ≡ₚ indexRange 0 (count other) ->
  forEach (divideByBody other) schedule self = divideBy self other.
Proof. apply (parallelFor_any_order quotient divideByBody divideByBody_spec). Qed.

Lemma multiplyWith_any_order (self other : Channel) (schedule : list Z) :
  schedule ≡ₚ indexRange 0 (count other) ->
  forEach (multiplyWithBody other) schedule self = multiplyWith self other.
Proof. apply (parallelFor_any_order F32.mul multiplyWithBody multiplyWithBody_spec). Qed.

(** ** The premultiplication flag *)

Lemma multiplyAlpha_guard (d : ImageData) :
  hasPremultipliedAlpha d = true ->
  multiplyAlpha d = Raised (runtime_error "Can't multiply with alpha twice." []) d.
Proof. intros H. unfold multiplyAlpha. by rewrite H. Qed.

Lemma unmultiplyAlpha_guard (d : ImageData) :
  hasPremultipliedAlpha d = false ->
  unmultiplyAlpha d = Raised (runtime_error "Can't divide by alpha twice." []) d.
Proof. intros H. unfold unmultiplyAlpha. by rewrite H. Qed.

Lemma multiplyAlpha_Done (d d' : ImageData) :
  multiplyAlpha d = Done d' ->
  hasPremultipliedAlpha d = false /\ hasPremultipliedAlpha d' = true /\
  alphaOperation multiplyWith d = Some (setHasPremultipliedAlpha false d').
Proof.
  unfold multiplyAlpha. destruct (hasPremultipliedAlpha d) eqn:Hflag; [done|].
  destruct (alphaOperation multiplyWith d) as [d1|] eqn:Hop; [|done].
  intros [= <-]. repeat split. f_equal.
  unfold alphaOperation in Hop.
  destruct (forEach _ _ _); [|done]. injection Hop as <-.
  unfold setHasPremultipliedAlpha, setChannels. simpl. by rewrite Hflag.
Qed.

Lemma unmultiplyAlpha_Done (d d' : ImageData) :
  unmultiplyAlpha d = Done d' ->
  hasPremultipliedAlpha d = true /\ hasPremultipliedAlpha d' = false /\
  alphaOperation divideBy d = Some (setHasPremultipliedAlpha true d').
Proof.
  unfold unmultiplyAlpha. destruct (hasPremultipliedAlpha d) eqn:Hflag; [|done].
  simpl. destruct (alphaOperation divideBy d) as [d1|] eqn:Hop; [|done].
  intros [= <-]. repeat split. f_equal.
  unfold alphaOperation in Hop.
  destruct (forEach _ _ _); [|done]. injection Hop as <-.
  unfold setHasPremultipliedAlpha, setChannels. simpl. by rewrite Hflag.
Qed.

(** C6. A second [multiplyAlpha] directly after a completed one throws the
    double-multiply error, a second [unmultiplyAlpha] directly after a
    completed one throws the double-divide error; the object the failing
    call leaves behind is the object it was called on. *)
Theorem alpha_twice_fails (d dm e de : ImageData) :
  multiplyAlpha d = Done dm ->
  unmultiplyAlpha e = Done de ->
  multiplyAlpha dm
    = Raised (runtime_error "Can't multiply with alpha twice." []) dm /\
  unmultiplyAlpha de
    = Raised (runtime_error "Can't divide by alpha twice." []) de.
Proof.
  intros (_ & Hm & _)%multiplyAlpha_Done (_ & Hu & _)%unmultiplyAlpha_Done.
  split; [by apply multiplyAlpha_guard | by apply unmultiplyAlpha_guard].
Qed.

(** ** Validation of the R, G, B, A image *)

Section ValidationExample.

Variable matchesFuzzy : string -> string -> option nat.

(** C3. [ensureValid] without a selector, on channels R, G, B at 1.0 and A
    at 0.5 (4x4 each) that are not premultiplied, returns with the flag
    set, R, G and B at 0.5 everywhere, A as it was, the root layer as the
    only layer, and the channels in their order.  The data window is one
    the size check accepts: invalid, or of size 4x4. *)
Theorem ensureValid_rgba (dw disp : Box2i) (part : string) :
  isValid dw = false \/ boxSize dw = (4, 4) ->
  ensureValid matchesFuzzy "" (mkImageData rgbaChannels [] dw disp false part)
  = Done (mkImageData
            [plane "R" F32.half; plane "G" F32.half; plane "B" F32.half;
             plane "A" F32.half]
            [""]
            (if isValid dw then dw else boxOfSize (4, 4))
            (if isValid disp then disp else boxOfSize (4, 4))
            true part).
Proof using Type.
  intros Hdw.
  assert (Hsize : boxSize (if isValid dw then dw else boxOfSize (4, 4)) = (4, 4)).
  { destruct (isValid dw); [|done]. by destruct Hdw. }
  unfold ensureValid, rgbaChannels, defaultWindows. cbn [channels dataWindow].
  destruct (isValid dw) eqn:Edw;
    cbn [setDataWindow displayWindow dataWindow channels]; rewrite ?Edw;
    destruct (isValid disp) eqn:Edisp;
    unfold imageSize;
    cbn [setDisplayWindow setDataWindow displayWindow dataWindow channels];
    rewrite ?Hsize; vm_compute; reflexivity.
Qed.

End ValidationExample.

(** ** Grouping of the channels R, G, B, A, Z *)

Lemma channelsInLayer_names (layerName : string) (cs : list Channel) :
  channelsInLayer layerName cs = List.filter (inLayer layerName) (List.map name cs).
Proof.
  unfold channelsInLayer. induction cs as [|c cs IH]; [done|].
  simpl. destruct (inLayer layerName (name c)); simpl; by rewrite IH.
Qed.

Lemma res_groups_eqb_eq (r : res (list ChannelGroup.t)) (gs : list ChannelGroup.t) :
  res_groups_eqb r gs = true -> r = Ok gs.
Proof.
  destruct r as [gs'|]; [|done]. simpl. intros H%bool_decide_eq_true.
  f_equal. revert gs H. induction gs' as [|[n c] gs' IH]; intros [|[n' c'] gs] H;
    try done.
  simpl in H. injection H as -> -> H. f_equal. by apply IH.
Qed.

(** C2. Whatever the order of the channels R, G, B, A, Z in the image,
    [getGroupedChannels("")] returns exactly two groups, with the members
    R, G, B, A and Z, Z, Z, A. *)
Theorem getGroupedChannels_rgbaz (mData : ImageData) :
  List.map name (channels mData) ≡ₚ ["R"; "G"; "B"; "A"; "Z"] ->
  getGroupedChannels mData ""
  = Ok [ ChannelGroup.mk "R,G,B,A" ["R"; "G"; "B"; "A"];
         ChannelGroup.mk "Z,A" ["Z"; "Z"; "Z"; "A"] ].
Proof.
  intros Hperm. unfold getGroupedChannels. rewrite channelsInLayer_names.
  symmetry in Hperm. apply permutations_Permutation, list_elem_of_In in Hperm.
  apply res_groups_eqb_eq. revert Hperm.
  generalize (List.map name (channels mData)). intros names.
  revert names.
  apply (proj1 (forallb_forall
    (fun l => res_groups_eqb (groupChannels "" (List.filter (inLayer "") l)) _) _)).
  vm_compute. reflexivity.
Qed.

(** ** The derived layer set *)

Lemma ascii_compare_Lt_trans (a b c : ascii) :
  Ascii.compare a b = Lt -> Ascii.compare b c = Lt -> Ascii.compare a c = Lt.
Proof.
  unfold Ascii.compare. rewrite !N.compare_lt_iff. lia.
Qed.

Lemma string_lt_trans (s1 s2 s3 : string) :
  string_lt s1 s2 -> string_lt s2 s3 -> string_lt s1 s3.
Proof.
  unfold string_lt. revert s2 s3.
  induction s1 as [|a s1 IH]; intros [|b s2] [|c s3]; simpl; try done.
  destruct (Ascii.compare a b) eqn:Eab; try done;
    destruct (Ascii.compare b c) eqn:Ebc; try done.
  - apply Ascii.compare_eq_iff in Eab, Ebc. subst.
    replace (Ascii.compare c c) with Eq; [apply IH|].
    symmetry. unfold Ascii.compare. apply N.compare_refl.
  - apply Ascii.compare_eq_iff in Eab. subst. by rewrite Ebc.
  - apply Ascii.compare_eq_iff in Ebc. subst. by rewrite Eab.
  - by rewrite (ascii_compare_Lt_trans a b c).
Qed.

Lemma string_compare_refl (s : string) : String.compare s s = Eq.
Proof.
  induction s as [|a s IH]; simpl; [done|].
  replace (Ascii.compare a a) with Eq; [done|].
  symmetry. unfold Ascii.compare. apply N.compare_refl.
Qed.

Lemma string_lt_irrefl (s : string) : ~ string_lt s s.
Proof. unfold string_lt. by rewrite string_compare_refl. Qed.

Lemma set_insert_elem (x y : string) (s : list string) :
  y ∈ set_insert x s <-> y = x \/ y ∈ s.
Proof.
  induction s as [|z s IH]; simpl.
  - rewrite list_elem_of_singleton, elem_of_nil. tauto.
  - destruct (String.compare x z) eqn:E.
    + apply String.compare_eq_iff in E. subst. rewrite elem_of_cons. tauto.
    + rewrite !elem_of_cons. tauto.
    + rewrite !elem_of_cons, IH. tauto.
Qed.

Lemma set_insert_sorted (x : string) (s : list string) :
  StronglySorted string_lt s -> StronglySorted string_lt (set_insert x s).
Proof.
  induction 1 as [|z s Hs IH Hall]; simpl; [repeat constructor|].
  destruct (String.compare x z) eqn:E.
  - by constructor.
  - constructor; [by constructor|]. constructor; [done|].
    eapply Forall_impl; [exact Hall|]. intros w Hw. by eapply string_lt_trans.
  - constructor; [done|]. apply Forall_forall. intros w [->|Hw]%set_insert_elem.
    + unfold string_lt. rewrite String.compare_antisym, E. done.
    + rewrite Forall_forall in Hall. by apply Hall.
Qed.

Lemma layerNamesOf_from (cs : list Channel) (acc : list string) (l : string) :
  l ∈ fold_left (fun s c => set_insert (head (name c)) s) cs acc <->
  l ∈ acc \/ exists c, c ∈ cs /\ head (name c) = l.
Proof.
  revert acc. induction cs as [|c cs IH]; intros acc; simpl.
  - split; [by left|]. intros [?|(c & Hc & _)]; [done|]. by apply elem_of_nil in Hc.
  - rewrite IH, set_insert_elem. split.
    + intros [[->|?]|(c' & Hc' & Hl)]; [right|by left|right].
      * exists c. split; [by left|done].
      * exists c'. split; [by right|done].
    + intros [?|(c' & [->|Hc']%elem_of_cons & Hl)]; [by left; right|by left; left|].
      right. by exists c'.
Qed.

(** The derived layers are the heads of the channel names, each once, in
    the order of [std::set]. *)
Lemma layerNamesOf_elem (cs : list Channel) (l : string) :
  l ∈ layerNamesOf cs <-> exists c, c ∈ cs /\ head (name c) = l.
Proof.
  unfold layerNamesOf. rewrite layerNamesOf_from, elem_of_nil. tauto.
Qed.

Lemma layerNamesOf_sorted (cs : list Channel) :
  StronglySorted string_lt (layerNamesOf cs).
Proof.
  unfold layerNamesOf.
  assert (H : forall acc, StronglySorted string_lt acc ->
            StronglySorted string_lt
              (fold_left (fun s c => set_insert (head (name c)) s) cs acc)).
  { induction cs as [|c cs IH]; intros acc Hacc; simpl; [done|].
    by apply IH, set_insert_sorted. }
  apply H. constructor.
Qed.

Lemma layerNamesOf_NoDup (cs : list Channel) : NoDup (layerNamesOf cs).
Proof.
  pose proof (layerNamesOf_sorted cs) as Hs.
  induction Hs as [|l ls _ IH Hall]; constructor; [|done].
  intros Hin. rewrite Forall_forall in Hall. by apply (string_lt_irrefl l), Hall.
Qed.

(** ** Loops with an invariant *)

Lemma forEach_invariant {S I : Type} (P : S -> Prop) (body : I -> S -> option S)
  (l : list I) (s s' : S) :
  (forall i x x', body i x = Some x' -> P x -> P x') ->
  forEach body l s = Some s' -> P s -> P s'.
Proof.
  intros Hbody. revert s. induction l as [|i l IH]; intros s; simpl.
  - by intros [= <-].
  - destruct (body i s) as [x|] eqn:E; [|done]. intros Hrun Hs.
    apply (IH x); [done|]. by apply (Hbody i s).
Qed.

Lemma forEach_total {S I : Type} (P : S -> Prop) (body : I -> S -> option S)
  (l : list I) (s : S) :
  (forall i x, P x -> exists x', body i x = Some x' /\ P x') ->
  P s -> exists s', forEach body l s = Some s' /\ P s'.
Proof.
  intros Hbody. revert s. induction l as [|i l IH]; intros s Hs; simpl.
  - by exists s.
  - destruct (Hbody i s Hs) as (x & -> & Hx). by apply IH.
Qed.

Lemma forEach_app {S I : Type} (body : I -> S -> option S) (l1 l2 : list I) (s : S) :
  forEach body (l1 ++ l2) s
  = match forEach body l1 s with
    | Some s' => forEach body l2 s'
    | None => None
    end.
Proof.
  revert s. induction l1 as [|i l1 IH]; intros s; simpl; [done|].
  destruct (body i s); [apply IH|done].
Qed.

(** ** Names and extents are kept *)

#[global] Instance sameShape_refl : Reflexive sameShape.
Proof. intros c. by unfold sameShape. Qed.

#[global] Instance sameShape_trans : Transitive sameShape.
Proof.
  intros a b c (? & ? & ? & ?) (? & ? & ? & ?). unfold sameShape.
  repeat split; congruence.
Qed.

#[global] Instance sameShape_sym : Symmetric sameShape.
Proof. intros a b (? & ? & ? & ?). unfold sameShape. repeat split; congruence. Qed.

Lemma setCoeff_shape (c c' : Channel) (i : Z) (v : F32.t) :
  setCoeff c i v = Some c' -> sameShape c c'.
Proof.
  unfold setCoeff. destruct (_ && _); [|done]. intros [= <-].
  unfold sameShape. simpl. by rewrite length_insert.
Qed.

Lemma multiplyWith_shape (self other self' : Channel) :
  multiplyWith self other = Some self' -> sameShape self self'.
Proof.
  intros Hrun.
  apply (forEach_invariant (sameShape self) _ _ _ _) in Hrun; [done| |done].
  intros i x x' Hbody Hx. etrans; [exact Hx|].
  unfold multiplyWithBody in Hbody.
  destruct (at_ x i), (at_ other i); try done. by eapply setCoeff_shape.
Qed.

Lemma divideBy_shape (self other self' : Channel) :
  divideBy self other = Some self' -> sameShape self self'.
Proof.
  intros Hrun.
  apply (forEach_invariant (sameShape self) _ _ _ _) in Hrun; [done| |done].
  intros i x x' Hbody Hx. etrans; [exact Hx|].
  unfold divideByBody in Hbody.
  destruct (at_ other i); [|done].
  destruct (F32.neqb _ _); [destruct (at_ x i); [|done]|]; by eapply setCoeff_shape.
Qed.

Section AlphaOperationShape.

Variable func : Channel -> Channel -> option Channel.
Hypothesis func_shape : forall t a t', func t a = Some t' -> sameShape t t'.

Lemma channel_Some (n : string) (cs : list Channel) (i : nat) (c : Channel) :
  channel n cs = Some (i, c) -> cs !! i = Some c /\ name c = n.
Proof using Type. unfold channel. intros H%list_find_Some. tauto. Qed.

Lemma applyToChannel_shape (a t : string) (cs cs' : list Channel) :
  applyToChannel func a t cs = Some cs' -> Forall2 sameShape cs cs'.
Proof using func_shape.
  unfold applyToChannel.
  destruct (channel a cs) as [[ia ca]|]; [|done].
  destruct (channel t cs) as [[it ct]|] eqn:Et; [|done].
  destruct (func ct ca) as [ct'|] eqn:Ef; [|done]. intros [= <-].
  apply channel_Some in Et as [Hit _].
  apply Forall2_same_length_lookup. split; [by rewrite length_insert|].
  intros i x y Hx Hy. destruct (decide (i = it)) as [->|Hne].
  - rewrite list_lookup_insert_eq in Hy by (by eapply lookup_lt_Some).
    injection Hy as <-. rewrite Hit in Hx. injection Hx as <-. by eapply func_shape.
  - rewrite list_lookup_insert_ne in Hy by done. rewrite Hx in Hy. by injection Hy as <-.
Qed.

Lemma Forall2_sameShape_trans (xs ys zs : list Channel) :
  Forall2 sameShape xs ys -> Forall2 sameShape ys zs -> Forall2 sameShape xs zs.
Proof using Type.
  intros H1 H2. by etrans.
Qed.

Lemma alphaOperationLayer_shape (layer : string) (cs cs' : list Channel) :
  alphaOperationLayer func layer cs = Some cs' -> Forall2 sameShape cs cs'.
Proof using func_shape.
  unfold alphaOperationLayer. destruct (hasChannel _ cs).
  - intros Hrun.
    apply (forEach_invariant (Forall2 sameShape cs) _ _ _ _) in Hrun; [done| |].
    + intros n x x' Hbody Hx. destruct (String.eqb _ _).
      * by injection Hbody as <-.
      * eapply Forall2_sameShape_trans; [exact Hx|]. by eapply applyToChannel_shape.
    + reflexivity.
  - intros [= <-]. reflexivity.
Qed.

Lemma alphaOperation_shape (d d' : ImageData) :
  alphaOperation func d = Some d' ->
  Forall2 sameShape (channels d) (channels d') /\
  layers d' = layers d /\ dataWindow d' = dataWindow d /\
  displayWindow d' = displayWindow d /\
  hasPremultipliedAlpha d' = hasPremultipliedAlpha d /\ partName d' = partName d.
Proof using func_shape.
  unfold alphaOperation.
  destruct (forEach _ _ _) as [cs|] eqn:Hrun; [|done]. intros [= <-].
  split; [|done]. simpl.
  apply (forEach_invariant (Forall2 sameShape (channels d)) _ _ _ _) in Hrun; [done| |].
  - intros l x x' Hbody Hx. eapply Forall2_sameShape_trans; [exact Hx|].
    by eapply alphaOperationLayer_shape.
  - reflexivity.
Qed.

End AlphaOperationShape.

Lemma alphaOperation_no_channels (func : Channel -> Channel -> option Channel)
  (d : ImageData) :
  channels d = [] -> alphaOperation func d = Some d.
Proof.
  intros Hcs. unfold alphaOperation. rewrite Hcs.
  assert (H : forall ls, forEach (alphaOperationLayer func) ls [] = Some []).
  { induction ls as [|l ls IH]; [done|]. simpl. by rewrite IH. }
  rewrite H. destruct d. simpl in Hcs. by subst.
Qed.

Lemma multiplyAlpha_shape (d d' : ImageData) :
  multiplyAlpha d = Done d' ->
  Forall2 sameShape (channels d) (channels d') /\
  layers d' = layers d /\ dataWindow d' = dataWindow d /\
  displayWindow d' = displayWindow d /\ partName d' = partName d.
Proof.
  intros (_ & _ & Hop)%multiplyAlpha_Done.
  apply (alphaOperation_shape multiplyWith multiplyWith_shape) in Hop.
  simpl in Hop. tauto.
Qed.

(** ** The channel selector *)

#[global] Instance pair_le_total : Total pair_le.
Proof. intros [a b] [c d]. unfold pair_le. simpl. lia. Qed.

#[global] Instance pair_le_trans : Transitive pair_le.
Proof. intros [a b] [c d] [e f]. unfold pair_le. simpl. lia. Qed.

#[global] Instance pair_lt_trans : Transitive pair_lt.
Proof. intros [a b] [c d] [e f]. unfold pair_lt. simpl. lia. Qed.

Lemma pair_le_lt (p q : nat * nat) : pair_le p q -> p <> q -> pair_lt p q.
Proof.
  destruct p as [a b], q as [c d]. unfold pair_le, pair_lt. simpl.
  intros H Hne. destruct (decide (b = d)) as [->|]; [|lia].
  destruct H as [H|[-> _]]; [lia|done].
Qed.

Lemma StronglySorted_strict (ms : list (nat * nat)) :
  StronglySorted pair_le ms -> NoDup ms -> StronglySorted pair_lt ms.
Proof.
  induction 1 as [|p ms Hs IH Hall]; intros Hnd; [constructor|].
  apply NoDup_cons in Hnd as [Hnotin Hnd].
  constructor; [by apply IH|].
  rewrite Forall_forall in Hall |- *. intros q Hq.
  apply pair_le_lt; [by apply Hall|]. by intros ->.
Qed.

Lemma omap_total {A B : Type} (f : A -> option B) (l : list A) :
  Forall (fun x => is_Some (f x)) l ->
  Forall2 (fun y x => f x = Some y) (omap f l) l.
Proof.
  induction 1 as [|x l [y Hy] _ IH]; simpl; [constructor|].
  rewrite Hy. by constructor.
Qed.

Section Selector.

Variable matchesFuzzy : string -> string -> option nat.


Lemma collectMatches_elem (sel : string) (k : nat) (cs : list Channel) (r i : nat) :
  (r, i) ∈ collectMatches matchesFuzzy sel k cs <->
  (k <= i)%nat /\
  exists c, cs !! (i - k)%nat = Some c /\ matchesFuzzy (name c) sel = Some r.
Proof using Type.
  revert k. induction cs as [|c cs IH]; intros k; simpl.
  - split; [by intros ?%elem_of_nil|]. by intros (_ & ? & ? & _).
  - assert (Hrest : (r, i) ∈ collectMatches matchesFuzzy sel (S k) cs <->
        (k < i)%nat /\ exists c', (c :: cs) !! (i - k)%nat = Some c' /\
                                  matchesFuzzy (name c') sel = Some r).
    { rewrite IH. split.
      - intros (Hle & c' & Hc' & Hm). split; [lia|]. exists c'. split; [|done].
        replace (i - k)%nat with (S (i - S k)) by lia. done.
      - intros (Hlt & c' & Hc' & Hm). split; [lia|]. exists c'. split; [|done].
        replace (i - k)%nat with (S (i - S k)) in Hc' by lia. done. }
    destruct (matchesFuzzy (name c) sel) as [r0|] eqn:Hm0.
    + rewrite elem_of_cons, Hrest. split.
      * intros [[= -> ->]|(Hlt & c' & Hc' & Hm)].
        -- split; [lia|]. exists c. by rewrite Nat.sub_diag.
        -- split; [lia|]. by exists c'.
      * intros (Hle & c' & Hc' & Hm).
        destruct (decide (i = k)) as [->|Hne].
        -- left. rewrite Nat.sub_diag in Hc'. injection Hc' as <-. congruence.
        -- right. split; [lia|]. by exists c'.
    + rewrite Hrest. split.
      * intros (Hlt & c' & Hc' & Hm). split; [lia|]. by exists c'.
      * intros (Hle & c' & Hc' & Hm).
        destruct (decide (i = k)) as [->|Hne].
        -- rewrite Nat.sub_diag in Hc'. injection Hc' as <-. congruence.
        -- split; [lia|]. by exists c'.
Qed.

Lemma collectMatches_NoDup (sel : string) (k : nat) (cs : list Channel) :
  NoDup (collectMatches matchesFuzzy sel k cs).
Proof using Type.
  revert k. induction cs as [|c cs IH]; intros k; simpl; [constructor|].
  destruct (matchesFuzzy (name c) sel) as [r0|]; [|apply IH].
  constructor; [|apply IH].
  intros (Hle & _)%collectMatches_elem. lia.
Qed.

Lemma sortedMatches_elem (sel : string) (cs : list Channel) (r i : nat) :
  (r, i) ∈ sortedMatches matchesFuzzy sel cs <->
  exists c, cs !! i = Some c /\ matchesFuzzy (name c) sel = Some r.
Proof using Type.
  unfold sortedMatches. rewrite merge_sort_Permutation, collectMatches_elem.
  rewrite Nat.sub_0_r. split; [by intros [_ ?]|]. intros ?. split; [lia|done].
Qed.

Lemma sortedMatches_sorted (sel : string) (cs : list Channel) :
  StronglySorted pair_lt (sortedMatches matchesFuzzy sel cs).
Proof using Type.
  apply StronglySorted_strict.
  - apply StronglySorted_merge_sort; apply _.
  - unfold sortedMatches. rewrite merge_sort_Permutation. apply collectMatches_NoDup.
Qed.

Lemma selectChannels_matches (sel : string) (tmp : list Channel) :
  Forall2 (fun c m => tmp !! snd m = Some c)
    (selectChannels matchesFuzzy sel tmp) (sortedMatches matchesFuzzy sel tmp).
Proof using Type.
  unfold selectChannels. apply (omap_total (fun m : nat * nat => tmp !! snd m)).
  apply Forall_forall. intros [r i] (c & Hc & _)%sortedMatches_elem. by exists c.
Qed.

End Selector.

(** ** The steps of ensureValid *)

Section EnsureValid.

Variable matchesFuzzy : string -> string -> option nat.

Lemma defaultWindows_fields (front : Channel) (d : ImageData) :
  channels (defaultWindows front d) = channels d /\
  layers (defaultWindows front d) = layers d /\
  hasPremultipliedAlpha (defaultWindows front d) = hasPremultipliedAlpha d /\
  partName (defaultWindows front d) = partName d /\
  imageSize (defaultWindows front d)
  = if isValid (dataWindow d) then boxSize (dataWindow d) else size front.
Proof using Type.
  assert (Hbox : forall sz, boxSize (boxOfSize sz) = sz).
  { intros [w h]. unfold boxSize. simpl. f_equal; lia. }
  unfold defaultWindows, imageSize.
  destruct (isValid (dataWindow d)) eqn:Edw;
    destruct (isValid (displayWindow _)); simpl; rewrite ?Hbox; done.
Qed.

Lemma applySelector_fields (sel : string) (d : ImageData) :
  channels (applySelector matchesFuzzy sel d)
  = (if String.eqb sel "" then channels d
     else selectChannels matchesFuzzy sel (channels d)) /\
  layers (applySelector matchesFuzzy sel d) = layers d /\
  hasPremultipliedAlpha (applySelector matchesFuzzy sel d) = hasPremultipliedAlpha d /\
  partName (applySelector matchesFuzzy sel d) = partName d.
Proof using Type. unfold applySelector. destruct (String.eqb sel ""); simpl; done. Qed.

Lemma deriveLayers_fields (d : ImageData) :
  channels (deriveLayers d) = channels d /\
  layers (deriveLayers d)
  = match layers d with [] => layerNamesOf (channels d) | _ :: _ => layers d end /\
  hasPremultipliedAlpha (deriveLayers d) = hasPremultipliedAlpha d /\
  partName (deriveLayers d) = partName d.
Proof using Type. unfold deriveLayers. destruct (layers d) eqn:E; simpl; by rewrite ?E. Qed.

Lemma prepared_fields (sel : string) (front : Channel) (d : ImageData) :
  channels (prepared matchesFuzzy sel front d)
  = (if String.eqb sel "" then channels d
     else selectChannels matchesFuzzy sel (channels d)) /\
  hasPremultipliedAlpha (prepared matchesFuzzy sel front d) = hasPremultipliedAlpha d /\
  layers (prepared matchesFuzzy sel front d)
  = match layers d with
    | [] => layerNamesOf (channels (prepared matchesFuzzy sel front d))
    | _ :: _ => layers d
    end.
Proof using Type.
  unfold prepared.
  destruct (deriveLayers_fields (applySelector matchesFuzzy sel (defaultWindows front d)))
    as (Hc & Hl & Hf & _).
  destruct (applySelector_fields sel (defaultWindows front d)) as (Hc' & Hl' & Hf' & _).
  destruct (defaultWindows_fields front d) as (Hc'' & Hl'' & Hf'' & _).
  rewrite Hc, Hl, Hf, Hc', Hl', Hf', Hc'', Hl'', Hf''. done.
Qed.

Lemma find_none_Forall {A : Type} (p : A -> bool) (l : list A) :
  List.find p l = None <-> Forall (fun x => p x = false) l.
Proof using Type.
  induction l as [|x l IH]; simpl; [by split; [constructor|]|].
  destruct (p x) eqn:E.
  - split; [done|]. intros H%Forall_cons. destruct H. congruence.
  - rewrite IH. split; [by constructor|]. by intros [_ ?]%Forall_cons.
Qed.

Lemma size_eqb_eq (a b : Z * Z) : size_eqb a b = true <-> a = b.
Proof using Type.
  destruct a as [a1 a2], b as [b1 b2]. unfold size_eqb. simpl.
  rewrite andb_true_iff, !Z.eqb_eq. split; [by intros [-> ->]|by intros [= -> ->]].
Qed.

Lemma ensureValid_checks_pass (sel : string) (front : Channel) (rest : list Channel)
  (d : ImageData) :
  channels d = front :: rest -> sizesAgree d ->
  ensureValid matchesFuzzy sel d
  = let p := prepared matchesFuzzy sel front d in
    if hasPremultipliedAlpha p then Done p
    else match multiplyAlpha p with
         | Done d' =>
             if hasPremultipliedAlpha d' then Done d'
             else Raised (runtime_error
                    "tev assumes an internal pre-multiplied-alpha representation." []) d'
         | other => other
         end.
Proof using Type.
  intros Hcs Hsz. unfold ensureValid, sizesAgree in *. rewrite Hcs in *.
  destruct (defaultWindows_fields front d) as (Hc & _ & _ & _ & Hsize).
  rewrite Hc, Hsize, Hcs.
  destruct (List.find _ (front :: rest)) as [c|] eqn:Hfind.
  - apply find_some in Hfind as [Hin Hne]. apply list_elem_of_In in Hin.
    rewrite Forall_forall in Hsz. rewrite (Hsz c Hin) in Hne.
    rewrite (proj2 (size_eqb_eq _ _) eq_refl) in Hne. done.
  - simpl. fold (prepared matchesFuzzy sel front d).
    destruct (hasPremultipliedAlpha (prepared matchesFuzzy sel front d)) eqn:Hflag; [by rewrite Hflag|].
    by destruct (multiplyAlpha _).
Qed.

Lemma ensureValid_Done (sel : string) (d d' : ImageData) :
  ensureValid matchesFuzzy sel d = Done d' ->
  exists front rest,
    channels d = front :: rest /\ sizesAgree d /\
    hasPremultipliedAlpha d' = true /\
    (if hasPremultipliedAlpha d then d' = prepared matchesFuzzy sel front d
     else multiplyAlpha (prepared matchesFuzzy sel front d) = Done d').
Proof using Type.
  intros Hrun. destruct (channels d) as [|front rest] eqn:Hcs.
  { unfold ensureValid in Hrun. by rewrite Hcs in Hrun. }
  exists front, rest. split; [done|].
  assert (Hsz : sizesAgree d).
  { unfold ensureValid, sizesAgree in *. rewrite Hcs in *.
    destruct (defaultWindows_fields front d) as (Hc & _ & _ & _ & Hsize).
    rewrite Hc, Hsize, Hcs in Hrun.
    destruct (List.find _ (front :: rest)) eqn:Hfind; [done|].
    apply find_none_Forall in Hfind. eapply Forall_impl; [exact Hfind|].
    intros c Hc'. apply negb_false_iff in Hc'. by apply size_eqb_eq. }
  split; [done|].
  rewrite (ensureValid_checks_pass sel front rest d Hcs Hsz) in Hrun. simpl in Hrun.
  destruct (prepared_fields sel front d) as (_ & Hflag & _). rewrite <- Hflag.
  destruct (hasPremultipliedAlpha (prepared matchesFuzzy sel front d)) eqn:Hp.
  - injection Hrun as <-. by rewrite Hp.
  - destruct (multiplyAlpha _) as [d1| |]; try done.
    destruct (hasPremultipliedAlpha d1) eqn:H1; [|done]. injection Hrun as <-. done.
Qed.

(** C7. With a non-empty selector, the channels that [ensureValid] leaves
    are those of the matches [ms]: one match (rank, original index) for
    every channel whose name the selector matches and for no other, in
    strictly ascending lexicographic order of (rank, original index).  The
    channel left for a match is the original one at that index, up to the
    premultiplication of its values. *)
Theorem ensureValid_selects (sel : string) (d d' : ImageData) :
  sel <> "" ->
  ensureValid matchesFuzzy sel d = Done d' ->
  exists ms : list (nat * nat),
    (forall r i, (r, i) ∈ ms <->
       exists c, channels d !! i = Some c /\ matchesFuzzy (name c) sel = Some r) /\
    StronglySorted pair_lt ms /\
    Forall2 (fun c' m =>
               exists c, channels d !! snd m = Some c /\ sameShape c c' /\
                         (hasPremultipliedAlpha d = true -> c' = c))
      (channels d') ms.
Proof using Type.
  intros Hsel (front & rest & Hcs & Hsz & Hflag' & Hrun)%ensureValid_Done.
  exists (sortedMatches matchesFuzzy sel (channels d)).
  split; [apply sortedMatches_elem|]. split; [apply sortedMatches_sorted|].
  destruct (prepared_fields sel front d) as (Hpc & _ & _).
  rewrite (proj2 (String.eqb_neq sel "") Hsel) in Hpc.
  pose proof (selectChannels_matches matchesFuzzy sel (channels d)) as Hsel2.
  rewrite <- Hpc in Hsel2.
  destruct (hasPremultipliedAlpha d) eqn:Hflag.
  - subst d'. eapply Forall2_impl; [exact Hsel2|].
    intros c m Hc. exists c. by repeat split.
  - apply multiplyAlpha_shape in Hrun as (Hshape & _).
    apply Forall2_flip in Hshape.
    eapply Forall2_trans; [|exact Hshape|exact Hsel2].
    intros c' c m Hs Hc. exists c. split; [done|]. split; [exact Hs|done].
Qed.

(** In particular, of two matches of equal rank the one that comes first
    has the smaller original index. *)
Corollary equal_rank_keeps_order (ms1 ms2 ms3 : list (nat * nat)) (r i j : nat) :
  StronglySorted pair_lt (ms1 ++ (r, i) :: ms2 ++ (r, j) :: ms3) -> (i < j)%nat.
Proof using Type.
  intros H. apply StronglySorted_app_1_r in H.
  apply StronglySorted_inv in H as [_ H]. rewrite Forall_forall in H.
  destruct (H (r, j)) as [?|[_ ?]]; [|simpl in *; lia|done].
  apply elem_of_app. right. by left.
Qed.

(** C10, as the code has it.  For an image with a non-empty channel list
    that passes the size check, a non-empty selector that matches no channel
    name makes [ensureValid] return, with no channel left, the layer list
    as it was supplied (so empty when it is derived), and the flag set. *)
Theorem ensureValid_nothing_selected (sel : string) (d : ImageData) :
  sel <> "" ->
  channels d <> [] ->
  sizesAgree d ->
  (forall c, c ∈ channels d -> matchesFuzzy (name c) sel = None) ->
  exists d',
    ensureValid matchesFuzzy sel d = Done d' /\
    channels d' = [] /\ layers d' = layers d /\ hasPremultipliedAlpha d' = true.
Proof using Type.
  intros Hsel Hne Hsz Hnone.
  destruct (channels d) as [|front rest] eqn:Hcs; [done|].
  rewrite (ensureValid_checks_pass sel front rest d Hcs Hsz). simpl.
  destruct (prepared_fields sel front d) as (Hpc & Hpf & Hpl).
  rewrite (proj2 (String.eqb_neq sel "") Hsel) in Hpc.
  assert (Hms : sortedMatches matchesFuzzy sel (channels d) = []).
  { destruct (sortedMatches _ _ _) as [|[r i] ms] eqn:E; [done|].
    assert (Hin : (r, i) ∈ sortedMatches matchesFuzzy sel (channels d))
      by (rewrite E; left).
    apply sortedMatches_elem in Hin as (c & Hc & Hm).
    rewrite Hcs in Hc. rewrite Hnone in Hm; [done|]. by eapply list_elem_of_lookup_2. }
  unfold selectChannels in Hpc. rewrite Hms in Hpc. simpl in Hpc.
  assert (Hlayers : layers (prepared matchesFuzzy sel front d) = layers d).
  { rewrite Hpl, Hpc. by destruct (layers d). }
  destruct (hasPremultipliedAlpha (prepared matchesFuzzy sel front d)) eqn:Hflag.
  - eexists. by repeat split.
  - unfold multiplyAlpha. rewrite Hflag.
    rewrite (alphaOperation_no_channels _ _ Hpc). simpl.
    eexists. by repeat split.
Qed.

End EnsureValid.

(** C10, as it is stated, fails where the size check does: one 4x4
    channel in an image whose data window is 2x2.  The channel list is not
    empty and the selector matches nothing, and [ensureValid] throws. *)
Lemma ensureValid_size_check_first :
  let d := mkImageData [plane "R" F32.one] []
             (mkBox (0, 0) (2, 2)) (mkBox (0, 0) (2, 2)) false "" in
  let nothing := fun _ _ : string => @None nat in
  channels d <> [] /\ "x" <> "" /\
  (forall c, c ∈ channels d -> nothing (name c) "x" = None) /\
  ensureValid nothing "x" d
  = Raised (runtime_error
      "All channels must have the same size as the data window. (%s:%dx%d != %dx%d)"
      [ArgS "R"; ArgD 4; ArgD 4; ArgD 2; ArgD 2]) d.
Proof. repeat split; done. Qed.

(** ** Ordered publication *)

Section LoaderProofs.

Context {Image : Type}.

Implicit Types (r : ImageAddition Image) (q : list (ImageAddition Image)).
Implicit Types (s : system Image) (tr : list (event Image)).
Implicit Types (hist : list (Z * list Image)).

Lemma run_snoc s tr (ev : event Image) :
  run s (tr ++ [ev])
  = match run s tr with Some s' => step s' ev | None => None end.
Proof using Type.
  revert s. induction tr as [|e tr IH]; intros s; simpl.
  - by destruct (step s ev).
  - destruct (step s e); [apply IH|done].
Qed.

Lemma completions_snoc tr (ev : event Image) :
  completions (tr ++ [ev])
  = completions tr ++ match ev with
                      | Complete request imgs => [(request, imgs)]
                      | _ => []
                      end.
Proof using Type.
  induction tr as [|e tr IH]; simpl.
  - destruct ev; done.
  - destruct e; simpl; by rewrite IH.
Qed.

(** *** The ordered buffer *)

Lemma pq_push_Permutation r q : pq_push r q ≡ₚ r :: q.
Proof using Type.
  induction q as [|x q IH]; simpl; [done|].
  destruct (loadId r <? loadId x); [done|].
  rewrite IH. apply Permutation_swap.
Qed.

Lemma pq_push_ascending r q :
  ascending q -> loadId r ∉ List.map loadId q -> ascending (pq_push r q).
Proof using Type.
  unfold ascending. induction 1 as [|x q Hs IH Hall]; intros Hnotin; simpl.
  - repeat constructor.
  - simpl in Hnotin. rewrite not_elem_of_cons in Hnotin. destruct Hnotin as [Hne Hnotin].
    destruct (loadId r <? loadId x) eqn:E.
    + apply Z.ltb_lt in E. constructor; [by constructor|].
      constructor; [done|]. eapply Forall_impl; [exact Hall|]. simpl. lia.
    + apply Z.ltb_ge in E. constructor; [by apply IH|].
      rewrite pq_push_Permutation. constructor; [lia|done].
Qed.

(** *** The publish loop *)

Lemma publishLoop_spec q (counter : Z) (loaded : list (ImageAddition Image)) (b : bool) :
  ascending q ->
  Forall (fun r => counter <= loadId r) q ->
  exists taken rest counter' b',
    publishLoop q counter loaded b
    = (rest, counter', loaded ++ List.filter (fun r => succeeded (entry r)) taken, b') /\
    q = taken ++ rest /\
    List.map loadId taken = seqZ counter (counter' - counter) /\
    counter <= counter' /\
    Forall (fun r => counter' < loadId r) rest.
Proof using Type.
  unfold ascending. intros Hs. revert counter loaded b.
  induction Hs as [|top q Hs IH Hall]; intros counter loaded b Hge; simpl.
  - exists [], [], counter, b. rewrite app_nil_r, Z.sub_diag. by repeat split.
  - apply Forall_cons in Hge as [Htop Hge].
    destruct (loadId top =? counter) eqn:E.
    + apply Z.eqb_eq in E.
      destruct (IH (counter + 1)
                  (match images top with [] => loaded | _ :: _ => loaded ++ [top] end) true)
        as (taken & rest & counter' & b' & Hrun & Hq & Hids & Hle & Hrest).
      { eapply Forall_impl; [exact Hall|]. simpl. lia. }
      exists (top :: taken), rest, counter', b'. rewrite Hrun. split.
      * f_equal. f_equal. simpl. unfold succeeded, failed, entry at 1. simpl.
        destruct (images top); simpl; [done|]. by rewrite <- app_assoc.
      * split; [by rewrite Hq|]. split; [|split; [lia|done]].
        simpl. rewrite Hids, E.
        rewrite (seqZ_cons counter) by lia. f_equal. f_equal; lia.
    + apply Z.eqb_neq in E.
      exists [], (top :: q), counter, b. rewrite app_nil_r, Z.sub_diag.
      repeat split; [lia|]. constructor; [lia|].
      eapply Forall_impl; [exact Hall|]. simpl. lia.
Qed.

(** *** The invariant *)

Lemma inv_init : loader_inv (@init Image) [].
Proof using Type.
  split; simpl.
  - done.
  - intros i id select ph Hi. by rewrite lookup_nil in Hi.
  - done.
  - intros i id select ph Hi. by rewrite lookup_nil in Hi.
  - intros x. rewrite elem_of_nil. tauto.
  - constructor.
  - constructor.
  - intros x. rewrite !elem_of_nil. tauto.
  - exists []. repeat split. intros x. by rewrite elem_of_nil.
  - done.
Qed.

Lemma inv_enqueue s hist (select : bool) s' :
  loader_inv s hist -> step s (Enqueue select) = Some s' -> loader_inv s' hist.
Proof using Type.
  intros [Hc Hissued Hn Hl Hr Hnd Hps Hpe Hpub Hp]. simpl. intros [= <-].
  split; simpl.
  - rewrite length_app. simpl. lia.
  - intros i id sel ph Hi. apply lookup_app_Some in Hi as [Hi|[Hlen Hi]].
    + by apply (Hissued i id sel ph).
    + apply list_lookup_singleton_Some in Hi as [Hi [= <- <- <-]]. lia.
  - lia.
  - intros i id sel ph Hi. apply lookup_app_Some in Hi as [Hi|[Hlen Hi]].
    + by apply (Hl i id sel).
    + apply list_lookup_singleton_Some in Hi as [Hi [= <- <- <-]].
      split; [|done]. intros _ Hin. apply list_elem_of_fmap in Hin as (x & Hx & Hin).
      apply Hr in Hin. lia.
  - intros x Hx. apply Hr in Hx. lia.
  - done.
  - done.
  - done.
  - done.
  - intros r rest Hq Hid. destruct (Hp r rest Hq Hid) as (i & id & sel & Hi).
    exists i, id, sel. by apply lookup_app_l_Some.
Qed.

Lemma below_counter_completed s hist (id : Z) :
  loader_inv s hist -> 0 <= id < mLoadCounter (loader s) -> id ∈ List.map fst hist.
Proof using Type.
  intros [_ _ _ _ _ _ _ _ (pub & _ & Hids & Hsub) _] Hid.
  assert (Hin : id ∈ List.map fst pub).
  { rewrite Hids. apply elem_of_seqZ. lia. }
  apply list_elem_of_fmap in Hin as (x & -> & Hx).
  apply list_elem_of_fmap. exists x. split; [done|]. by apply Hsub.
Qed.

Lemma inv_complete s hist (id : Z) (imgs : list Image) s' :
  loader_inv s hist -> step s (Complete id imgs) = Some s' ->
  loader_inv s' (hist ++ [(id, imgs)]).
Proof using Type.
  intros Hinv. pose proof Hinv as [Hc Hissued Hn Hl Hr Hnd Hps Hpe Hpub Hp]. simpl.
  destruct (0 <=? id) eqn:Hid; [|done]. apply Z.leb_le in Hid.
  destruct (tasks s !! Z.to_nat id) as [[[lid sel] ph]|] eqn:Htask; [|done].
  destruct ph; try done. intros [= <-].
  assert (Hlid : lid = id).
  { rewrite (Hissued _ _ _ _ Htask). lia. }
  subst lid.
  assert (Hfresh : id ∉ List.map fst hist).
  { pose proof (proj1 (Hl _ _ _ _ Htask) eq_refl) as Hfresh.
    by rewrite Z2Nat.id in Hfresh by done. }
  assert (Hlt : id < mUnsortedLoadCounter (loader s)).
  { apply lookup_lt_Some in Htask. lia. }
  assert (Hge : mLoadCounter (loader s) <= id).
  { destruct (decide (mLoadCounter (loader s) <= id)); [done|].
    destruct Hfresh. apply (below_counter_completed s); [done|lia]. }
  split; simpl.
  - by rewrite length_insert.
  - intros i id' sel' ph Hi.
    destruct (decide (i = Z.to_nat id)) as [->|Hne].
    + rewrite list_lookup_insert_eq in Hi by (by eapply lookup_lt_Some).
      injection Hi as <- <- <-. lia.
    + rewrite list_lookup_insert_ne in Hi by done. by apply (Hissued i id' sel' ph).
  - done.
  - intros i id' sel' ph Hi. rewrite map_app. simpl.
    destruct (decide (i = Z.to_nat id)) as [->|Hne].
    + rewrite list_lookup_insert_eq in Hi by (by eapply lookup_lt_Some).
      injection Hi as <- <- <-. split; [done|]. intros []. rewrite Z2Nat.id by done.
      apply elem_of_app. right. by left.
    + rewrite list_lookup_insert_ne in Hi by done.
      rewrite (Hl i id' sel' ph Hi). rewrite not_elem_of_app.
      split; [|tauto]. intros Hnot. split; [done|]. rewrite list_elem_of_singleton. lia.
  - intros x [Hx|Hx]%elem_of_app; [by apply Hr|].
    apply list_elem_of_singleton in Hx as ->. simpl. lia.
  - rewrite map_app. simpl. apply NoDup_app. split; [done|]. split.
    + intros x Hx Hx'. apply list_elem_of_singleton in Hx' as ->. done.
    + apply NoDup_singleton.
  - apply pq_push_ascending; [done|]. simpl.
    intros Hin. apply list_elem_of_fmap in Hin as (r & Hr' & Hin).
    apply Hfresh. apply list_elem_of_fmap. exists (entry r). split; [done|].
    apply (Hpe (entry r)). apply list_elem_of_fmap. by exists r.
  - intros x. rewrite pq_push_Permutation. simpl. rewrite elem_of_cons, Hpe, elem_of_app.
    rewrite list_elem_of_singleton. unfold entry at 1. simpl. split.
    + intros [-> | [? ?]]; [split; [by right|done]|split; [by left|done]].
    + intros [[?| ->] ?]; [by right|by left].
  - destruct Hpub as (pub & Hpub & Hids & Hsub). exists pub.
    split; [done|]. split; [done|]. intros x Hx. apply elem_of_app. left. by apply Hsub.
  - intros _ _ _ _. exists (Z.to_nat id), id, sel.
    apply list_lookup_insert_eq. by eapply lookup_lt_Some.
Qed.

Lemma filter_entry (taken : list (ImageAddition Image)) :
  List.map entry (List.filter (fun r => succeeded (entry r)) taken)
  = List.filter succeeded (List.map entry taken).
Proof using Type.
  induction taken as [|r taken IH]; simpl; [done|].
  destruct (succeeded (entry r)); simpl; by rewrite IH.
Qed.

Lemma inv_publish s hist (id : Z) s' :
  loader_inv s hist -> step s (Publish id) = Some s' -> loader_inv s' hist.
Proof using Type.
  intros Hinv. pose proof Hinv as [Hc Hissued Hn Hl Hr Hnd Hps Hpe Hpub Hp]. simpl.
  destruct (0 <=? id) eqn:Hid; [|done]. apply Z.leb_le in Hid.
  destruct (tasks s !! Z.to_nat id) as [[[lid sel] ph]|] eqn:Htask; [|done].
  destruct ph; try done. intros [= <-].
  destruct (publishLoop_spec (mPendingLoadedImages (loader s)) (mLoadCounter (loader s))
              (mLoadedImages (loader s)) false Hps)
    as (taken & rest & counter' & b' & Hrun & Hq & Hids & Hle & Hrest).
  { apply Forall_forall. intros r Hin.
    apply (Hpe (entry r)). apply list_elem_of_fmap. by exists r. }
  unfold publishSortedLoads. rewrite Hrun. simpl.
  assert (Htaken : forall x, x ∈ List.map entry taken ->
            x ∈ hist /\ mLoadCounter (loader s) <= fst x < counter').
  { intros x Hx. assert (Hx' : x ∈ List.map entry (mPendingLoadedImages (loader s))).
    { rewrite Hq, map_app. apply elem_of_app. by left. }
    apply Hpe in Hx' as [Hh Hge]. split; [done|].
    apply list_elem_of_fmap in Hx as (r & -> & Hin).
    assert (Hidr : loadId r ∈ seqZ (mLoadCounter (loader s))
                     (counter' - mLoadCounter (loader s))).
    { rewrite <- Hids. apply list_elem_of_fmap. by exists r. }
    apply elem_of_seqZ in Hidr. simpl. lia. }
  split; simpl.
  - by rewrite length_insert.
  - intros i id' sel' ph Hi.
    destruct (decide (i = Z.to_nat id)) as [->|Hne].
    + rewrite list_lookup_insert_eq in Hi by (by eapply lookup_lt_Some).
      injection Hi as <- <- <-. by apply (Hissued _ _ _ _ Htask).
    + rewrite list_lookup_insert_ne in Hi by done. by apply (Hissued i id' sel' ph).
  - split; [lia|]. destruct (decide (counter' = mLoadCounter (loader s))) as [->|Hne]; [lia|].
    assert (Hlast : counter' - 1 ∈ List.map loadId taken).
    { rewrite Hids. apply elem_of_seqZ. lia. }
    apply list_elem_of_fmap in Hlast as (r & Hr' & Hin).
    destruct (Htaken (entry r)) as [Hh _]; [apply list_elem_of_fmap; by exists r|].
    apply Hr in Hh. simpl in Hh. lia.
  - intros i id' sel' ph Hi.
    destruct (decide (i = Z.to_nat id)) as [->|Hne].
    + rewrite list_lookup_insert_eq in Hi by (by eapply lookup_lt_Some).
      injection Hi as <- <- <-. pose proof (Hl _ _ _ _ Htask) as Hiff.
      split; [done|]. intros Hnot. by apply Hiff in Hnot.
    + rewrite list_lookup_insert_ne in Hi by done. by apply (Hl i id' sel').
  - done.
  - done.
  - rewrite Hq in Hps. by apply StronglySorted_app_1_r in Hps.
  - intros x. split.
    + intros Hx. assert (Hx' : x ∈ List.map entry (mPendingLoadedImages (loader s))).
      { rewrite Hq, map_app. apply elem_of_app. by right. }
      apply Hpe in Hx' as [Hh _]. split; [done|].
      apply list_elem_of_fmap in Hx as (r & -> & Hin).
      rewrite Forall_forall in Hrest. specialize (Hrest r Hin). simpl. lia.
    + intros [Hh Hge].
      assert (Hx' : x ∈ List.map entry (mPendingLoadedImages (loader s)))
        by (apply Hpe; split; [done|lia]).
      rewrite Hq, map_app in Hx'. apply elem_of_app in Hx' as [Hx'|Hx']; [|done].
      apply Htaken in Hx'. lia.
  - destruct Hpub as (pub & Hpub & Hpids & Hsub).
    exists (pub ++ List.map entry taken). split; [|split].
    + unfold published in *. simpl. rewrite map_app, List.filter_app, Hpub.
      by rewrite filter_entry.
    + rewrite map_app, Hpids, List.map_map. simpl.
      change (List.map (fun r => loadId r) taken) with (List.map loadId taken).
      rewrite Hids.
      replace counter' with (mLoadCounter (loader s) + (counter' - mLoadCounter (loader s)))
        at 2 by lia.
      rewrite seqZ_app by lia. by rewrite Z.add_0_l.
    + intros x [Hx|Hx]%elem_of_app; [by apply Hsub|]. by apply Htaken.
  - intros r rest' -> Hidr. apply Forall_cons in Hrest as [Hlt _]. lia.
Qed.

Lemma run_inv tr s :
  run init tr = Some s -> loader_inv s (completions tr).
Proof using Type.
  revert s. induction tr as [|ev tr IH] using rev_ind; intros s.
  - intros [= <-]. apply inv_init.
  - rewrite run_snoc, completions_snoc.
    destruct (run init tr) as [s0|]; [|done]. specialize (IH s0 eq_refl).
    destruct ev as [select|id imgs|id]; intros Hstep.
    + rewrite app_nil_r. by eapply inv_enqueue.
    + by eapply inv_complete.
    + rewrite app_nil_r. by eapply inv_publish.
Qed.

(** *** When no task is under way *)

Lemma quiescent_Finished s (i : nat) (id : Z) (select : bool) (ph : phase) :
  quiescent s = true -> tasks s !! i = Some (id, select, ph) -> ph = Finished.
Proof using Type.
  unfold quiescent. rewrite forallb_forall. intros Hall Hi.
  apply list_elem_of_lookup_2, list_elem_of_In in Hi.
  specialize (Hall _ Hi). simpl in Hall. by destruct ph.
Qed.

Lemma ascending_head_least r q (x : ImageAddition Image) :
  ascending (r :: q) -> x ∈ r :: q -> loadId r <= loadId x.
Proof using Type.
  unfold ascending. intros [_ Hall]%StronglySorted_inv [->|Hin]%elem_of_cons; [lia|].
  rewrite Forall_forall in Hall. specialize (Hall x Hin). lia.
Qed.

Lemma quiescent_all_published s hist :
  loader_inv s hist -> quiescent s = true ->
  mLoadCounter (loader s) = mUnsortedLoadCounter (loader s).
Proof using Type.
  intros Hinv Hq. pose proof Hinv as [Hc Hissued Hn Hl Hr Hnd Hps Hpe Hpub Hp].
  destruct (decide (mLoadCounter (loader s) = mUnsortedLoadCounter (loader s)))
    as [|Hne]; [done|].
  exfalso.
  assert (Hlt : (Z.to_nat (mLoadCounter (loader s)) < length (tasks s))%nat) by lia.
  apply lookup_lt_is_Some in Hlt as [[[lid sel] ph] Htask].
  pose proof (quiescent_Finished s _ _ _ _ Hq Htask) as ->.
  assert (Hdone : mLoadCounter (loader s) ∈ List.map fst hist).
  { destruct (decide (mLoadCounter (loader s) ∈ List.map fst hist)) as [|Hnot]; [done|].
    rewrite <- (Z2Nat.id (mLoadCounter (loader s))) in Hnot at 1 by lia.
    by apply (Hl _ _ _ _ Htask) in Hnot. }
  apply list_elem_of_fmap in Hdone as (x & Hx & Hin).
  assert (Hpend : x ∈ List.map entry (mPendingLoadedImages (loader s)))
    by (apply Hpe; split; [done|lia]).
  apply list_elem_of_fmap in Hpend as (r & -> & Hrin).
  destruct (mPendingLoadedImages (loader s)) as [|top rest] eqn:Hpending.
  { by apply elem_of_nil in Hrin. }
  assert (Htop : loadId top = mLoadCounter (loader s)).
  { pose proof (ascending_head_least top rest r Hps Hrin) as Hle.
    assert (Hge : mLoadCounter (loader s) <= fst (entry top)).
    { apply (Hpe (entry top)). apply list_elem_of_fmap. exists top. split; [done|by left]. }
    simpl in *. lia. }
  destruct (Hp top rest eq_refl Htop) as (i & id' & sel' & Hi).
  by pose proof (quiescent_Finished s _ _ _ _ Hq Hi).
Qed.

Lemma enqueued_snoc tr (ev : event Image) :
  enqueued (tr ++ [ev])
  = (enqueued tr + match ev with Enqueue _ => 1 | _ => 0 end)%nat.
Proof using Type.
  induction tr as [|e tr IH]; simpl.
  - by destruct ev.
  - destruct e; simpl; rewrite IH; lia.
Qed.

Lemma tasks_length tr s :
  run init tr = Some s -> length (tasks s) = enqueued tr.
Proof using Type.
  revert s. induction tr as [|ev tr IH] using rev_ind; intros s.
  - by intros [= <-].
  - rewrite run_snoc, enqueued_snoc.
    destruct (run init tr) as [s0|]; [|done]. specialize (IH s0 eq_refl).
    destruct ev as [select|id imgs|id]; simpl.
    + intros [= <-]. simpl. rewrite length_app. simpl. lia.
    + destruct (0 <=? id); [|done].
      destruct (tasks s0 !! Z.to_nat id) as [[[lid sel] []]|]; try done.
      intros [= <-]. simpl. rewrite length_insert. lia.
    + destruct (0 <=? id); [|done].
      destruct (tasks s0 !! Z.to_nat id) as [[[lid sel] []]|]; try done.
      intros [= <-]. simpl. rewrite length_insert. lia.
Qed.

Lemma NoDup_fmap_eq {A B : Type} (f : A -> B) (l : list A) (x y : A) :
  NoDup (List.map f l) -> x ∈ l -> y ∈ l -> f x = f y -> x = y.
Proof using Type.
  induction l as [|a l IH]; simpl; [by intros _ ?%elem_of_nil|].
  intros [Hnotin Hnd]%NoDup_cons [->|Hx]%elem_of_cons [->|Hy]%elem_of_cons Hf.
  - done.
  - destruct Hnotin. rewrite Hf. apply list_elem_of_fmap. by exists y.
  - destruct Hnotin. rewrite <- Hf. apply list_elem_of_fmap. by exists x.
  - by apply IH.
Qed.


End LoaderProofs.

(** The two runs of the example: all three loads are published in request
    order; a failed load of request 1 is left out. *)
Example three_requests_published :
  published <$> run init (threeRequests ["b"])
  = Some [(0, ["a"]); (1, ["b"]); (2, ["c"])].
Proof. reflexivity. Qed.

Example three_requests_one_failed :
  published <$> run init (threeRequests [])
  = Some [(0, ["a"]); (2, ["c"])].
Proof. reflexivity. Qed.

(** ** Display names of channel groups *)

Lemma uniqueFrom_NoDup (prev : string) (l : list string) :
  NoDup (prev :: l) -> uniqueFrom prev l = l.
Proof.
  revert prev. induction l as [|x l IH]; intros prev Hnd; simpl; [done|].
  apply NoDup_cons in Hnd as [Hnotin Hnd].
  rewrite not_elem_of_cons in Hnotin. destruct Hnotin as [Hne _].
  rewrite (proj2 (String.eqb_neq x prev)) by done. f_equal. by apply IH.
Qed.

Lemma unique_NoDup (l : list string) : NoDup l -> unique l = l.
Proof. destruct l as [|x l]; [done|]. intros H. simpl. f_equal. by apply uniqueFrom_NoDup. Qed.

Lemma remove_dups_NoDup (l : list string) : NoDup l -> remove_dups l = l.
Proof.
  induction 1 as [|x l Hnotin _ IH]; simpl; [done|].
  destruct (decide_rel elem_of x l); [done|]. by rewrite IH.
Qed.

Lemma remove_dups_cons_in (x : string) (l : list string) :
  x ∈ l -> remove_dups (x :: l) = remove_dups l.
Proof. intros Hin. simpl. by destruct (decide_rel elem_of x l). Qed.

Lemma remove_dups_cons_notin (x : string) (l : list string) :
  x ∉ l -> remove_dups (x :: l) = x :: remove_dups l.
Proof. intros Hin. simpl. by destruct (decide_rel elem_of x l). Qed.

Lemma unique_tidy (l : list string) : tidy l -> unique l = remove_dups l.
Proof.
  intros [Hnd|[(n & ->)|(n & a & ->)]].
  - by rewrite unique_NoDup, remove_dups_NoDup.
  - simpl unique. rewrite String.eqb_refl.
    rewrite !remove_dups_cons_in by (by left). done.
  - simpl unique. rewrite String.eqb_refl.
    rewrite !remove_dups_cons_in by (by left).
    destruct (decide (a = n)) as [->|Hne].
    + rewrite String.eqb_refl. by rewrite remove_dups_cons_in by (by left).
    + rewrite (proj2 (String.eqb_neq a n)) by done.
      rewrite remove_dups_cons_notin; [done|].
      rewrite list_elem_of_singleton. congruence.
Qed.

Lemma unique_nonempty (x : string) (l : list string) : unique (x :: l) <> [].
Proof. done. Qed.

Lemma createChannelGroup_Ok (layer : string) (members : list string) (g : ChannelGroup.t) :
  tidy members ->
  createChannelGroup layer members = Ok g ->
  ChannelGroup.channels g = members /\
  ChannelGroup.name g = displayName layer members.
Proof.
  intros Htidy. unfold createChannelGroup, displayName.
  destruct members as [|x l] eqn:E; [done|]. rewrite <- E in *.
  intros [= <-]. cbv [ChannelGroup.channels ChannelGroup.name]. split; [done|].
  rewrite <- (unique_tidy _ Htidy).
  assert (Hne : List.map tail (unique members) <> []) by (by rewrite E).
  revert Hne. generalize (List.map tail (unique members)).
  intros [|t [|t' ts]] Hne; [done| |]; destruct (String.eqb layer ""); done.
Qed.

#[global] Instance append_inj (prefix : string) : Inj (=) (=) (String.append prefix).
Proof.
  intros a b. induction prefix as [|c prefix IH]; simpl; [done|].
  intros [= H]. by apply IH.
Qed.

Lemma takeGroup_sublist (prefix : string) (group pool : list string) :
  fst (takeGroup prefix group pool) `sublist_of` List.map (String.append prefix) group.
Proof.
  revert pool. induction group as [|c group IH]; intros pool; simpl; [done|].
  destruct (found (prefix +:+ c) pool).
  - specialize (IH (erase_first (prefix +:+ c) pool)).
    destruct (takeGroup prefix group _) as [g pool']. simpl in *.
    by apply sublist_skip.
  - by apply sublist_cons.
Qed.

Ltac not_in_list :=
  let H := fresh in
  intros H;
  repeat (apply elem_of_cons in H as [H|H]; [discriminate H|]);
  by apply elem_of_nil in H.

Ltac nodup_list :=
  repeat (apply NoDup_cons_2; [not_in_list|]); apply NoDup_nil_2.

Lemma groups_tupleOK : Forall tupleOK groups.
Proof.
  unfold groups, tupleOK.
  repeat (constructor; [split; [nodup_list|not_in_list]|]).
  constructor.
Qed.

Lemma takeGroup_tidy (layer : string) (group pool : list string) :
  tupleOK group ->
  NoDup (fst (takeGroup (layerPrefix layer) group pool)) /\
  alphaChannelName layer ∉ fst (takeGroup (layerPrefix layer) group pool).
Proof.
  intros [Hnd HA]. pose proof (takeGroup_sublist (layerPrefix layer) group pool) as Hsub.
  split.
  - eapply sublist_NoDup; [|exact Hsub].
    exact (NoDup_fmap_2 (String.append (layerPrefix layer)) _ Hnd).
  - intros Hin. eapply elem_of_sublist in Hin; [|exact Hsub].
    apply list_elem_of_fmap in Hin as (c & Hc & Hin).
    unfold alphaChannelName in Hc. apply (inj _) in Hc. by subst c.
Qed.

Lemma matchGroups_groupOK (layer : string) (hasAlpha : bool) (gs : list (list string))
  (pool : list string) (result : list ChannelGroup.t)
  (pool' : list string) (result' : list ChannelGroup.t) :
  Forall tupleOK gs ->
  Forall (groupOK layer hasAlpha) result ->
  matchGroups layer hasAlpha gs pool result = Ok (pool', result') ->
  Forall (groupOK layer hasAlpha) result'.
Proof.
  intros Hgs. revert pool result.
  induction Hgs as [|group gs Hgroup _ IH]; intros pool result Hres; simpl.
  - by intros [= _ <-].
  - destruct (takeGroup_tidy layer group pool Hgroup) as [Hnd Hnotin].
    destruct (takeGroup (layerPrefix layer) group pool) as [gc pool1]. simpl in *.
    destruct gc as [|n gc]; [by apply IH|].
    set (members := if hasAlpha
                    then (if (length (n :: gc) =? 1)%nat
                          then (n :: gc) ++ [n; n] else n :: gc)
                         ++ [alphaChannelName layer]
                    else (if (length (n :: gc) =? 1)%nat
                          then (n :: gc) ++ [n; n] else n :: gc)).
    assert (Htidy : tidy members).
    { unfold members, tidy. destruct gc as [|n' gc]; simpl.
      - destruct hasAlpha; simpl; right; [right|left]; eauto.
      - left. destruct hasAlpha; [|done].
        change (NoDup ((n :: n' :: gc) ++ [alphaChannelName layer])).
        apply NoDup_app. split; [done|]. split; [|apply NoDup_singleton].
        intros x Hx Hx'. apply list_elem_of_singleton in Hx' as ->. done. }
    assert (Hlast : hasAlpha = true -> last members = Some (alphaChannelName layer)).
    { intros ->. unfold members. apply last_snoc. }
    destruct (createChannelGroup layer members) as [g|] eqn:Hg; [|done].
    apply (createChannelGroup_Ok _ _ _ Htidy) in Hg as [Hch Hname].
    apply IH. apply Forall_app. split; [done|]. apply Forall_singleton.
    unfold groupOK. by rewrite Hch.
Qed.

Lemma singleGroups_groupOK (layer : string) (hasAlpha : bool) (pool : list string)
  (result result' : list ChannelGroup.t) :
  Forall (groupOK layer hasAlpha) result ->
  singleGroups layer hasAlpha pool result = Ok result' ->
  Forall (groupOK layer hasAlpha) result'.
Proof.
  revert result. induction pool as [|n pool IH]; intros result Hres; simpl.
  - by intros [= <-].
  - set (members := if hasAlpha then [n; n; n; alphaChannelName layer] else [n; n; n]).
    assert (Htidy : tidy members).
    { unfold members, tidy. destruct hasAlpha; right; [right|left]; eauto. }
    assert (Hlast : hasAlpha = true -> last members = Some (alphaChannelName layer)).
    { by intros ->. }
    destruct (createChannelGroup layer members) as [g|] eqn:Hg; [|done].
    apply (createChannelGroup_Ok _ _ _ Htidy) in Hg as [Hch Hname].
    apply IH. apply Forall_app. split; [done|]. apply Forall_singleton.
    unfold groupOK. by rewrite Hch.
Qed.

Lemma groupChannels_groupOK (layer : string) (names : list string)
  (gs : list ChannelGroup.t) :
  groupChannels layer names = Ok gs ->
  Forall (groupOK layer (found (alphaChannelName layer) names)) gs.
Proof.
  unfold groupChannels.
  set (hasAlpha := found (alphaChannelName layer) names).
  set (pool0 := if hasAlpha then _ else _).
  destruct (matchGroups layer hasAlpha groups pool0 []) as [[pool result]|] eqn:Hm; [|done].
  apply (matchGroups_groupOK _ _ _ _ _ _ _ groups_tupleOK (Forall_nil_2 _)) in Hm.
  destruct (singleGroups layer hasAlpha pool result) as [result1|] eqn:Hs; [|done].
  apply (singleGroups_groupOK _ _ _ _ _ Hm) in Hs.
  destruct (hasAlpha && (length result1 =? 0)%nat) eqn:Hcase.
  - set (a := alphaChannelName layer).
    destruct (createChannelGroup layer [a; a; a]) as [g|] eqn:Hg; [|done].
    apply createChannelGroup_Ok in Hg as [Hch Hname];
      [|right; left; by exists a].
    assert (Hall : Forall (groupOK layer hasAlpha) (result1 ++ [g])).
    { apply Forall_app. split; [done|]. apply Forall_singleton.
      unfold groupOK. by rewrite Hch. }
    destruct (result1 ++ [g]); [done|]. by intros [= <-].
  - destruct result1; [done|]. by intros [= <-].
Qed.

(** C9, as the code has it.  Every group that [getGroupedChannels]
    returns is named by the tails of its de-duplicated members, joined by
    commas; in a layer other than the root the layer and a dot come first
    and the tails are in parentheses when more than one member remains; in
    the root layer the name is the joined tails, without parentheses. *)
Theorem group_display_name (mData : ImageData) (layerName : string)
  (gs : list ChannelGroup.t) (g : ChannelGroup.t) :
  getGroupedChannels mData layerName = Ok gs ->
  g ∈ gs ->
  ChannelGroup.name g = displayName layerName (ChannelGroup.channels g).
Proof.
  intros Hgs Hg. apply groupChannels_groupOK in Hgs.
  rewrite Forall_forall in Hgs. by destruct (Hgs g Hg).
Qed.

(** Where the layer has an alpha channel, it is the last member of every
    group. *)
Lemma alpha_is_last_member (mData : ImageData) (layerName : string)
  (gs : list ChannelGroup.t) (g : ChannelGroup.t) :
  getGroupedChannels mData layerName = Ok gs ->
  g ∈ gs ->
  found (alphaChannelName layerName) (channelsInLayer layerName (channels mData)) = true ->
  last (ChannelGroup.channels g) = Some (alphaChannelName layerName).
Proof.
  intros Hgs Hg Halpha. apply groupChannels_groupOK in Hgs.
  rewrite Forall_forall in Hgs. destruct (Hgs g Hg) as [_ Hlast]. by apply Hlast.
Qed.

(** C9, as it is stated, fails in the root layer: the group of R, G, B, A
    is named "R,G,B,A", where the stated rule gives "(R,G,B,A)". *)
Lemma root_group_name_is_bare :
  let d := mkImageData rgbaChannels [""] (boxOfSize (4, 4)) (boxOfSize (4, 4)) true "" in
  exists g,
    getGroupedChannels d "" = Ok [g] /\
    ChannelGroup.name g = "R,G,B,A" /\
    claimedGroupName "" (ChannelGroup.channels g) = "(R,G,B,A)".
Proof. eexists. repeat split. Qed.

(** ** The alpha operations as one list *)

Lemma channel_names (n : string) (cs cs' : list Channel) :
  List.map name cs = List.map name cs' ->
  fst <$> channel n cs = fst <$> channel n cs'.
Proof.
  unfold channel. revert cs'. induction cs as [|c cs IH]; intros [|c' cs'] H; try done.
  simpl in H. injection H as Hc Hcs. simpl. rewrite <- Hc.
  destruct (decide (name c = n)); [done|].
  specialize (IH cs' Hcs).
  destruct (list_find _ cs) as [[i x]|], (list_find _ cs') as [[i' x']|];
    simpl in *; congruence.
Qed.

Lemma hasChannel_names (n : string) (cs : list Channel) :
  hasChannel n cs = existsb (String.eqb n) (List.map name cs).
Proof.
  unfold hasChannel, channel. induction cs as [|c cs IH]; [done|]. simpl.
  destruct (decide (name c = n)) as [->|Hne].
  - by rewrite String.eqb_refl.
  - rewrite (proj2 (String.eqb_neq n (name c))) by done. simpl. rewrite <- IH.
    by destruct (list_find _ cs) as [[i x]|].
Qed.

Lemma Forall2_sameShape_names (cs cs' : list Channel) :
  Forall2 sameShape cs cs' -> List.map name cs = List.map name cs'.
Proof. induction 1 as [|c c' cs cs' (Hn & _) _ IH]; simpl; [done|]. by f_equal. Qed.

Section Flatten.

Variable func : Channel -> Channel -> option Channel.
Hypothesis func_shape : forall t a t', func t a = Some t' -> sameShape t t'.

Lemma forEach_skip_alpha (alphaName : string) (l : list string) (cs : list Channel) :
  forEach (fun channelName cs' =>
             if String.eqb channelName alphaName then Some cs'
             else applyToChannel func alphaName channelName cs') l cs
  = forEach (applyOp func)
      (List.map (fun n => (alphaName, n))
         (List.filter (fun n => negb (String.eqb n alphaName)) l)) cs.
Proof using Type.
  revert cs. induction l as [|n l IH]; intros cs; simpl; [done|].
  destruct (String.eqb n alphaName); simpl; [apply IH|].
  unfold applyOp at 1. simpl. destruct (applyToChannel _ _ _ _); [apply IH|done].
Qed.

Lemma alphaOperationLayer_flat (layer : string) (cs : list Channel) :
  alphaOperationLayer func layer cs
  = forEach (applyOp func) (layerOps (List.map name cs) layer) cs.
Proof using Type.
  unfold alphaOperationLayer, layerOps.
  rewrite hasChannel_names. destruct (existsb _ _); [|done].
  by rewrite forEach_skip_alpha, channelsInLayer_names.
Qed.

Lemma applyOp_shape (op : string * string) (cs cs' : list Channel) :
  applyOp func op cs = Some cs' -> Forall2 sameShape cs cs'.
Proof using func_shape. by apply applyToChannel_shape. Qed.

Lemma forEach_applyOp_shape (ops : list (string * string)) (cs cs' : list Channel) :
  forEach (applyOp func) ops cs = Some cs' -> Forall2 sameShape cs cs'.
Proof using func_shape.
  intros Hrun.
  apply (forEach_invariant (Forall2 sameShape cs) _ _ _ _) in Hrun; [done| |done].
  intros op x x' Hop Hx. etrans; [exact Hx|]. by eapply applyOp_shape.
Qed.

Lemma alphaOperation_flat (ls : list string) (cs : list Channel) :
  forEach (alphaOperationLayer func) ls cs
  = forEach (applyOp func) (alphaOps (List.map name cs) ls) cs.
Proof using func_shape.
  unfold alphaOps. revert cs. induction ls as [|l ls IH]; intros cs; simpl; [done|].
  rewrite forEach_app, alphaOperationLayer_flat.
  destruct (forEach (applyOp func) (layerOps _ l) cs) as [cs1|] eqn:Hl; [|done].
  apply forEach_applyOp_shape, Forall2_sameShape_names in Hl.
  rewrite IH. by rewrite Hl.
Qed.

End Flatten.

(** ** Independent alpha operations *)

Lemma channel_None (n : string) (cs : list Channel) :
  channel n cs = None <-> n ∉ List.map name cs.
Proof.
  unfold channel. rewrite list_find_None, Forall_forall. split.
  - intros H (c & -> & Hc)%list_elem_of_fmap. by apply (H c).
  - intros H c Hc Hn. apply H. apply list_elem_of_fmap. by exists c.
Qed.

Lemma channel_found (n : string) (cs : list Channel) :
  n ∈ List.map name cs -> exists i c, channel n cs = Some (i, c).
Proof.
  intros Hin. destruct (channel n cs) as [[i c]|] eqn:E; [by exists i, c|].
  by apply channel_None in E.
Qed.

Lemma channel_at (cs : list Channel) (i : nat) (c : Channel) :
  NoDup (List.map name cs) -> cs !! i = Some c -> channel (name c) cs = Some (i, c).
Proof.
  intros Hnd Hi.
  destruct (channel_found (name c) cs) as (j & c' & Hj).
  { apply list_elem_of_fmap. exists c. split; [done|]. by eapply list_elem_of_lookup_2. }
  rewrite Hj. apply channel_Some in Hj as [Hj Hname].
  assert (i = j) as ->; [|congruence].
  eapply NoDup_lookup; [exact Hnd| |].
  - rewrite list_lookup_fmap, Hi. done.
  - rewrite list_lookup_fmap, Hj. simpl. by rewrite Hname.
Qed.

Lemma channel_insert_other (n : string) (cs : list Channel) (i : nat) (c c' : Channel) :
  cs !! i = Some c -> name c <> n -> name c' <> n ->
  channel n (<[i := c']> cs) = channel n cs.
Proof.
  unfold channel. revert i. induction cs as [|x cs IH]; intros [|i] Hi Hc Hc'; try done.
  - simpl in Hi. injection Hi as ->. simpl.
    destruct (decide (name c' = n)); [done|]. by destruct (decide (name c = n)).
  - simpl in Hi. simpl. destruct (decide (name x = n)); [done|].
    by rewrite (IH i Hi Hc Hc').
Qed.

Section RunOps.

Variable f : F32.t -> F32.t -> F32.t.
Variable func : Channel -> Channel -> option Channel.
Hypothesis func_pointwise : forall t a,
  Channel_wf a -> length (mData t) = length (mData a) ->
  func t a = Some (mkChannel (mName t) (rows t) (cols t)
                     (zip_with f (mData t) (mData a))).

Lemma map_combined_nil (cs0 cs : list Channel) :
  List.map (combined f [] cs0) cs = cs.
Proof using Type. induction cs as [|c cs IH]; simpl; [done|]. by rewrite IH. Qed.

Lemma find_target_None (ops : list (string * string)) (n : string) :
  n ∉ List.map snd ops ->
  List.find (fun p : string * string => String.eqb (snd p) n) ops = None.
Proof using Type.
  intros Hnot. apply find_none_Forall, Forall_forall. intros p Hp.
  apply String.eqb_neq. intros <-. apply Hnot. apply list_elem_of_fmap. by exists p.
Qed.

Lemma run_ops (ops : list (string * string)) (cs : list Channel) :
  NoDup (List.map name cs) -> uniform cs -> independent ops (List.map name cs) ->
  forEach (applyOp func) ops cs = Some (List.map (combined f ops cs) cs).
Proof using func_pointwise.
  revert cs. induction ops as [|[a t] ops IH]; intros cs Hnd [Hwf Hlen] (Ht & Ha & Hin).
  - simpl. by rewrite map_combined_nil.
  - simpl in Ht. apply NoDup_cons in Ht as [Ht_notin Ht].
    destruct (Hin (a, t)) as [Ha_in Ht_in]; [by left|]. simpl in Ha_in, Ht_in.
    destruct (channel_found a cs Ha_in) as (ia & ca & Hca).
    destruct (channel_found t cs Ht_in) as (it & ct & Hct).
    pose proof (channel_Some _ _ _ _ Hca) as [Hia Hna].
    pose proof (channel_Some _ _ _ _ Hct) as [Hit Hnt].
    assert (Hca_in : ca ∈ cs) by (by eapply list_elem_of_lookup_2).
    assert (Hct_in : ct ∈ cs) by (by eapply list_elem_of_lookup_2).
    assert (Hfunc := func_pointwise ct ca
              (proj1 (Forall_forall _ _) Hwf ca Hca_in) (Hlen ct ca Hct_in Hca_in)).
    simpl forEach. unfold applyOp at 1, applyToChannel. simpl fst. simpl snd.
    rewrite Hca, Hct, Hfunc.
    set (ct' := mkChannel (mName ct) (rows ct) (cols ct)
                  (zip_with f (mData ct) (mData ca))).
    assert (Hnt' : name ct' = t) by exact Hnt.
    assert (Hshape : sameShape ct ct').
    { unfold sameShape, ct'. simpl. rewrite length_zip_with.
      rewrite (Hlen ct ca Hct_in Hca_in). repeat split. lia. }
    assert (Hnames : List.map name (<[it := ct']> cs) = List.map name cs).
    { change (List.map name ?l) with (name <$> l).
      rewrite list_fmap_insert. apply list_insert_id.
      rewrite list_lookup_fmap, Hit. done. }
    assert (Hmem : forall c, c ∈ <[it := ct']> cs -> c = ct' \/ c ∈ cs).
    { intros c Hc. apply list_elem_of_lookup in Hc as [j Hj].
      destruct (decide (j = it)) as [->|Hne].
      - rewrite list_lookup_insert_eq in Hj by (by eapply lookup_lt_Some). left. congruence.
      - rewrite list_lookup_insert_ne in Hj by done. right.
        by eapply list_elem_of_lookup_2. }
    rewrite (IH (<[it := ct']> cs)).
    + f_equal. apply list_eq. intros j.
      change (List.map ?g ?l) with (g <$> l). rewrite !list_lookup_fmap.
      destruct (decide (j = it)) as [->|Hne].
      * rewrite list_lookup_insert_eq by (by eapply lookup_lt_Some). rewrite Hit. simpl.
        f_equal. unfold combined at 1.
        rewrite find_target_None by (by rewrite Hnt').
        unfold combined. simpl List.find. rewrite Hnt, String.eqb_refl. by rewrite Hca.
      * rewrite list_lookup_insert_ne by done.
        destruct (cs !! j) as [c|] eqn:Hj; [|done]. simpl. f_equal.
        assert (Hcn : name c <> t).
        { intros Hcn. apply Hne. rewrite <- Hcn in Hct.
          rewrite (channel_at cs j c Hnd Hj) in Hct. congruence. }
        unfold combined. simpl List.find.
        rewrite (proj2 (String.eqb_neq t (name c))) by done.
        destruct (List.find _ ops) as [[a' t']|] eqn:Hfind; [|done].
        apply find_some in Hfind as [Hop _]. apply list_elem_of_In in Hop.
        assert (Ha' : a' <> t).
        { intros ->. apply (Ha (t, t')); [by right|]. simpl. by left. }
        rewrite (channel_insert_other a' cs it ct ct'); [done|done|congruence|].
        unfold ct'. simpl. unfold name in Hnt. congruence.
    + by rewrite Hnames.
    + split.
      * apply Forall_forall. intros c [->|Hc]%Hmem.
        -- pose proof (proj1 (Forall_forall _ _) Hwf ct Hct_in) as (Hr & Hc & Hl).
           destruct Hshape as (_ & _ & _ & Hl'). unfold Channel_wf, ct' in *. simpl in *.
           repeat split; [done|done|]. rewrite <- Hl'. done.
        -- by apply (proj1 (Forall_forall _ _) Hwf).
      * destruct Hshape as (_ & _ & _ & Hl').
        intros c1 c2 [->|H1]%Hmem [->|H2]%Hmem; rewrite <- ?Hl'; auto.
    + rewrite Hnames. split; [done|]. split.
      * intros op Hop Hop'. apply (Ha op); [by right|]. simpl. by right.
      * intros op Hop. apply Hin. by right.
Qed.

End RunOps.

(** ** Layers that partition the channels *)

Lemma starts_with_alpha (l : string) : starts_with ((l +:+ ".") +:+ "A") l = true.
Proof.
  unfold starts_with. induction l as [|c l IH]; [done|]. simpl.
  by destruct (Ascii.ascii_dec c c).
Qed.

Lemma length_alpha (l : string) :
  String.length ((l +:+ ".") +:+ "A") = (String.length l + 2)%nat.
Proof. induction l as [|c l IH]; [done|]. simpl. by rewrite IH. Qed.

Lemma substr_alpha (l : string) :
  substr_from ((l +:+ ".") +:+ "A") (String.length l + 1) = "A".
Proof.
  unfold substr_from. rewrite length_alpha.
  replace (String.length l + 2 - (String.length l + 1))%nat with 1%nat by lia.
  induction l as [|c l IH]; [done|]. simpl. exact IH.
Qed.

Lemma inLayer_alpha (l : string) : inLayer l (alphaChannelName l) = true.
Proof.
  unfold inLayer, alphaChannelName, layerPrefix.
  destruct (String.eqb l "") eqn:E; [done|].
  rewrite starts_with_alpha, substr_alpha, length_alpha. simpl.
  rewrite andb_true_r. apply Nat.ltb_lt. lia.
Qed.

Lemma existsb_eqb_elem (n : string) (names : list string) :
  existsb (String.eqb n) names = true <-> n ∈ names.
Proof.
  rewrite existsb_exists. split.
  - intros (x & Hx & ->%String.eqb_eq). by apply list_elem_of_In.
  - intros H. exists n. split; [by apply list_elem_of_In|apply String.eqb_refl].
Qed.

Lemma layerOps_elem (names : list string) (l a n : string) :
  (a, n) ∈ layerOps names l <->
  a = alphaChannelName l /\ a ∈ names /\ n ∈ names /\
  inLayer l n = true /\ n <> a.
Proof.
  unfold layerOps. destruct (existsb _ names) eqn:E.
  - apply existsb_eqb_elem in E. rewrite list_elem_of_fmap. split.
    + intros (x & [= -> ->] & Hx). apply list_elem_of_In, filter_In in Hx as [Hx Hne].
      apply filter_In in Hx as [Hx Hin]. apply list_elem_of_In in Hx.
      apply negb_true_iff, String.eqb_neq in Hne. done.
    + intros (-> & _ & Hn & Hin & Hne). exists n. split; [done|].
      apply list_elem_of_In, filter_In. split.
      * apply filter_In. split; [by apply list_elem_of_In|done].
      * by apply negb_true_iff, String.eqb_neq.
  - split; [by intros ?%elem_of_nil|]. intros (-> & Ha & _).
    apply existsb_eqb_elem in Ha. congruence.
Qed.

Lemma alphaOps_elem (names ls : list string) (a n : string) :
  (a, n) ∈ alphaOps names ls <-> exists l, l ∈ ls /\ (a, n) ∈ layerOps names l.
Proof.
  unfold alphaOps. rewrite list_elem_of_In, in_flat_map.
  split; intros (l & Hl & Hop); exists l; by rewrite ?list_elem_of_In in *.
Qed.

Lemma layerOps_targets_NoDup (names : list string) (l : string) :
  NoDup names -> NoDup (List.map snd (layerOps names l)).
Proof.
  intros Hnd. unfold layerOps. destruct (existsb _ names); [|constructor].
  rewrite List.map_map. simpl. rewrite List.map_id.
  apply NoDup_ListNoDup, List.NoDup_filter, List.NoDup_filter.
  by apply NoDup_ListNoDup.
Qed.

Lemma elem_of_targets (ops : list (string * string)) (n : string) :
  n ∈ List.map snd ops <-> exists a, (a, n) ∈ ops.
Proof.
  rewrite list_elem_of_fmap. split.
  - intros ([a n'] & -> & Hop). by exists a.
  - intros (a & Hop). by exists (a, n).
Qed.

Lemma alphaOps_targets_NoDup (names ls : list string) :
  NoDup names -> NoDup ls ->
  (forall l n, l ∈ ls -> n ∈ names -> inLayer l n = true -> head n = l) ->
  NoDup (List.map snd (alphaOps names ls)).
Proof.
  intros Hnames. induction 1 as [|l ls Hnotin Hls IH]; intros Hheads; [constructor|].
  unfold alphaOps. simpl. rewrite map_app. apply NoDup_app. split; [|split].
  - by apply layerOps_targets_NoDup.
  - intros n (a & Ha)%elem_of_targets (a' & Ha')%elem_of_targets.
    apply layerOps_elem in Ha as (_ & _ & Hn & Hin & _).
    apply alphaOps_elem in Ha' as (l' & Hl' & Ha').
    apply layerOps_elem in Ha' as (_ & _ & _ & Hin' & _).
    apply Hnotin.
    rewrite <- (Hheads l n) by (by try left).
    rewrite (Hheads l' n) by (by try right). done.
  - apply IH. intros l' n Hl'. apply Hheads. by right.
Qed.

Lemma alphaOps_independent (names ls : list string) :
  NoDup names -> NoDup ls ->
  (forall l n, l ∈ ls -> n ∈ names -> inLayer l n = true -> head n = l) ->
  independent (alphaOps names ls) names.
Proof.
  intros Hnames Hls Hheads. split; [by apply alphaOps_targets_NoDup|]. split.
  - intros [a n] (l & Hl & Hop)%alphaOps_elem. simpl.
    apply layerOps_elem in Hop as (-> & Ha & _).
    intros (a' & Hop')%elem_of_targets.
    apply alphaOps_elem in Hop' as (l' & Hl' & Hop').
    apply layerOps_elem in Hop' as (-> & _ & _ & Hin & Hne).
    apply Hne. f_equal.
    rewrite <- (Hheads l' (alphaChannelName l)) by done.
    symmetry. apply Hheads; [done..|apply inLayer_alpha].
  - intros [a n] (l & Hl & Hop)%alphaOps_elem. simpl.
    by apply layerOps_elem in Hop as (_ & Ha & Hn & _).
Qed.

Lemma wellLayered_independent (d : ImageData) :
  wellLayered d ->
  independent (alphaOps (List.map name (channels d)) (layers d))
    (List.map name (channels d)).
Proof.
  intros [Hnames Hlayers Hheads _ _]. apply alphaOps_independent; [done..|].
  intros l n Hl Hn Hin. apply Hheads; [done|].
  rewrite channelsInLayer_names. apply list_elem_of_In, filter_In.
  split; [by apply list_elem_of_In|done].
Qed.

Lemma wellLayered_uniform (d : ImageData) : wellLayered d -> uniform (channels d).
Proof.
  intros [_ _ _ Hwf Hsz]. split; [done|]. intros c c' Hc Hc'.
  rewrite Forall_forall in Hwf.
  apply wf_same_size_length; [by apply Hwf..|by apply Hsz].
Qed.

(** ** Premultiplication and its inverse *)

Lemma combined_name (f : F32.t -> F32.t -> F32.t) (ops : list (string * string))
  (cs : list Channel) (c : Channel) :
  name (combined f ops cs c) = name c.
Proof.
  unfold combined. destruct (List.find _ ops) as [[a t]|]; [|done].
  by destruct (channel a cs) as [[i ca]|].
Qed.

Lemma combined_names (f : F32.t -> F32.t -> F32.t) (ops : list (string * string))
  (cs0 cs : list Channel) :
  List.map name (List.map (combined f ops cs0) cs) = List.map name cs.
Proof.
  rewrite List.map_map. apply List.map_ext. intros c. apply combined_name.
Qed.

Lemma combined_shape (f : F32.t -> F32.t -> F32.t) (ops : list (string * string))
  (cs : list Channel) (c : Channel) :
  uniform cs -> c ∈ cs -> sameShape c (combined f ops cs c).
Proof.
  intros [_ Hlen] Hc. unfold combined. destruct (List.find _ ops) as [[a t]|]; [|done].
  destruct (channel a cs) as [[i ca]|] eqn:Ha; [|done].
  apply channel_Some in Ha as [Hi _]. apply list_elem_of_lookup_2 in Hi.
  unfold sameShape. simpl. rewrite length_zip_with, (Hlen c ca Hc Hi).
  repeat split. lia.
Qed.

Lemma combined_uniform (f : F32.t -> F32.t -> F32.t) (ops : list (string * string))
  (cs : list Channel) :
  uniform cs -> uniform (List.map (combined f ops cs) cs).
Proof.
  intros Hu. pose proof Hu as [Hwf Hlen]. rewrite Forall_forall in Hwf. split.
  - apply Forall_forall. intros c' (c & -> & Hc)%list_elem_of_fmap.
    destruct (combined_shape f ops cs c Hu Hc) as (_ & Hr & Hc' & Hl).
    destruct (Hwf c Hc) as (? & ? & ?). unfold Channel_wf.
    rewrite <- Hr, <- Hc', <- Hl. done.
  - intros c1' c2' (c1 & -> & H1)%list_elem_of_fmap (c2 & -> & H2)%list_elem_of_fmap.
    destruct (combined_shape f ops cs c1 Hu H1) as (_ & _ & _ & <-).
    destruct (combined_shape f ops cs c2 Hu H2) as (_ & _ & _ & <-).
    by apply Hlen.
Qed.

Lemma alphaOperation_combined (f : F32.t -> F32.t -> F32.t)
  (func : Channel -> Channel -> option Channel) (d : ImageData) :
  (forall t a, Channel_wf a -> length (mData t) = length (mData a) ->
     func t a = Some (mkChannel (mName t) (rows t) (cols t)
                        (zip_with f (mData t) (mData a)))) ->
  (forall t a t', func t a = Some t' -> sameShape t t') ->
  NoDup (List.map name (channels d)) ->
  uniform (channels d) ->
  independent (alphaOps (List.map name (channels d)) (layers d))
    (List.map name (channels d)) ->
  alphaOperation func d
  = Some (setChannels
            (List.map (combined f (alphaOps (List.map name (channels d)) (layers d))
                         (channels d)) (channels d)) d).
Proof.
  intros Hpoint Hshape Hnd Hu Hind. unfold alphaOperation.
  rewrite (alphaOperation_flat func Hshape).
  by rewrite (run_ops f func Hpoint _ _ Hnd Hu Hind).
Qed.

Lemma find_target_Some (ops : list (string * string)) (a n : string) :
  NoDup (List.map snd ops) -> (a, n) ∈ ops ->
  List.find (fun p : string * string => String.eqb (snd p) n) ops = Some (a, n).
Proof.
  induction ops as [|[a' n'] ops IH]; simpl; [by intros _ ?%elem_of_nil|].
  intros [Hnotin Hnd]%NoDup_cons [[= -> ->]|Hin]%elem_of_cons.
  - by rewrite String.eqb_refl.
  - destruct (String.eqb n' n) eqn:E; [|by apply IH].
    apply String.eqb_eq in E. subst n'. destruct Hnotin.
    apply elem_of_targets. by exists a.
Qed.

(** The target [t] of an alpha operation with the alpha channel [a], after
    the operations. *)
Lemma combined_target (f : F32.t -> F32.t -> F32.t) (ops : list (string * string))
  (cs : list Channel) (t a : Channel) (ka : nat) :
  NoDup (List.map snd ops) -> (name a, name t) ∈ ops ->
  channel (name a) cs = Some (ka, a) ->
  combined f ops cs t
  = mkChannel (mName t) (rows t) (cols t) (zip_with f (mData t) (mData a)).
Proof.
  intros Hnd Hop Ha. unfold combined.
  by rewrite (find_target_Some ops (name a) (name t) Hnd Hop), Ha.
Qed.

(** A channel that is no target is left as it is. *)
Lemma combined_other (f : F32.t -> F32.t -> F32.t) (ops : list (string * string))
  (cs : list Channel) (c : Channel) :
  name c ∉ List.map snd ops -> combined f ops cs c = c.
Proof. intros Hnot. unfold combined. by rewrite find_target_None. Qed.

(** C5, as the code has it.  For an image that is not premultiplied and
    whose layers partition its channels, [multiplyAlpha] followed by
    [unmultiplyAlpha] returns, with the flag cleared again.  A channel [t]
    of a layer [l] other than the alpha channel [a] of [l] then holds, at
    an index where it held [v] and the alpha channel holds [x], the
    single-precision quotient (v * x) / x, and 0 where [x] is zero: it has
    its value back wherever [x] is not zero and that quotient is [v]
    itself. *)
Theorem alpha_round_trip (d : ImageData) :
  hasPremultipliedAlpha d = false ->
  wellLayered d ->
  exists d1 d2,
    multiplyAlpha d = Done d1 /\
    unmultiplyAlpha d1 = Done d2 /\
    hasPremultipliedAlpha d2 = false /\
    forall l k t ka a i v x,
      l ∈ layers d ->
      channels d !! k = Some t ->
      inLayer l (name t) = true ->
      name t <> alphaChannelName l ->
      channel (alphaChannelName l) (channels d) = Some (ka, a) ->
      at_ t i = Some v ->
      at_ a i = Some x ->
      exists t2,
        channels d2 !! k = Some t2 /\ name t2 = name t /\
        at_ t2 i = Some (quotient (F32.mul v x) x) /\
        (F32.neqb x F32.zero = true -> F32.div (F32.mul v x) x = v ->
         at_ t2 i = Some v).
Proof.
  intros Hflag Hwl.
  pose proof (wellLayered_independent d Hwl) as Hind.
  pose proof (wellLayered_uniform d Hwl) as Hu.
  pose proof (wl_names d Hwl) as Hnd.
  set (cs := channels d) in *. set (ops := alphaOps (List.map name cs) (layers d)) in *.
  set (cs1 := List.map (combined F32.mul ops cs) cs).
  set (d1 := setHasPremultipliedAlpha true (setChannels cs1 d)).
  assert (Hnames1 : List.map name cs1 = List.map name cs) by apply combined_names.
  assert (Hu1 : uniform cs1) by (by apply combined_uniform).
  set (cs2 := List.map (combined quotient ops cs1) cs1).
  set (d2 := setHasPremultipliedAlpha false (setChannels cs2 d1)).
  exists d1, d2. split; [|split; [|split; [done|]]].
  - unfold multiplyAlpha. rewrite Hflag.
    rewrite (alphaOperation_combined F32.mul multiplyWith d); try done.
    + intros t a Ha Hl. by apply multiplyWith_pointwise.
    + apply multiplyWith_shape.
  - unfold unmultiplyAlpha. simpl hasPremultipliedAlpha. simpl negb.
    rewrite (alphaOperation_combined quotient divideBy d1); simpl channels; simpl layers.
    + by rewrite Hnames1.
    + intros t a Ha Hl. by apply divideBy_pointwise.
    + apply divideBy_shape.
    + by rewrite Hnames1.
    + done.
    + by rewrite Hnames1.
  - intros l k t ka a i v x Hl Hk Hin Hne Ha Hv Hx.
    destruct Hind as (Htargets & Halpha & _).
    pose proof (channel_Some _ _ _ _ Ha) as [Hka Hna].
    assert (Hop : (name a, name t) ∈ ops).
    { apply alphaOps_elem. exists l. split; [done|]. apply layerOps_elem.
      rewrite Hna. repeat split; try done.
      - rewrite <- Hna. apply list_elem_of_fmap. exists a.
        split; [done|]. by eapply list_elem_of_lookup_2.
      - apply list_elem_of_fmap. exists t. split; [done|]. by eapply list_elem_of_lookup_2. }
    assert (Ht1 : combined F32.mul ops cs t
                  = mkChannel (mName t) (rows t) (cols t)
                      (zip_with F32.mul (mData t) (mData a))).
    { apply (combined_target _ _ _ _ _ ka); [done|done|by rewrite Hna]. }
    assert (Ha1 : combined F32.mul ops cs a = a).
    { apply combined_other. apply (Halpha (name a, name t) Hop). }
    assert (Hka1 : cs1 !! ka = Some a).
    { unfold cs1. change (List.map ?g ?l) with (g <$> l).
      rewrite list_lookup_fmap. fold cs in Hka. rewrite Hka. simpl. by rewrite Ha1. }
    assert (Hchan1 : channel (name a) cs1 = Some (ka, a)).
    { apply channel_at; [by rewrite Hnames1|done]. }
    set (t1 := mkChannel (mName t) (rows t) (cols t)
                 (zip_with F32.mul (mData t) (mData a))) in *.
    assert (Ht2 : combined quotient ops cs1 t1
                  = mkChannel (mName t) (rows t) (cols t)
                      (zip_with quotient (mData t1) (mData a))).
    { apply (combined_target quotient ops cs1 t1 a ka); [done|exact Hop|done]. }
    assert (Hvalue : at_ (mkChannel (mName t) (rows t) (cols t)
                            (zip_with quotient (mData t1) (mData a))) i
                     = Some (quotient (F32.mul v x) x)).
    { unfold at_, coeff in *. destruct (0 <=? i); [|done]. simpl.
      rewrite !lookup_zip_with, Hv. simpl. rewrite Hx. simpl. done. }
    eexists. split; [|split; [|split]].
    + simpl. unfold cs2, cs1.
      change (List.map ?g ?l) with (g <$> l). rewrite !list_lookup_fmap.
      fold cs in Hk. rewrite Hk. simpl. rewrite Ht1. fold t1.
      fold cs1. rewrite Ht2. done.
    + done.
    + exact Hvalue.
    + intros Hnz Hexact. rewrite Hvalue. unfold quotient. by rewrite Hnz, Hexact.
Qed.

(** C5, as it is stated, fails for values the product of which is
    rounded: with R and A at 0.1f everywhere, R holds 13421774 / 2^27 after
    the two operations and no longer 0.1f = 13421773 / 2^27, although the
    alpha value there is not zero. *)
Lemma alpha_round_trip_rounds :
  let d := mkImageData [plane "R" F32.tenth; plane "A" F32.tenth] [""]
             (boxOfSize (4, 4)) (boxOfSize (4, 4)) false "" in
  exists d1 d2 r,
    hasPremultipliedAlpha d = false /\
    multiplyAlpha d = Done d1 /\
    unmultiplyAlpha d1 = Done d2 /\
    channels d2 !! 0%nat = Some r /\ name r = "R" /\
    at_ (plane "A" F32.tenth) 0 = Some F32.tenth /\
    F32.neqb F32.tenth F32.zero = true /\
    at_ (plane "R" F32.tenth) 0 = Some F32.tenth /\
    at_ r 0 = Some (S754_finite false 13421774 (-27)) /\
    at_ r 0 <> Some F32.tenth.
Proof.
  do 3 eexists. split; [reflexivity|]. split; [vm_compute; reflexivity|].
  split; [vm_compute; reflexivity|]. split; [reflexivity|]. split; [reflexivity|].
  split; [reflexivity|]. split; [reflexivity|]. split; [reflexivity|].
  split; [reflexivity|]. discriminate.
Qed.

(** ** The operations return *)

Lemma forEach_total_in {S I : Type} (P : S -> Prop) (body : I -> S -> option S)
  (l : list I) (s : S) :
  (forall i x, i ∈ l -> P x -> exists x', body i x = Some x' /\ P x') ->
  P s -> exists s', forEach body l s = Some s' /\ P s'.
Proof.
  revert s. induction l as [|i l IH]; intros s Hbody Hs; simpl.
  - by exists s.
  - destruct (Hbody i s) as (x & -> & Hx); [by left|done|].
    apply IH; [|done]. intros j y Hj. apply Hbody. by right.
Qed.

Lemma uniform_insert (cs : list Channel) (i : nat) (c c' : Channel) :
  uniform cs -> cs !! i = Some c -> sameShape c c' -> uniform (<[i := c']> cs).
Proof.
  intros [Hwf Hlen] Hi (Hn & Hr & Hc & Hl).
  assert (Hc_in : c ∈ cs) by (by eapply list_elem_of_lookup_2).
  assert (Hmem : forall x, x ∈ <[i := c']> cs -> x = c' \/ x ∈ cs).
  { intros x Hx. apply list_elem_of_lookup in Hx as [j Hj].
    destruct (decide (j = i)) as [->|Hne].
    - rewrite list_lookup_insert_eq in Hj by (by eapply lookup_lt_Some). left. congruence.
    - rewrite list_lookup_insert_ne in Hj by done. right.
      by eapply list_elem_of_lookup_2. }
  rewrite Forall_forall in Hwf. split.
  - apply Forall_forall. intros x [->|Hx]%Hmem; [|by apply Hwf].
    destruct (Hwf c Hc_in) as (? & ? & ?). unfold Channel_wf.
    rewrite <- Hr, <- Hc, <- Hl. done.
  - intros x y [->|Hx]%Hmem [->|Hy]%Hmem; rewrite <- ?Hl; auto.
Qed.

Section Returns.

Variable func : Channel -> Channel -> option Channel.
Hypothesis func_shape : forall t a t', func t a = Some t' -> sameShape t t'.
Hypothesis func_defined : forall t a,
  Channel_wf a -> length (mData t) = length (mData a) -> is_Some (func t a).

Lemma alphaOperation_returns (d : ImageData) :
  uniform (channels d) -> is_Some (alphaOperation func d).
Proof using func_shape func_defined.
  intros Hu. unfold alphaOperation. rewrite (alphaOperation_flat func func_shape).
  set (names := List.map name (channels d)).
  destruct (forEach_total_in
              (fun cs => uniform cs /\ List.map name cs = names)
              (applyOp func) (alphaOps names (layers d)) (channels d))
    as (cs & -> & _); [|done|done].
  intros [a t] cs Hop [Hcs Hnames].
  apply alphaOps_elem in Hop as (l & _ & Hop).
  apply layerOps_elem in Hop as (_ & Ha & Ht & _).
  rewrite <- Hnames in Ha, Ht.
  destruct (channel_found a cs Ha) as (ia & ca & Hca).
  destruct (channel_found t cs Ht) as (it & ct & Hct).
  pose proof (channel_Some _ _ _ _ Hca) as [Hia _].
  pose proof (channel_Some _ _ _ _ Hct) as [Hit _].
  destruct Hcs as [Hwf Hlen].
  destruct (func_defined ct ca) as [ct' Hfunc].
  { apply (proj1 (Forall_forall _ _) Hwf). by eapply list_elem_of_lookup_2. }
  { apply Hlen; by eapply list_elem_of_lookup_2. }
  exists (<[it := ct']> cs). unfold applyOp, applyToChannel. simpl.
  rewrite Hca, Hct, Hfunc. split; [done|]. split.
  - eapply uniform_insert; [by split|done|by eapply func_shape].
  - rewrite <- Hnames. symmetry. apply Forall2_sameShape_names.
    apply (applyToChannel_shape func func_shape a t).
    unfold applyToChannel. by rewrite Hca, Hct, Hfunc.
Qed.

End Returns.

Lemma multiplyAlpha_returns (d : ImageData) :
  hasPremultipliedAlpha d = false -> uniform (channels d) ->
  exists d', multiplyAlpha d = Done d'.
Proof.
  intros Hflag Hu. unfold multiplyAlpha. rewrite Hflag.
  destruct (alphaOperation_returns multiplyWith multiplyWith_shape) with (d := d)
    as [d' ->]; [|done|by eexists].
  intros t a Ha Hl. rewrite multiplyWith_pointwise by done. done.
Qed.

Lemma unmultiplyAlpha_returns (d : ImageData) :
  hasPremultipliedAlpha d = true -> uniform (channels d) ->
  exists d', unmultiplyAlpha d = Done d'.
Proof.
  intros Hflag Hu. unfold unmultiplyAlpha. rewrite Hflag. simpl.
  destruct (alphaOperation_returns divideBy divideBy_shape) with (d := d)
    as [d' ->]; [|done|by eexists].
  intros t a Ha Hl. rewrite divideBy_pointwise by done. done.
Qed.

Section EnsureValidReturns.

Variable matchesFuzzy : string -> string -> option nat.

Lemma selectChannels_subset (sel : string) (tmp : list Channel) (c : Channel) :
  c ∈ selectChannels matchesFuzzy sel tmp -> c ∈ tmp.
Proof using Type.
  intros Hc. pose proof (selectChannels_matches matchesFuzzy sel tmp) as Hall.
  apply list_elem_of_lookup in Hc as [k Hk].
  destruct (Forall2_lookup_l _ _ _ _ _ Hall Hk) as (m & _ & Hm).
  by eapply list_elem_of_lookup_2.
Qed.

(** An image with a channel, of well-formed channels that pass the size
    check, is validated without an error, whatever the selector. *)
Lemma ensureValid_returns (sel : string) (d : ImageData) :
  channels d <> [] -> sizesAgree d -> Forall Channel_wf (channels d) ->
  exists d', ensureValid matchesFuzzy sel d = Done d'.
Proof using Type.
  intros Hne Hsz Hwf. destruct (channels d) as [|front rest] eqn:Hcs; [done|].
  rewrite (ensureValid_checks_pass matchesFuzzy sel front rest d Hcs Hsz). simpl.
  destruct (hasPremultipliedAlpha (prepared matchesFuzzy sel front d)) eqn:Hflag;
    [by eexists|].
  destruct (multiplyAlpha_returns (prepared matchesFuzzy sel front d) Hflag)
    as [d' Hd'].
  - destruct (prepared_fields matchesFuzzy sel front d) as (Hpc & _).
    assert (Hsub : forall c, c ∈ channels (prepared matchesFuzzy sel front d) ->
                             c ∈ channels d).
    { intros c. rewrite Hpc. destruct (String.eqb sel ""); [done|].
      apply selectChannels_subset. }
    unfold sizesAgree in Hsz. rewrite Hcs in Hsz, Hsub.
    rewrite Forall_forall in Hsz, Hwf. split.
    + apply Forall_forall. intros c Hc. by apply Hwf, Hsub.
    + intros c c' Hc Hc'. apply wf_same_size_length; [by apply Hwf, Hsub..|].
      rewrite (Hsz c), (Hsz c'); auto.
  - rewrite Hd'. apply multiplyAlpha_Done in Hd' as (_ & -> & _). by eexists.
Qed.

End EnsureValidReturns.

(** ** The theorems at concrete inputs *)

Lemma plane_wf (n : string) (v : F32.t) : Channel_wf (plane n v).
Proof. unfold Channel_wf. simpl. lia. Qed.

Lemma eval_negative_index_witness :
  Channel_wf (plane "R" F32.one) /\ -1 < 0 /\ eval (plane "R" F32.one) (-1) = None.
Proof.
  split; [apply plane_wf|]. split; [lia|].
  apply (eval_negative_index (plane "R" F32.one) (-1)); [apply plane_wf|lia].
Defined.

Lemma divideBy_saturates_witness :
  exists R,
    divideBy dividend divisor = Some R /\
    name R = name dividend /\ size R = size dividend /\
    forall i, 0 <= i < count dividend ->
      exists a b,
        at_ dividend i = Some a /\ at_ divisor i = Some b /\
        at_ R i = Some (if F32.eqb b F32.zero then F32.zero else F32.div a b).
Proof.
  apply (divideBy_saturates dividend divisor).
  - unfold Channel_wf. simpl. lia.
  - unfold Channel_wf. simpl. lia.
  - reflexivity.
Defined.

Lemma alpha_twice_fails_witness :
  exists dm de,
    multiplyAlpha (rgbaImage false) = Done dm /\
    unmultiplyAlpha (rgbaImage true) = Done de /\
    multiplyAlpha dm
      = Raised (runtime_error "Can't multiply with alpha twice." []) dm /\
    unmultiplyAlpha de
      = Raised (runtime_error "Can't divide by alpha twice." []) de.
Proof.
  do 2 eexists. split; [vm_compute; reflexivity|]. split; [vm_compute; reflexivity|].
  apply (alpha_twice_fails (rgbaImage false) _ (rgbaImage true) _);
    vm_compute; reflexivity.
Defined.

Lemma ensureValid_rgba_witness :
  ensureValid matchesTail ""
    (mkImageData rgbaChannels [] noWindow noWindow false "")
  = Done (mkImageData
            [plane "R" F32.half; plane "G" F32.half; plane "B" F32.half;
             plane "A" F32.half]
            [""] (boxOfSize (4, 4)) (boxOfSize (4, 4)) true "").
Proof.
  apply (ensureValid_rgba matchesTail noWindow noWindow "").
  left. reflexivity.
Defined.

Lemma getGroupedChannels_rgbaz_witness :
  getGroupedChannels
    (mkImageData
       [plane "Z" F32.one; plane "A" F32.half; plane "B" F32.one;
        plane "R" F32.one; plane "G" F32.one]
       [""] (boxOfSize (4, 4)) (boxOfSize (4, 4)) true "") ""
  = Ok [ ChannelGroup.mk "R,G,B,A" ["R"; "G"; "B"; "A"];
         ChannelGroup.mk "Z,A" ["Z"; "Z"; "Z"; "A"] ].
Proof.
  apply getGroupedChannels_rgbaz. simpl.
  apply (Permutation_trans (l' := ["R"; "Z"; "A"; "B"; "G"])).
  - apply Permutation_sym, (Permutation_cons_app ["Z"; "A"; "B"] ["G"]). reflexivity.
  - apply perm_skip.
    apply (Permutation_trans (l' := ["G"; "Z"; "A"; "B"])).
    + apply Permutation_sym, (Permutation_cons_app ["Z"; "A"; "B"] []). reflexivity.
    + apply perm_skip.
      apply (Permutation_trans (l' := ["B"; "Z"; "A"])).
      * apply Permutation_sym, (Permutation_cons_app ["Z"; "A"] []). reflexivity.
      * apply perm_skip. apply perm_swap.
Defined.


Lemma ensureValid_selects_witness :
  exists d',
    ensureValid matchesTail "R"
      (mkImageData layeredChannels [] (boxOfSize (4, 4)) (boxOfSize (4, 4)) true "")
    = Done d' /\
    List.map name (channels d') = ["layer1.R"; "layer2.R"] /\
    exists ms : list (nat * nat),
      (forall r i, (r, i) ∈ ms <->
         exists c, layeredChannels !! i = Some c /\ matchesTail (name c) "R" = Some r) /\
      StronglySorted pair_lt ms /\
      Forall2 (fun c' m =>
                 exists c, layeredChannels !! snd m = Some c /\ sameShape c c' /\
                           (true = true -> c' = c))
        (channels d') ms.
Proof.
  eexists. split; [vm_compute; reflexivity|]. split; [vm_compute; reflexivity|].
  apply (ensureValid_selects matchesTail "R"
           (mkImageData layeredChannels [] (boxOfSize (4, 4)) (boxOfSize (4, 4)) true "")).
  - discriminate.
  - vm_compute. reflexivity.
Defined.

Lemma ensureValid_nothing_selected_witness :
  exists d',
    ensureValid matchesTail "x" (rgbaImage false) = Done d' /\
    channels d' = [] /\ layers d' = layers (rgbaImage false) /\
    hasPremultipliedAlpha d' = true.
Proof.
  apply (ensureValid_nothing_selected matchesTail "x" (rgbaImage false)).
  - discriminate.
  - discriminate.
  - unfold sizesAgree. simpl. repeat constructor.
  - intros c Hc. simpl in Hc.
    repeat (apply elem_of_cons in Hc as [->|Hc]; [reflexivity|]).
    by apply elem_of_nil in Hc.
Defined.

Lemma group_display_name_witness :
  getGroupedChannels (rgbaImage true) ""
  = Ok [ChannelGroup.mk "R,G,B,A" ["R"; "G"; "B"; "A"]] /\
  ChannelGroup.name (ChannelGroup.mk "R,G,B,A" ["R"; "G"; "B"; "A"])
  = displayName "" (ChannelGroup.channels (ChannelGroup.mk "R,G,B,A" ["R"; "G"; "B"; "A"])).
Proof.
  split; [reflexivity|].
  apply (group_display_name (rgbaImage true) ""
           [ChannelGroup.mk "R,G,B,A" ["R"; "G"; "B"; "A"]]).
  - reflexivity.
  - apply list_elem_of_singleton. reflexivity.
Defined.

Lemma rgbaImage_wellLayered (premultiplied : bool) : wellLayered (rgbaImage premultiplied).
Proof.
  split; simpl.
  - nodup_list.
  - nodup_list.
  - intros l n Hl Hn. apply list_elem_of_singleton in Hl as ->.
    vm_compute in Hn.
    repeat (apply elem_of_cons in Hn as [->|Hn]; [reflexivity|]).
    by apply elem_of_nil in Hn.
  - repeat constructor; simpl; lia.
  - intros c c' Hc Hc'.
    repeat (apply elem_of_cons in Hc as [->|Hc]);
      try (by apply elem_of_nil in Hc);
      repeat (apply elem_of_cons in Hc' as [->|Hc']);
      try (by apply elem_of_nil in Hc'); reflexivity.
Qed.

Lemma alpha_round_trip_witness :
  exists d1 d2,
    multiplyAlpha (rgbaImage false) = Done d1 /\
    unmultiplyAlpha d1 = Done d2 /\
    hasPremultipliedAlpha d2 = false /\
    forall l k t ka a i v x,
      l ∈ layers (rgbaImage false) ->
      channels (rgbaImage false) !! k = Some t ->
      inLayer l (name t) = true ->
      name t <> alphaChannelName l ->
      channel (alphaChannelName l) (channels (rgbaImage false)) = Some (ka, a) ->
      at_ t i = Some v ->
      at_ a i = Some x ->
      exists t2,
        channels d2 !! k = Some t2 /\ name t2 = name t /\
        at_ t2 i = Some (quotient (F32.mul v x) x) /\
        (F32.neqb x F32.zero = true -> F32.div (F32.mul v x) x = v ->
         at_ t2 i = Some v).
Proof.
  apply (alpha_round_trip (rgbaImage false)).
  - reflexivity.
  - apply rgbaImage_wellLayered.
Defined.

(** On the R, G, B, A image the two operations give back every value: the
    products 1.0 * 0.5 divide back exactly. *)
Example rgba_round_trip :
  exists d1,
    multiplyAlpha (rgbaImage false) = Done d1 /\
    unmultiplyAlpha d1 = Done (rgbaImage false).
Proof. eexists. split; vm_compute; reflexivity. Qed.

(** Why the layers have to partition the channels.  [channelsInLayer]
    lists the root channel "ab" for the layer "a" as well; the alpha channel
    of "a" is 0 here, and "ab" is 0 after the two operations although the
    alpha channel of its own layer, the root, is 1.0 everywhere. *)
Example shared_channel_not_restored :
  channelsInLayer "" sharedChannels = ["A"; "ab"] /\
  channelsInLayer "a" sharedChannels = ["ab"; "a.A"; "a.R"] /\
  exists d1 d2,
    multiplyAlpha sharedImage = Done d1 /\
    unmultiplyAlpha d1 = Done d2 /\
    channels d2 !! 1%nat = Some (plane "ab" F32.zero).
Proof.
  split; [reflexivity|]. split; [reflexivity|].
  do 2 eexists. split; [vm_compute; reflexivity|]. split; vm_compute; reflexivity.
Qed.

(** The constants are single-precision numbers in canonical form. *)
Example constants_valid :
  List.map F32.valid [F32.zero; F32.one; F32.half; F32.tenth] = [true; true; true; true].
Proof. reflexivity. Qed.

(** ** Channel: further properties of the reads and of the elementwise loops *)

(** X1 (Channel.h, both [eval] overloads).  Over a matrix the two reads
    agree under the row-major numbering of its pixels: inside the bounds
    [eval({x, y})] is [eval(x + y * cols)], a stored coefficient, and every
    linear index below [count()] is the pixel [(i mod cols, i / cols)];
    outside the bounds the two-dimensional read is 0 and never leaves the
    buffer. *)
Theorem eval2_row_major (c : Channel) :
  Channel_wf c ->
  (forall x y, 0 <= x < cols c -> 0 <= y < rows c ->
     eval2 c (x, y) = eval c (x + y * cols c) /\
     exists v, eval2 c (x, y) = Some v /\ v ∈ mData c) /\
  (forall i, 0 <= i < count c ->
     eval c i = eval2 c (i mod cols c, i / cols c)) /\
  (forall x y, ~ (0 <= x < cols c /\ 0 <= y < rows c) ->
     eval2 c (x, y) = Some F32.zero).
Proof.
  intros (Hr & Hc & Hlen). split; [|split].
  - intros x y Hx Hy.
    assert (Hi : 0 <= x + y * cols c < count c) by (unfold count; nia).
    rewrite eval2_inside, eval_in_range by done. split; [done|].
    destruct (lookup_lt_is_Some_2 (mData c) (Z.to_nat (x + y * cols c))) as [v Hv].
    { unfold count in Hi. lia. }
    exists v. split; [done|]. by eapply list_elem_of_lookup_2.
  - intros i Hi. unfold count in Hi.
    assert (0 < cols c) by nia.
    rewrite eval_in_range by done.
    rewrite eval2_inside.
    + do 2 f_equal. rewrite (Z.div_mod i (cols c)) at 1 by lia. lia.
    + apply Z.mod_pos_bound; lia.
    + split; [apply Z.div_pos; lia|]. apply Z.div_lt_upper_bound; lia.
  - intros x y Hout. apply eval2_outside. lia.
Qed.

Lemma eval2_row_major_witness :
  (forall x y, 0 <= x < 4 -> 0 <= y < 4 ->
     eval2 (plane "R" F32.one) (x, y) = eval (plane "R" F32.one) (x + y * 4) /\
     exists v, eval2 (plane "R" F32.one) (x, y) = Some v /\
               v ∈ mData (plane "R" F32.one)) /\
  (forall i, 0 <= i < 16 ->
     eval (plane "R" F32.one) i = eval2 (plane "R" F32.one) (i mod 4, i / 4)) /\
  (forall x y, ~ (0 <= x < 4 /\ 0 <= y < 4) ->
     eval2 (plane "R" F32.one) (x, y) = Some F32.zero).
Proof.
  exact (eval2_row_major (plane "R" F32.one) (plane_wf "R" F32.one)).
Defined.

(** *** Operands of another length

    The loops of [multiplyWithAsync] and [divideByAsync] run over
    [other.count()], not over the count of the channel they change. *)

Section Leading.

Variable f : F32.t -> F32.t -> F32.t.
Variable body : Channel -> Z -> Channel -> option Channel.
Hypothesis body_at : forall other i self x o,
  at_ self i = Some x -> at_ other i = Some o ->
  body other i self = setCoeff self i (f x o).

Lemma leading_from n r c (other : Channel) (done mine theirs rest : list F32.t) :
  length mine = length theirs ->
  drop (length done) (mData other) = theirs ->
  forEach (body other) (seqZ (Z.of_nat (length done)) (Z.of_nat (length mine)))
    (mkChannel n r c (done ++ mine ++ rest))
  = Some (mkChannel n r c (done ++ zip_with f mine theirs ++ rest)).
Proof using body_at.
  revert done theirs. induction mine as [|x mine IH]; intros done theirs Hlen Hdrop.
  - destruct theirs; [|done]. done.
  - destruct theirs as [|o theirs]; [done|]. simpl in Hlen.
    rewrite seqZ_cons by (simpl; lia). simpl forEach.
    assert (Hother : at_ other (Z.of_nat (length done)) = Some o).
    { unfold at_. rewrite coeff_lookup by lia. rewrite Nat2Z.id.
      rewrite <- (Nat.add_0_r (length done)), <- lookup_drop, Hdrop. done. }
    assert (Hself : at_ (mkChannel n r c (done ++ x :: mine ++ rest))
                      (Z.of_nat (length done)) = Some x).
    { unfold at_. rewrite coeff_lookup by lia. rewrite Nat2Z.id. simpl.
      by apply list_lookup_middle. }
    change ((x :: mine) ++ rest) with (x :: mine ++ rest).
    rewrite (body_at _ _ _ _ _ Hself Hother), setCoeff_middle.
    replace (Z.succ (Z.of_nat (length done))) with (Z.of_nat (length (done ++ [f x o])))
      by (rewrite length_app; simpl; lia).
    replace (Z.pred (Z.of_nat (S (length mine)))) with (Z.of_nat (length mine)) by lia.
    rewrite (IH (done ++ [f x o]) theirs).
    + simpl. by rewrite <- app_assoc.
    + lia.
    + rewrite length_app. simpl.
      rewrite <- drop_drop, Hdrop. done.
Qed.

Lemma leading_loop (self other : Channel) :
  Channel_wf other ->
  (length (mData other) <= length (mData self))%nat ->
  parallelFor 0 (count other) (body other) self
  = Some (mkChannel (mName self) (rows self) (cols self)
            (zip_with f (take (length (mData other)) (mData self)) (mData other)
             ++ drop (length (mData other)) (mData self))).
Proof using body_at.
  intros (Hr & Hc & Hlen) Hle. unfold parallelFor, indexRange, count.
  rewrite <- Hlen, Z.sub_0_r.
  pose proof (leading_from (mName self) (rows self) (cols self) other []
                (take (length (mData other)) (mData self)) (mData other)
                (drop (length (mData other)) (mData self))) as H.
  simpl in H. rewrite take_drop in H.
  rewrite length_take, Nat.min_l in H by done.
  destruct self. apply H; done.
Qed.

End Leading.

(** X2 (Channel.h, [multiplyWithAsync] and [divideByAsync]).  With an
    operand of no more coefficients than the target, the loops return and
    change the leading [other.count()] coefficients of the target alone:
    each becomes the product, or the quotient (0 where the operand is 0);
    the coefficients behind them, the name and the extent stay. *)
Theorem leading_coefficients_only (self other : Channel) :
  Channel_wf other ->
  (length (mData other) <= length (mData self))%nat ->
  let n := length (mData other) in
  multiplyWith self other
  = Some (mkChannel (mName self) (rows self) (cols self)
            (zip_with F32.mul (take n (mData self)) (mData other)
             ++ drop n (mData self))) /\
  divideBy self other
  = Some (mkChannel (mName self) (rows self) (cols self)
            (zip_with quotient (take n (mData self)) (mData other)
             ++ drop n (mData self))).
Proof.
  intros Hwf Hle n. split.
  - apply (leading_loop F32.mul multiplyWithBody); [|done..].
    intros o i s x y Hs Ho. by rewrite multiplyWithBody_spec, Hs, Ho.
  - apply (leading_loop quotient divideByBody); [|done..].
    intros o i s x y Hs Ho. by rewrite divideByBody_spec, Hs, Ho.
Qed.

Lemma leading_coefficients_only_witness :
  multiplyWith (plane "R" F32.one) divisor
  = Some (mkChannel "R" 4 4 ([F32.zero; F32.half] ++ replicate 14 F32.one)) /\
  divideBy (plane "R" F32.one) divisor
  = Some (mkChannel "R" 4 4
            ([F32.zero; F32.div F32.one F32.half] ++ replicate 14 F32.one)).
Proof.
  assert (Hwf : Channel_wf divisor) by (repeat split; vm_compute; congruence).
  assert (Hle : (length (mData divisor) <= length (mData (plane "R" F32.one)))%nat)
    by (simpl; lia).
  exact (leading_coefficients_only (plane "R" F32.one) divisor Hwf Hle).
Defined.

(** X3 (Channel.h, [multiplyWithAsync] and [divideByAsync]).  With an
    operand of more coefficients than the target holds, both loops leave the
    buffer of the target: their result is not defined. *)
Theorem longer_operand_overruns (self other : Channel) :
  Channel_wf other ->
  (length (mData self) < length (mData other))%nat ->
  multiplyWith self other = None /\ divideBy self other = None.
Proof.
  intros (Hr & Hc & Hlen) Hlt.
  set (i := Z.of_nat (length (mData self))).
  assert (Hi : i ∈ indexRange 0 (count other)).
  { unfold indexRange, count. apply elem_of_seqZ. lia. }
  apply list_elem_of_split in Hi as (l1 & l2 & Hsplit).
  assert (Hperm : i :: l1 ++ l2 ≡ₚ indexRange 0 (count other)).
  { rewrite Hsplit. apply Permutation_middle. }
  assert (Hself : at_ self i = None).
  { unfold at_, i. rewrite coeff_lookup by lia. rewrite Nat2Z.id.
    by apply lookup_ge_None_2. }
  split.
  - rewrite <- (multiplyWith_any_order self other _ Hperm). simpl.
    by rewrite multiplyWithBody_spec, Hself.
  - rewrite <- (divideBy_any_order self other _ Hperm). simpl.
    by rewrite divideByBody_spec, Hself.
Qed.

Lemma longer_operand_overruns_witness :
  multiplyWith divisor (plane "A" F32.half) = None /\
  divideBy divisor (plane "A" F32.half) = None.
Proof.
  apply (longer_operand_overruns divisor (plane "A" F32.half)).
  - apply plane_wf.
  - simpl. lia.
Defined.

(** X4 (Channel.h, [multiplyWithAsync] and [divideByAsync]).  The pool may
    run the indices of a loop in any order: whatever the schedule, a
    rearrangement of the range [[0, other.count())], the loop ends in the
    state the ascending order gives, and is undefined for the one exactly
    when it is for the other. *)
Theorem pool_order_is_immaterial (self other : Channel) (schedule : list Z) :
  schedule ≡ₚ indexRange 0 (count other) ->
  forEach (multiplyWithBody other) schedule self = multiplyWith self other /\
  forEach (divideByBody other) schedule self = divideBy self other.
Proof.
  intros Hperm. split.
  - by apply multiplyWith_any_order.
  - by apply divideBy_any_order.
Qed.

Lemma pool_order_is_immaterial_witness :
  forEach (multiplyWithBody divisor) [1; 0] dividend = multiplyWith dividend divisor /\
  forEach (divideByBody divisor) [1; 0] dividend = divideBy dividend divisor.
Proof.
  apply (pool_order_is_immaterial dividend divisor [1; 0]).
  change (indexRange 0 (count divisor)) with [0; 1]. apply perm_swap.
Defined.

(** ** Alpha operations: what they change and what they leave *)

Lemma unmultiplyAlpha_shape (d d' : ImageData) :
  unmultiplyAlpha d = Done d' ->
  Forall2 sameShape (channels d) (channels d') /\
  layers d' = layers d /\ dataWindow d' = dataWindow d /\
  displayWindow d' = displayWindow d /\ partName d' = partName d.
Proof.
  intros H. apply unmultiplyAlpha_Done in H as (_ & _ & H).
  apply (alphaOperation_shape divideBy divideBy_shape) in H
    as (Hs & Hl & Hd & Hp & _ & Hn).
  destruct d'. simpl in *. done.
Qed.

(** X5 (Image.cpp, [multiplyAlpha], [unmultiplyAlpha], [alphaOperation]).
    An alpha operation that returns has changed coefficients and the flag
    only: the image has the same channels in the same order, each with its
    name, its extent and its number of coefficients, the same layers, the
    same windows and the same part name; the flag is the opposite of what it
    was. *)
Theorem alpha_operations_keep_shape (d d' : ImageData) :
  multiplyAlpha d = Done d' \/ unmultiplyAlpha d = Done d' ->
  Forall2 sameShape (channels d) (channels d') /\
  layers d' = layers d /\ dataWindow d' = dataWindow d /\
  displayWindow d' = displayWindow d /\ partName d' = partName d /\
  hasPremultipliedAlpha d' = negb (hasPremultipliedAlpha d).
Proof.
  intros [H|H].
  - pose proof (multiplyAlpha_shape d d' H) as (Hs & Hl & Hd & Hp & Hn).
    apply multiplyAlpha_Done in H as (-> & -> & _). done.
  - pose proof (unmultiplyAlpha_shape d d' H) as (Hs & Hl & Hd & Hp & Hn).
    apply unmultiplyAlpha_Done in H as (-> & -> & _). done.
Qed.

Lemma alpha_operations_keep_shape_witness :
  exists d',
    multiplyAlpha (rgbaImage false) = Done d' /\
    Forall2 sameShape (channels (rgbaImage false)) (channels d') /\
    layers d' = layers (rgbaImage false) /\
    dataWindow d' = dataWindow (rgbaImage false) /\
    displayWindow d' = displayWindow (rgbaImage false) /\
    partName d' = partName (rgbaImage false) /\
    hasPremultipliedAlpha d' = negb (hasPremultipliedAlpha (rgbaImage false)).
Proof.
  eexists. split; [vm_compute; reflexivity|].
  apply (alpha_operations_keep_shape (rgbaImage false)).
  left. vm_compute. reflexivity.
Defined.

Lemma alphaOperation_without_alpha (func : Channel -> Channel -> option Channel)
  (ls : list string) (cs : list Channel) :
  (forall l, l ∈ ls -> hasChannel (alphaChannelName l) cs = false) ->
  forEach (alphaOperationLayer func) ls cs = Some cs.
Proof.
  induction ls as [|l ls IH]; intros H; [done|]. simpl.
  unfold alphaOperationLayer at 1. rewrite (H l) by left.
  apply IH. intros l' Hl'. apply H. by right.
Qed.

(** X6 (Image.cpp, [alphaOperation], [multiplyAlpha], [unmultiplyAlpha]).
    In an image none of whose layers has an alpha channel "A" (the root
    layer) or "layer.A", the alpha operations touch no channel: they return
    and set the flag, and nothing else of the image changes. *)
Theorem without_alpha_only_the_flag (d : ImageData) :
  (forall l, l ∈ layers d -> hasChannel (alphaChannelName l) (channels d) = false) ->
  (hasPremultipliedAlpha d = false ->
   multiplyAlpha d = Done (setHasPremultipliedAlpha true d)) /\
  (hasPremultipliedAlpha d = true ->
   unmultiplyAlpha d = Done (setHasPremultipliedAlpha false d)).
Proof.
  intros H. split; intros Hflag.
  - unfold multiplyAlpha, alphaOperation. rewrite Hflag.
    rewrite alphaOperation_without_alpha by done. by destruct d.
  - unfold unmultiplyAlpha, alphaOperation. rewrite Hflag. simpl.
    rewrite alphaOperation_without_alpha by done. by destruct d.
Qed.

Lemma without_alpha_only_the_flag_witness :
  let d := mkImageData layeredChannels ["layer1"; "layer2"]
             (boxOfSize (4, 4)) (boxOfSize (4, 4)) false "" in
  (hasPremultipliedAlpha d = false ->
   multiplyAlpha d = Done (setHasPremultipliedAlpha true d)) /\
  (hasPremultipliedAlpha d = true ->
   unmultiplyAlpha d = Done (setHasPremultipliedAlpha false d)).
Proof.
  apply (without_alpha_only_the_flag
           (mkImageData layeredChannels ["layer1"; "layer2"]
              (boxOfSize (4, 4)) (boxOfSize (4, 4)) false "")).
  intros l Hl. simpl in Hl.
  apply elem_of_cons in Hl as [->|Hl]; [vm_compute; reflexivity|].
  apply elem_of_cons in Hl as [->|Hl]; [vm_compute; reflexivity|].
  by apply elem_of_nil in Hl.
Defined.

(** *** The values an alpha operation leaves *)

Section Values.

Variable f : F32.t -> F32.t -> F32.t.
Variable func : Channel -> Channel -> option Channel.
Hypothesis func_pointwise : forall t a,
  Channel_wf a -> length (mData t) = length (mData a) ->
  func t a = Some (mkChannel (mName t) (rows t) (cols t)
                     (zip_with f (mData t) (mData a))).
Hypothesis func_shape : forall t a t', func t a = Some t' -> sameShape t t'.

Lemma alphaOperation_values (d d1 : ImageData) (k : nat) (t : Channel) :
  wellLayered d ->
  alphaOperation func d = Some d1 ->
  channels d !! k = Some t ->
  (forall l ka a,
     l ∈ layers d -> inLayer l (name t) = true -> name t <> alphaChannelName l ->
     channel (alphaChannelName l) (channels d) = Some (ka, a) ->
     channels d1 !! k
     = Some (mkChannel (mName t) (rows t) (cols t) (zip_with f (mData t) (mData a)))) /\
  ((forall l, l ∈ layers d -> inLayer l (name t) = true ->
      name t = alphaChannelName l \/
      hasChannel (alphaChannelName l) (channels d) = false) ->
   channels d1 !! k = Some t).
Proof using func_pointwise func_shape.
  intros Hwl Hrun Hk.
  pose proof (wellLayered_independent d Hwl) as Hind.
  pose proof (wellLayered_uniform d Hwl) as Hu.
  pose proof (wl_names d Hwl) as Hnd.
  rewrite (alphaOperation_combined f func d) in Hrun by done.
  injection Hrun as <-. simpl channels.
  set (cs := channels d) in *. set (ops := alphaOps (List.map name cs) (layers d)) in *.
  change (List.map ?g ?l) with (g <$> l). rewrite list_lookup_fmap, Hk. simpl.
  destruct Hind as (Htargets & Halpha & _).
  split.
  - intros l ka a Hl Hin Hne Ha. f_equal.
    pose proof (channel_Some _ _ _ _ Ha) as [Hka Hna].
    apply (combined_target f ops cs t a ka); [done| |by rewrite Hna].
    apply alphaOps_elem. exists l. split; [done|]. apply layerOps_elem.
    rewrite Hna. repeat split; try done.
    + rewrite <- Hna. apply list_elem_of_fmap. exists a.
      split; [done|]. by eapply list_elem_of_lookup_2.
    + apply list_elem_of_fmap. exists t. split; [done|]. by eapply list_elem_of_lookup_2.
  - intros Hnone. f_equal. apply combined_other.
    intros Hin. apply elem_of_targets in Hin as [a Hop].
    apply alphaOps_elem in Hop as (l & Hl & Hop).
    apply layerOps_elem in Hop as (-> & Ha & _ & Hlayer & Hne).
    destruct (Hnone l Hl Hlayer) as [Heq|Hno]; [done|].
    rewrite hasChannel_names in Hno.
    apply existsb_eqb_elem in Ha. fold cs in Hno. congruence.
Qed.

End Values.

(** X7 (Image.cpp, [alphaOperation] with [multiplyAlpha] and
    [unmultiplyAlpha]; Channel.h, [multiplyWithAsync], [divideByAsync]).
    In an image whose layers partition its channels, [multiplyAlpha]
    multiplies every channel of a layer that has an alpha channel,
    coefficient by coefficient, by that alpha channel, and [unmultiplyAlpha]
    divides it (0 where alpha is 0); the alpha channels themselves and the
    channels of layers without alpha are left as they are. *)
Theorem alpha_scales_colour_only (d d1 : ImageData) (f : F32.t -> F32.t -> F32.t)
  (k : nat) (t : Channel) :
  wellLayered d ->
  (multiplyAlpha d = Done d1 /\ f = F32.mul) \/
  (unmultiplyAlpha d = Done d1 /\ f = quotient) ->
  channels d !! k = Some t ->
  (forall l ka a,
     l ∈ layers d -> inLayer l (name t) = true -> name t <> alphaChannelName l ->
     channel (alphaChannelName l) (channels d) = Some (ka, a) ->
     channels d1 !! k
     = Some (mkChannel (mName t) (rows t) (cols t) (zip_with f (mData t) (mData a)))) /\
  ((forall l, l ∈ layers d -> inLayer l (name t) = true ->
      name t = alphaChannelName l \/
      hasChannel (alphaChannelName l) (channels d) = false) ->
   channels d1 !! k = Some t).
Proof.
  intros Hwl [[Hrun ->]|[Hrun ->]] Hk.
  - apply multiplyAlpha_Done in Hrun as (_ & _ & Hrun).
    pose proof (alphaOperation_values F32.mul multiplyWith
                  (fun t a Ha Hl => multiplyWith_pointwise t a Ha Hl)
                  multiplyWith_shape d _ k t Hwl Hrun Hk) as H.
    by destruct d1.
  - apply unmultiplyAlpha_Done in Hrun as (_ & _ & Hrun).
    pose proof (alphaOperation_values quotient divideBy
                  (fun t a Ha Hl => divideBy_pointwise t a Ha Hl)
                  divideBy_shape d _ k t Hwl Hrun Hk) as H.
    by destruct d1.
Qed.

Lemma alpha_scales_colour_only_witness :
  exists d1,
    multiplyAlpha (rgbaImage false) = Done d1 /\
    (forall l ka a,
       l ∈ layers (rgbaImage false) ->
       inLayer l (name (plane "R" F32.one)) = true ->
       name (plane "R" F32.one) <> alphaChannelName l ->
       channel (alphaChannelName l) (channels (rgbaImage false)) = Some (ka, a) ->
       channels d1 !! 0%nat
       = Some (mkChannel "R" 4 4 (zip_with F32.mul (replicate 16 F32.one) (mData a)))) /\
    ((forall l, l ∈ layers (rgbaImage false) ->
        inLayer l (name (plane "R" F32.one)) = true ->
        name (plane "R" F32.one) = alphaChannelName l \/
        hasChannel (alphaChannelName l) (channels (rgbaImage false)) = false) ->
     channels d1 !! 0%nat = Some (plane "R" F32.one)).
Proof.
  eexists. split; [vm_compute; reflexivity|].
  apply (alpha_scales_colour_only (rgbaImage false) _ F32.mul 0 (plane "R" F32.one)).
  - apply rgbaImage_wellLayered.
  - left. split; [vm_compute; reflexivity|reflexivity].
  - reflexivity.
Defined.

(** ** Validation: what [ensureValid] establishes, and how it fails *)

Lemma boxSize_boxOfSize (sz : Z * Z) : boxSize (boxOfSize sz) = sz.
Proof. destruct sz as [w h]. unfold boxSize, boxOfSize. simpl. f_equal; lia. Qed.

Lemma sameShape_size (c c' : Channel) : sameShape c c' -> size c' = size c.
Proof. intros (_ & Hr & Hc & _). unfold size. by rewrite Hr, Hc. Qed.

Lemma layerNamesOf_names (cs cs' : list Channel) :
  List.map name cs = List.map name cs' -> layerNamesOf cs = layerNamesOf cs'.
Proof.
  unfold layerNamesOf. generalize (@nil string).
  revert cs'. induction cs as [|c cs IH]; intros [|c' cs'] acc H; try done.
  simpl in *. injection H as Hc H. rewrite Hc. by apply IH.
Qed.

Lemma layerNamesOf_nonempty (c : Channel) (cs : list Channel) :
  layerNamesOf (c :: cs) <> [].
Proof.
  intros H. assert (Hin : head (name c) ∈ layerNamesOf (c :: cs)).
  { apply layerNamesOf_elem. exists c. split; [left|done]. }
  rewrite H in Hin. by apply elem_of_nil in Hin.
Qed.

Section Established.

Variable matchesFuzzy : string -> string -> option nat.

Lemma prepared_windows (sel : string) (front : Channel) (d : ImageData) :
  dataWindow (prepared matchesFuzzy sel front d)
  = (if isValid (dataWindow d) then dataWindow d else boxOfSize (size front)) /\
  displayWindow (prepared matchesFuzzy sel front d)
  = (if isValid (displayWindow d) then displayWindow d else boxOfSize (size front)) /\
  partName (prepared matchesFuzzy sel front d) = partName d.
Proof using Type.
  unfold prepared, deriveLayers, applySelector, defaultWindows.
  destruct (isValid (dataWindow d)) eqn:E1; simpl;
    destruct (isValid (displayWindow d)) eqn:E2; simpl; rewrite ?E2;
    destruct (String.eqb sel ""); simpl;
    destruct (layers d); simpl; done.
Qed.

Lemma ensureValid_post (sel : string) (d d' : ImageData) :
  ensureValid matchesFuzzy sel d = Done d' ->
  exists front rest,
    channels d = front :: rest /\
    hasPremultipliedAlpha d' = true /\
    Forall (fun c => size c = imageSize d') (channels d') /\
    dataWindow d'
    = (if isValid (dataWindow d) then dataWindow d else boxOfSize (size front)) /\
    displayWindow d'
    = (if isValid (displayWindow d) then displayWindow d else boxOfSize (size front)) /\
    layers d'
    = (match layers d with [] => layerNamesOf (channels d') | _ :: _ => layers d end) /\
    partName d' = partName d.
Proof using Type.
  intros H. apply ensureValid_Done in H as (front & rest & Hcs & Hsizes & Hflag & H).
  exists front, rest. split; [done|]. split; [done|].
  set (p := prepared matchesFuzzy sel front d) in *.
  pose proof (prepared_windows sel front d) as (Hdw & Hdisp & Hpart). fold p in Hdw, Hdisp, Hpart.
  pose proof (prepared_fields matchesFuzzy sel front d) as (Hpc & _ & Hpl). fold p in Hpc, Hpl.
  assert (Hp : Forall (fun c => size c = imageSize p) (channels p)).
  { unfold imageSize. rewrite Hdw.
    unfold sizesAgree in Hsizes. rewrite Hcs in Hsizes. rewrite <- Hcs in Hsizes.
    assert (Hall : Forall (fun c => size c
                     = boxSize (if isValid (dataWindow d) then dataWindow d
                                else boxOfSize (size front))) (channels d)).
    { eapply Forall_impl; [exact Hsizes|]. intros c Hc. simpl in Hc.
      destruct (isValid (dataWindow d)); [done|]. by rewrite boxSize_boxOfSize. }
    rewrite Hpc. destruct (String.eqb sel ""); [done|].
    apply Forall_forall. intros c Hc.
    apply selectChannels_subset in Hc.
    by apply (proj1 (Forall_forall _ _) Hall). }
  destruct (hasPremultipliedAlpha d) eqn:Hd.
  - subst d'. done.
  - pose proof (multiplyAlpha_shape p d' H) as (Hs & Hl & Hw & Hw' & Hn).
    assert (Hnames : List.map name (channels p) = List.map name (channels d'))
      by (by apply Forall2_sameShape_names).
    split; [|split; [congruence|split; [congruence|split; [|congruence]]]].
    + unfold imageSize in *. rewrite Hw.
      clear - Hs Hp. induction Hs as [|c c' cs cs' Hc Hs IH]; [done|].
      apply Forall_cons in Hp as [Hp1 Hp2].
      constructor; [|by apply IH]. by rewrite (sameShape_size c c').
    + rewrite Hl, Hpl. destruct (layers d); [|done]. by apply layerNamesOf_names.
Qed.

(** X8 (Image.cpp, [ImageData::ensureValid]).  What holds of an image when
    [ensureValid] has returned: the flag says premultiplied; every channel
    has the size of the data window; a window that was valid is kept, and
    one that was not is the rectangle from the origin to the size of the
    first channel; layers given by the producer are kept, and otherwise the
    layers are those derived from the channels that remain; the part name is
    kept. *)
Theorem ensureValid_establishes (sel : string) (d d' : ImageData) :
  ensureValid matchesFuzzy sel d = Done d' ->
  exists front rest,
    channels d = front :: rest /\
    hasPremultipliedAlpha d' = true /\
    Forall (fun c => size c = imageSize d') (channels d') /\
    dataWindow d'
    = (if isValid (dataWindow d) then dataWindow d else boxOfSize (size front)) /\
    displayWindow d'
    = (if isValid (displayWindow d) then displayWindow d else boxOfSize (size front)) /\
    layers d'
    = (match layers d with [] => layerNamesOf (channels d') | _ :: _ => layers d end) /\
    partName d' = partName d.
Proof using Type. apply ensureValid_post. Qed.

(** X9 (Image.cpp, [ImageData::ensureValid]).  Validation is idempotent:
    on an image it has returned, with a channel left, a second run without
    a selector returns the very same image. *)
Theorem ensureValid_idempotent (sel : string) (d d' : ImageData) :
  ensureValid matchesFuzzy sel d = Done d' ->
  channels d' <> [] ->
  ensureValid matchesFuzzy "" d' = Done d'.
Proof using Type.
  intros H Hne.
  pose proof (ensureValid_post sel d d' H)
    as (front & rest & Hcs & Hflag & Hsz & Hdw & Hdisp & Hl & _).
  apply ensureValid_Done in H as (front0 & rest0 & Hcs0 & Hsizes & _).
  rewrite Hcs in Hcs0. injection Hcs0 as <- <-.
  assert (Hfront : imageSize d' = size front).
  { unfold imageSize. rewrite Hdw. unfold sizesAgree in Hsizes. rewrite Hcs in Hsizes.
    apply Forall_cons in Hsizes as [Hsizes _].
    destruct (isValid (dataWindow d)); [done|]. by rewrite boxSize_boxOfSize. }
  destruct (channels d') as [|front' rest'] eqn:Hcs'; [done|].
  assert (Hfront' : size front' = size front).
  { apply Forall_cons in Hsz as [Hsz _]. congruence. }
  rewrite (ensureValid_checks_pass matchesFuzzy "" front' rest' d' Hcs').
  2:{ unfold sizesAgree. rewrite Hcs'.
      eapply Forall_impl; [exact Hsz|]. intros c Hc. simpl in Hc.
      destruct (isValid (dataWindow d')); [done|]. congruence. }
  assert (Hp : prepared matchesFuzzy "" front' d' = d').
  { unfold prepared, applySelector, defaultWindows. simpl.
    assert (Hlayers : layers d' <> []).
    { rewrite Hl. destruct (layers d); [|done]. apply layerNamesOf_nonempty. }
    rewrite Hfront'.
    assert (H1 : (if isValid (dataWindow d') then d'
                  else setDataWindow (boxOfSize (size front)) d') = d').
    { destruct (isValid (dataWindow d')) eqn:E; [done|].
      destruct (isValid (dataWindow d)) eqn:E'; [rewrite Hdw in E; congruence|].
      destruct d'. simpl in *. by subst. }
    rewrite H1.
    assert (H2 : (if isValid (displayWindow d') then d'
                  else setDisplayWindow (boxOfSize (size front)) d') = d').
    { destruct (isValid (displayWindow d')) eqn:E; [done|].
      destruct (isValid (displayWindow d)) eqn:E'; [rewrite Hdisp in E; congruence|].
      destruct d'. simpl in *. by subst. }
    rewrite H2. unfold deriveLayers. by destruct (layers d'). }
  simpl. rewrite Hp, Hflag. done.
Qed.

Lemma find_first {A : Type} (p : A -> bool) (l : list A) (x : A) :
  List.find p l = Some x ->
  exists pre post, l = pre ++ x :: post /\ Forall (fun y => p y = false) pre /\ p x = true.
Proof using Type.
  induction l as [|y l IH]; [done|]. simpl. destruct (p y) eqn:E.
  - intros [= ->]. by exists [], l.
  - intros H. destruct (IH H) as (pre & post & -> & Hpre & Hx).
    exists (y :: pre), post. split; [done|]. split; [by constructor|done].
Qed.

(** X10 (Image.cpp, [ImageData::ensureValid]).  [ensureValid] throws for
    two reasons only.  For an image without channels it throws "Images must
    have at least one channel." and has changed nothing.  Otherwise it
    throws only for the first channel, in list order, whose size is not the
    size of the data window; by then it has defaulted the windows and done
    nothing else: no channel was selected away and no layer derived.  The
    assertion on the flag at its end and the guard of [multiplyAlpha] never
    fire. *)
Theorem ensureValid_raises_only (sel : string) (d d1 : ImageData) (e : exception) :
  ensureValid matchesFuzzy sel d = Raised e d1 ->
  (channels d = [] /\ d1 = d /\
   e = runtime_error "Images must have at least one channel." []) \/
  (exists front rest pre c post,
     channels d = front :: rest /\
     d1 = defaultWindows front d /\
     channels d = pre ++ c :: post /\
     Forall (fun c' => size c' = imageSize d1) pre /\
     size c <> imageSize d1 /\
     e = sizeMismatch c d1).
Proof using Type.
  unfold ensureValid. destruct (channels d) as [|front rest] eqn:Hcs.
  - intros [= <- <-]. by left.
  - set (d0 := defaultWindows front d).
    destruct (List.find _ (channels d0)) as [c|] eqn:Hfind.
    + intros [= <- <-]. right.
      pose proof (defaultWindows_fields front d) as (Hc0 & _). fold d0 in Hc0.
      rewrite Hc0, Hcs in Hfind.
      apply find_first in Hfind as (pre & post & Hsplit & Hpre & Hc).
      exists front, rest, pre, c, post. repeat split; try done.
      * eapply Forall_impl; [exact Hpre|]. intros c' Hc'. simpl in Hc'.
        apply negb_false_iff in Hc'. by apply size_eqb_eq.
      * intros Heq. apply size_eqb_eq in Heq. rewrite Heq in Hc. done.
    + set (p := deriveLayers (applySelector matchesFuzzy sel d0)).
      destruct (hasPremultipliedAlpha p) eqn:Hp; [by rewrite Hp|].
      unfold multiplyAlpha. rewrite Hp.
      by destruct (alphaOperation multiplyWith p).
Qed.

(** X11 (Image.cpp, [ImageData::ensureValid]).  On channels that are
    matrices, [ensureValid] returns exactly when the image has a channel and
    every channel has the size of the data window (of the first channel,
    where the data window is not valid); the selector, the layers and the
    flag have no part in that. *)
Theorem ensureValid_returns_iff (sel : string) (d : ImageData) :
  Forall Channel_wf (channels d) ->
  (exists d', ensureValid matchesFuzzy sel d = Done d') <->
  channels d <> [] /\ sizesAgree d.
Proof using Type.
  intros Hwf. split.
  - intros [d' H]. apply ensureValid_Done in H as (front & rest & Hcs & Hs & _).
    split; [by rewrite Hcs|done].
  - intros [Hne Hs]. by apply ensureValid_returns.
Qed.

(** X12 (Image.cpp, [ImageData::ensureValid], the block under
    [if (layers.empty())]).  When the producer gave no layers, the layers
    of a validated image are the heads of the names of its channels, those
    left after selection: every head once, in ascending order of
    [std::string]. *)
Theorem ensureValid_derives_layers (sel : string) (d d' : ImageData) :
  layers d = [] ->
  ensureValid matchesFuzzy sel d = Done d' ->
  (forall l, l ∈ layers d' <-> exists c, c ∈ channels d' /\ head (name c) = l) /\
  NoDup (layers d') /\
  StronglySorted string_lt (layers d').
Proof using Type.
  intros Hl H.
  apply ensureValid_post in H as (_ & _ & _ & _ & _ & _ & _ & Hlayers & _).
  rewrite Hl in Hlayers. rewrite Hlayers. split; [|split].
  - intros l. apply layerNamesOf_elem.
  - apply layerNamesOf_NoDup.
  - apply layerNamesOf_sorted.
Qed.

End Established.

Lemma ensureValid_establishes_witness :
  exists d' front rest,
    ensureValid matchesTail "R"
      (mkImageData layeredChannels [] noWindow noWindow true "") = Done d' /\
    layeredChannels = front :: rest /\
    hasPremultipliedAlpha d' = true /\
    Forall (fun c => size c = imageSize d') (channels d') /\
    dataWindow d' = boxOfSize (size front) /\
    displayWindow d' = boxOfSize (size front) /\
    layers d' = layerNamesOf (channels d') /\
    partName d' = "".
Proof.
  eexists.
  destruct (ensureValid_establishes matchesTail "R"
              (mkImageData layeredChannels [] noWindow noWindow true "") _ eq_refl)
    as (front & rest & H).
  exists front, rest. split; [reflexivity|]. exact H.
Defined.

Lemma ensureValid_idempotent_witness :
  exists d',
    ensureValid matchesTail "R"
      (mkImageData layeredChannels [] noWindow noWindow false "") = Done d' /\
    ensureValid matchesTail "" d' = Done d'.
Proof.
  eexists. split; [vm_compute; reflexivity|].
  apply (ensureValid_idempotent matchesTail "R"
           (mkImageData layeredChannels [] noWindow noWindow false "")).
  - vm_compute. reflexivity.
  - discriminate.
Defined.

Lemma ensureValid_raises_only_witness :
  let d := mkImageData [plane "R" F32.one; plane "G" F32.one; divisor] []
             noWindow noWindow false "" in
  let d1 := defaultWindows (plane "R" F32.one) d in
  ensureValid matchesTail "" d = Raised (sizeMismatch divisor d1) d1 /\
  ((channels d = [] /\ d1 = d /\
    sizeMismatch divisor d1
    = runtime_error "Images must have at least one channel." []) \/
   (exists front rest pre c post,
      channels d = front :: rest /\
      d1 = defaultWindows front d /\
      channels d = pre ++ c :: post /\
      Forall (fun c' => size c' = imageSize d1) pre /\
      size c <> imageSize d1 /\
      sizeMismatch divisor d1 = sizeMismatch c d1)).
Proof.
  split; [vm_compute; reflexivity|].
  apply (ensureValid_raises_only matchesTail ""
           (mkImageData [plane "R" F32.one; plane "G" F32.one; divisor] []
              noWindow noWindow false "")).
  vm_compute. reflexivity.
Defined.

Lemma ensureValid_returns_iff_witness :
  (exists d', ensureValid matchesTail "" (rgbaImage false) = Done d') <->
  channels (rgbaImage false) <> [] /\ sizesAgree (rgbaImage false).
Proof.
  apply (ensureValid_returns_iff matchesTail "" (rgbaImage false)).
  repeat constructor; apply plane_wf.
Defined.

Lemma ensureValid_derives_layers_witness :
  exists d',
    ensureValid matchesTail ""
      (mkImageData layeredChannels [] noWindow noWindow true "") = Done d' /\
    layers d' = ["layer1"; "layer2"] /\
    (forall l, l ∈ layers d' <-> exists c, c ∈ channels d' /\ head (name c) = l) /\
    NoDup (layers d') /\
    StronglySorted string_lt (layers d').
Proof.
  eexists. split; [vm_compute; reflexivity|]. split; [reflexivity|].
  apply (ensureValid_derives_layers matchesTail ""
           (mkImageData layeredChannels [] noWindow noWindow true "")).
  - reflexivity.
  - vm_compute. reflexivity.
Defined.

(** ** Channel groups: what [getGroupedChannels] covers *)

Lemma erase_first_elem (n x : string) (l : list string) :
  x ∈ erase_first n l -> x ∈ l.
Proof.
  induction l as [|y l IH]; [done|]. simpl. destruct (String.eqb n y).
  - by right.
  - intros [->|H]%elem_of_cons; [left|right; by apply IH].
Qed.

Lemma erase_first_cover (n x : string) (l : list string) :
  x ∈ l -> x = n \/ x ∈ erase_first n l.
Proof.
  induction l as [|y l IH]; [by intros ?%elem_of_nil|].
  simpl. destruct (String.eqb n y) eqn:E.
  - apply String.eqb_eq in E as ->. intros [->|H]%elem_of_cons; [by left|by right].
  - intros [->|H]%elem_of_cons; [right; left|].
    destruct (IH H) as [->|H']; [by left|right; by right].
Qed.

Lemma takeGroup_elem (prefix : string) (group pool : list string) (x : string) :
  (x ∈ fst (takeGroup prefix group pool) -> x ∈ pool) /\
  (x ∈ snd (takeGroup prefix group pool) -> x ∈ pool) /\
  (x ∈ pool -> x ∈ fst (takeGroup prefix group pool) \/
               x ∈ snd (takeGroup prefix group pool)).
Proof.
  revert pool. induction group as [|chan group IH]; intros pool; simpl.
  - split; [by intros ?%elem_of_nil|]. split; [done|by right].
  - destruct (found (prefix +:+ chan) pool) eqn:Hf; [|apply IH].
    specialize (IH (erase_first (prefix +:+ chan) pool)).
    destruct (takeGroup prefix group (erase_first (prefix +:+ chan) pool)) as [g pool'].
    simpl in *. destruct IH as (IH1 & IH2 & IH3).
    split; [|split].
    + intros [->|H]%elem_of_cons; [by apply existsb_eqb_elem|].
      eapply erase_first_elem; eauto.
    + intros H. eapply erase_first_elem; eauto.
    + intros H. destruct (erase_first_cover (prefix +:+ chan) x pool H) as [->|H'].
      * left. left.
      * destruct (IH3 H'); [left; by right|by right].
Qed.

Lemma takeGroup_length (prefix : string) (group pool : list string) :
  (length (fst (takeGroup prefix group pool)) <= length group)%nat.
Proof.
  revert pool. induction group as [|chan group IH]; intros pool; simpl; [done|].
  destruct (found (prefix +:+ chan) pool).
  - specialize (IH (erase_first (prefix +:+ chan) pool)).
    destruct (takeGroup prefix group _) as [g pool']. simpl in *. lia.
  - specialize (IH pool). lia.
Qed.

Lemma createChannelGroup_members (layer n : string) (members : list string) :
  exists nm, createChannelGroup layer (n :: members) = Ok (ChannelGroup.mk nm (n :: members)).
Proof. unfold createChannelGroup. eauto. Qed.

Lemma madeFrom_mono (layer : string) (hasAlpha : bool) (pool pool' : list string)
  (g : ChannelGroup.t) :
  (forall x, x ∈ pool -> x ∈ pool') ->
  madeFrom layer hasAlpha pool g -> madeFrom layer hasAlpha pool' g.
Proof.
  intros Hsub (Hlen & Hin & n & Hn & Hn'). split; [done|]. split.
  - intros x Hx. destruct (Hin x Hx); [left; auto|by right].
  - exists n. auto.
Qed.

Lemma groups_short : Forall (fun group : list string => (length group <= 3)%nat) groups.
Proof. unfold groups. repeat constructor. Qed.

Lemma matchGroups_spec (layer : string) (hasAlpha : bool) (gs : list (list string))
  (pool : list string) (result : list ChannelGroup.t) :
  Forall (fun group : list string => (length group <= 3)%nat) gs ->
  exists pool' new,
    matchGroups layer hasAlpha gs pool result = Ok (pool', result ++ new) /\
    (forall x, x ∈ pool' -> x ∈ pool) /\
    (forall x, x ∈ pool ->
       x ∈ pool' \/ exists g, g ∈ new /\ x ∈ ChannelGroup.channels g) /\
    Forall (madeFrom layer hasAlpha pool) new.
Proof.
  intros Hgs. revert pool result.
  induction Hgs as [|group gs Hgroup _ IH]; intros pool result; simpl.
  - exists pool, []. rewrite app_nil_r. repeat split; auto.
  - pose proof (takeGroup_elem (layerPrefix layer) group pool) as Helem.
    pose proof (takeGroup_length (layerPrefix layer) group pool) as Hlen.
    destruct (takeGroup (layerPrefix layer) group pool) as [gc pool1]. simpl in *.
    pose proof (fun x => proj1 (Helem x)) as Hfst.
    pose proof (fun x => proj1 (proj2 (Helem x))) as Hsnd.
    pose proof (fun x => proj2 (proj2 (Helem x))) as Hcover. clear Helem.
    destruct gc as [|n gc].
    + destruct (IH pool1 result) as (pool' & new & -> & Hsub & Hcov & Hmade).
      exists pool', new. split; [done|]. split; [|split].
      * intros x Hx. apply Hsnd, Hsub, Hx.
      * intros x Hx. destruct (Hcover x Hx) as [H|H];
          [by apply elem_of_nil in H|auto].
      * eapply Forall_impl; [exact Hmade|]. intros g. apply madeFrom_mono.
        intros x. apply Hsnd.
    + set (tripled := if (length (n :: gc) =? 1)%nat then (n :: gc) ++ [n; n] else n :: gc).
      set (members := if hasAlpha then tripled ++ [alphaChannelName layer] else tripled).
      assert (Htripled : exists rest, tripled = n :: rest /\
                (2 <= length tripled <= 3)%nat /\
                forall x, x ∈ tripled <-> x ∈ n :: gc).
      { unfold tripled. destruct gc as [|n' gc]; simpl.
        - exists [n; n]. split; [done|]. split; [simpl; lia|].
          intros x. rewrite !elem_of_cons. rewrite elem_of_nil. tauto.
        - exists (n' :: gc). split; [done|]. simpl in Hlen. split; [simpl; lia|done]. }
      destruct Htripled as (rest & Htr & Htlen & Htin).
      assert (Hmem : exists rest', members = n :: rest').
      { unfold members. rewrite Htr. destruct hasAlpha; simpl; eauto. }
      destruct Hmem as (rest' & Hmem).
      destruct (createChannelGroup_members layer n rest') as [nm Hg].
      rewrite Hmem, Hg.
      destruct (IH pool1 (result ++ [ChannelGroup.mk nm (n :: rest')]))
        as (pool' & new & -> & Hsub & Hcov & Hmade).
      exists pool', (ChannelGroup.mk nm (n :: rest') :: new).
      split; [by rewrite <- app_assoc|]. split; [|split].
      * intros x Hx. apply Hsnd, Hsub, Hx.
      * intros x Hx. destruct (Hcover x Hx) as [H|H].
        -- right. exists (ChannelGroup.mk nm (n :: rest')). split; [left|].
           simpl. rewrite <- Hmem. unfold members.
           destruct hasAlpha; [apply elem_of_app; left|]; by apply Htin.
        -- destruct (Hcov x H) as [H'|(g & Hg' & Hx')]; [by left|].
           right. exists g. split; [by right|done].
      * constructor.
        -- unfold madeFrom. cbn [ChannelGroup.channels]. rewrite <- Hmem. unfold members.
           split; [|split].
           ++ destruct hasAlpha; [rewrite length_app; simpl; lia|lia].
           ++ intros x Hx. destruct hasAlpha.
              ** apply elem_of_app in Hx as [Hx|Hx].
                 --- left. apply Hfst. by apply Htin.
                 --- right. apply list_elem_of_singleton in Hx. done.
              ** left. apply Hfst. by apply Htin.
           ++ exists n. split.
              ** destruct hasAlpha; [apply elem_of_app; left|]; apply Htin; left.
              ** apply Hfst. left.
        -- eapply Forall_impl; [exact Hmade|]. intros g. apply madeFrom_mono.
           intros x. apply Hsnd.
Qed.

Lemma singleGroups_spec (layer : string) (hasAlpha : bool) (pool : list string)
  (result : list ChannelGroup.t) :
  exists new,
    singleGroups layer hasAlpha pool result = Ok (result ++ new) /\
    (forall x, x ∈ pool -> exists g, g ∈ new /\ x ∈ ChannelGroup.channels g) /\
    Forall (madeFrom layer hasAlpha pool) new.
Proof.
  revert result. induction pool as [|n pool IH]; intros result; simpl.
  - exists []. rewrite app_nil_r. split; [done|]. split; [|done].
    by intros x ?%elem_of_nil.
  - set (members := if hasAlpha then [n; n; n; alphaChannelName layer] else [n; n; n]).
    assert (Hmem : exists rest', members = n :: rest')
      by (unfold members; destruct hasAlpha; eauto).
    destruct Hmem as (rest' & Hmem).
    destruct (createChannelGroup_members layer n rest') as [nm Hg].
    rewrite Hmem, Hg.
    destruct (IH (result ++ [ChannelGroup.mk nm (n :: rest')])) as (new & -> & Hcov & Hmade).
    exists (ChannelGroup.mk nm (n :: rest') :: new).
    split; [by rewrite <- app_assoc|]. split.
    + intros x [->|Hx]%elem_of_cons.
      * exists (ChannelGroup.mk nm (n :: rest')). split; [left|]. simpl. left.
      * destruct (Hcov x Hx) as (g & Hg' & Hx'). exists g. split; [by right|done].
    + constructor.
      * unfold madeFrom. cbn [ChannelGroup.channels]. rewrite <- Hmem. unfold members.
           split; [|split].
        -- destruct hasAlpha; simpl; lia.
        -- intros x Hx. destruct hasAlpha.
           ++ rewrite !elem_of_cons in Hx.
              destruct Hx as [->|[->|[->|[->|Hx]]]];
                [left; left|left; left|left; left|by right|by apply elem_of_nil in Hx].
           ++ rewrite !elem_of_cons in Hx.
              destruct Hx as [->|[->|[->|Hx]]];
                [left; left|left; left|left; left|by apply elem_of_nil in Hx].
        -- exists n. split; [|left]. destruct hasAlpha; left.
      * eapply Forall_impl; [exact Hmade|]. intros g. apply madeFrom_mono.
        intros x Hx. by right.
Qed.

Lemma matchGroups_nothing (layer : string) (hasAlpha : bool) (gs : list (list string))
  (result : list ChannelGroup.t) :
  matchGroups layer hasAlpha gs [] result = Ok ([], result).
Proof.
  induction gs as [|group gs IH]; [done|]. simpl.
  assert (H : takeGroup (layerPrefix layer) group [] = ([], [])).
  { clear. induction group as [|chan group IH]; [done|]. simpl. exact IH. }
  by rewrite H.
Qed.

Lemma groupChannels_spec (layer : string) (names : list string) :
  match groupChannels layer names with
  | Ok gs =>
      names <> [] /\ gs <> [] /\
      Forall (madeFrom layer (found (alphaChannelName layer) names) names) gs /\
      (forall x, x ∈ names -> exists g, g ∈ gs /\ x ∈ ChannelGroup.channels g)
  | Throw e =>
      names = [] /\ e = runtime_error "Images with no channels should never exist." []
  end.
Proof.
  destruct names as [|n0 names0].
  { unfold groupChannels. cbn [found existsb]. cbv iota.
    rewrite matchGroups_nothing. simpl. done. }
  set (names := n0 :: names0).
  pose proof (groupChannels_groupOK layer names) as HOK.
  unfold groupChannels in *.
  set (a := alphaChannelName layer) in *.
  set (hasAlpha := found a names) in *.
  set (pool0 := if hasAlpha then erase_first a names else names) in *.
  assert (Hpool0 : forall x, x ∈ pool0 -> x ∈ names).
  { intros x. unfold pool0. destruct hasAlpha; [apply erase_first_elem|done]. }
  destruct (matchGroups_spec layer hasAlpha groups pool0 [] groups_short)
    as (pool1 & new1 & Hm & Hsub1 & Hcov1 & Hmade1).
  rewrite Hm in *. simpl app in *.
  destruct (singleGroups_spec layer hasAlpha pool1 new1) as (new2 & Hs & Hcov2 & Hmade2).
  rewrite Hs in *.
  assert (Hmade : Forall (madeFrom layer hasAlpha names) (new1 ++ new2)).
  { apply Forall_app. split.
    - eapply Forall_impl; [exact Hmade1|]. intros g. by apply madeFrom_mono.
    - eapply Forall_impl; [exact Hmade2|]. intros g. apply madeFrom_mono. auto. }
  assert (Hcov : forall x, x ∈ pool0 ->
            exists g, g ∈ new1 ++ new2 /\ x ∈ ChannelGroup.channels g).
  { intros x Hx. destruct (Hcov1 x Hx) as [H|(g & Hg & H)].
    - destruct (Hcov2 x H) as (g & Hg & H'). exists g. split; [|done].
      apply elem_of_app. by right.
    - exists g. split; [|done]. apply elem_of_app. by left. }
  destruct (hasAlpha && (length (new1 ++ new2) =? 0)%nat) eqn:Hcase.
  - apply andb_true_iff in Hcase as [Halpha Hlen].
    apply Nat.eqb_eq in Hlen. apply length_zero_iff_nil in Hlen.
    rewrite Hlen in *.
    destruct (createChannelGroup_members layer a [a; a]) as [nm Hg]. rewrite Hg in *.
    cbn [app]. split; [done|]. split; [done|].
    assert (Ha : a ∈ names) by (by apply existsb_eqb_elem).
    split.
    + apply Forall_singleton. unfold madeFrom. rewrite Halpha. simpl.
      split; [lia|]. split.
      * intros x Hx. rewrite !elem_of_cons in Hx.
        destruct Hx as [->|[->|[->|Hx]]]; try by left. by apply elem_of_nil in Hx.
      * exists a. split; [left|done].
    + intros x Hx. exists (ChannelGroup.mk nm [a; a; a]). split; [left|]. simpl.
      fold hasAlpha in Hcov. unfold pool0 in Hcov. rewrite Halpha in Hcov.
      destruct (erase_first_cover a x names Hx) as [->|Hx']; [left|].
      destruct (Hcov x Hx') as (g & Hg' & _). by apply elem_of_nil in Hg'.
  - destruct (new1 ++ new2) as [|g gs] eqn:Hgs.
    + exfalso. destruct hasAlpha eqn:Halpha; [done|].
      unfold pool0 in Hcov. destruct (Hcov n0) as (g & Hg & _); [left|].
      by apply elem_of_nil in Hg.
    + split; [done|]. split; [done|]. split; [done|].
      intros x Hx. unfold pool0 in Hcov. destruct hasAlpha eqn:Halpha; [|by apply Hcov].
      destruct (erase_first_cover a x names Hx) as [->|Hx']; [|by apply Hcov].
      exists g. split; [left|].
      specialize (HOK (g :: gs) eq_refl).
      apply Forall_cons in HOK as [[_ Hlast] _].
      specialize (Hlast eq_refl). apply last_Some in Hlast as [l' ->].
      apply elem_of_app. right. left.
Qed.

Lemma grouping_fails (mData : ImageData) (layerName : string) :
  match getGroupedChannels mData layerName with
  | Ok gs => gs <> [] /\ channelsInLayer layerName (channels mData) <> []
  | Throw e =>
      e = runtime_error "Images with no channels should never exist." [] /\
      channelsInLayer layerName (channels mData) = []
  end.
Proof.
  unfold getGroupedChannels.
  pose proof (groupChannels_spec layerName (channelsInLayer layerName (channels mData))) as H.
  destruct (groupChannels _ _) as [gs|e].
  - by destruct H as (? & ? & _).
  - by destruct H.
Qed.

(** X13 (Image.cpp, [Image::getGroupedChannels]).  [getGroupedChannels]
    fails for one reason only: it throws "Images with no channels should
    never exist." exactly when the layer has no channel, and otherwise it
    returns at least one group; the assertion in [createChannelGroup] never
    fires. *)
Theorem grouping_fails_only_without_channels (mData : ImageData) (layerName : string) :
  match getGroupedChannels mData layerName with
  | Ok gs => gs <> [] /\ channelsInLayer layerName (channels mData) <> []
  | Throw e =>
      e = runtime_error "Images with no channels should never exist." [] /\
      channelsInLayer layerName (channels mData) = []
  end.
Proof. apply grouping_fails. Qed.

(** The groups of a layer and its channels have the same names. *)
Lemma getGroupedChannels_cover (mData : ImageData) (layerName : string)
  (gs : list ChannelGroup.t) (n : string) :
  getGroupedChannels mData layerName = Ok gs ->
  n ∈ channelsInLayer layerName (channels mData) <->
  exists g, g ∈ gs /\ n ∈ ChannelGroup.channels g.
Proof.
  unfold getGroupedChannels. intros Hgs.
  pose proof (groupChannels_spec layerName (channelsInLayer layerName (channels mData))) as H.
  rewrite Hgs in H. destruct H as (_ & _ & Hmade & Hcov). split; [apply Hcov|].
  intros (g & Hg & Hn). rewrite Forall_forall in Hmade.
  destruct (Hmade g Hg) as (_ & Hin & _).
  destruct (Hin n Hn) as [H|[Ha ->]]; [done|]. by apply existsb_eqb_elem.
Qed.

(** X14 (Image.cpp, [Image::getGroupedChannels]).  Grouping loses no
    channel and invents none: a name is a member of one of the groups of a
    layer exactly when it is the name of a channel of that layer. *)
Theorem grouping_covers_the_layer (mData : ImageData) (layerName : string)
  (gs : list ChannelGroup.t) (n : string) :
  getGroupedChannels mData layerName = Ok gs ->
  n ∈ channelsInLayer layerName (channels mData) <->
  exists g, g ∈ gs /\ n ∈ ChannelGroup.channels g.
Proof. apply getGroupedChannels_cover. Qed.

(** X15 (Image.cpp, [Image::getGroupedChannels]).  Every group fits the
    four components of a texture.  In a layer with an alpha channel a group
    has three or four members and the alpha channel is the last of them; in
    a layer without one a group has two or three members, and the name the
    alpha channel would have is not among them. *)
Theorem groups_fit_four_components (mData : ImageData) (layerName : string)
  (gs : list ChannelGroup.t) (g : ChannelGroup.t) :
  getGroupedChannels mData layerName = Ok gs ->
  g ∈ gs ->
  if found (alphaChannelName layerName) (channelsInLayer layerName (channels mData))
  then (3 <= length (ChannelGroup.channels g) <= 4)%nat /\
       last (ChannelGroup.channels g) = Some (alphaChannelName layerName)
  else (2 <= length (ChannelGroup.channels g) <= 3)%nat /\
       alphaChannelName layerName ∉ ChannelGroup.channels g.
Proof.
  intros Hgs Hg.
  pose proof (alpha_is_last_member mData layerName gs g Hgs Hg) as Hlast.
  unfold getGroupedChannels in Hgs.
  pose proof (groupChannels_spec layerName (channelsInLayer layerName (channels mData))) as H.
  rewrite Hgs in H. destruct H as (_ & _ & Hmade & _).
  rewrite Forall_forall in Hmade. destruct (Hmade g Hg) as (Hlen & Hin & _).
  destruct (found _ _) eqn:Halpha.
  - split; [done|]. by apply Hlast.
  - split; [done|]. intros Ha. destruct (Hin _ Ha) as [H|[? _]]; [|done].
    apply existsb_eqb_elem in H. unfold found in Halpha. congruence.
Qed.

Lemma grouping_covers_the_layer_witness :
  "A" ∈ channelsInLayer "" (channels (rgbaImage true)) <->
  exists g, g ∈ [ChannelGroup.mk "R,G,B,A" ["R"; "G"; "B"; "A"]] /\
            "A" ∈ ChannelGroup.channels g.
Proof.
  apply (grouping_covers_the_layer (rgbaImage true) "" _ "A"). reflexivity.
Defined.

Lemma groups_fit_four_components_witness :
  (3 <= length ["R"; "G"; "B"; "A"] <= 4)%nat /\
  last ["R"; "G"; "B"; "A"] = Some "A".
Proof.
  apply (groups_fit_four_components (rgbaImage true) ""
           [ChannelGroup.mk "R,G,B,A" ["R"; "G"; "B"; "A"]]
           (ChannelGroup.mk "R,G,B,A" ["R"; "G"; "B"; "A"])).
  - reflexivity.
  - left.
Defined.

(** ** The image: sorted channels, channel groups, short name *)

Lemma elem_of_concat {A : Type} (x : A) (ls : list (list A)) :
  x ∈ concat ls <-> exists l, l ∈ ls /\ x ∈ l.
Proof.
  rewrite list_elem_of_In, in_concat. split; intros (l & H1 & H2); exists l.
  - by rewrite !list_elem_of_In.
  - by rewrite <- !list_elem_of_In.
Qed.

Lemma sortGroups_flat (a : string) (gs : list ChannelGroup.t) (st : bool * list string) :
  sortGroups a gs st = sortMembers a (concat (List.map ChannelGroup.channels gs)) st.
Proof.
  revert st. induction gs as [|g gs IH]; intros st; [done|]. simpl.
  rewrite IH. generalize (concat (List.map ChannelGroup.channels gs)) as tl.
  generalize (ChannelGroup.channels g) as ms. clear.
  intros ms. revert st. induction ms as [|n ms IH]; intros [b r] tl; [done|]. simpl.
  destruct (String.eqb n a); [destruct b|]; apply IH.
Qed.

(** The inner loop keeps every name but the repeated alpha channel: with
    the flag telling whether alpha is in the result already, it ends with
    the names it met added, and alpha once in all. *)
Lemma sortMembers_spec (a : string) (ms : list string) (b : bool) (r : list string) :
  length (List.filter (String.eqb a) r) = (if b then 1 else 0)%nat ->
  let st := sortMembers a ms (b, r) in
  fst st = b || found a ms /\
  length (List.filter (String.eqb a) (snd st)) = (if fst st then 1 else 0)%nat /\
  (forall n, n ∈ snd st <-> n ∈ r \/ n ∈ ms).
Proof.
  revert b r. induction ms as [|n ms IH]; intros b r Hcount; simpl.
  - rewrite orb_false_r. split; [done|]. split; [done|].
    intros n. rewrite elem_of_nil. tauto.
  - assert (Hin : b = true -> a ∈ r).
    { intros ->. destruct (List.filter (String.eqb a) r) as [|x l] eqn:E; [done|].
      assert (Hx : x ∈ List.filter (String.eqb a) r) by (rewrite E; left).
      apply list_elem_of_In, filter_In in Hx as [Hx Hax].
      apply String.eqb_eq in Hax as ->. by apply list_elem_of_In. }
    rewrite (String.eqb_sym a n).
    destruct (String.eqb n a) eqn:E.
    + apply String.eqb_eq in E as ->. destruct b.
      * destruct (IH true r Hcount) as (H1 & H2 & H3). simpl in *.
        split; [done|]. split; [done|].
        intros n. rewrite H3, elem_of_cons. specialize (Hin eq_refl).
        split; [tauto|]. intros [?|[->|?]]; tauto.
      * destruct (IH true (r ++ [a])) as (H1 & H2 & H3).
        { rewrite List.filter_app, length_app, Hcount. simpl.
          by rewrite String.eqb_refl. }
        simpl in *. split; [by rewrite H1|]. split; [done|].
        intros n. rewrite H3, elem_of_app, list_elem_of_singleton, elem_of_cons. tauto.
    + destruct (IH b (r ++ [n])) as (H1 & H2 & H3).
      { rewrite List.filter_app, length_app, Hcount. simpl.
        rewrite (String.eqb_sym a n), E. simpl. lia. }
      simpl in *. split; [done|]. split; [done|].
      intros x. rewrite H3, elem_of_app, list_elem_of_singleton, elem_of_cons. tauto.
Qed.

(** X16 (Image.cpp, [Image::getSortedChannels]).  The sorted channels of a
    layer are the channels of that layer and no others, and the alpha
    channel of the layer is listed once where the layer has one, however
    many groups end in it. *)
Theorem sorted_channels_list_alpha_once (img : Image.t) (layerName : string)
  (ns : list string) :
  Image.getSortedChannels img layerName = Ok ns ->
  (forall n, n ∈ ns <-> n ∈ channelsInLayer layerName (channels (Image.mData img))) /\
  length (List.filter (String.eqb (alphaChannelName layerName)) ns)
  = (if found (alphaChannelName layerName)
          (channelsInLayer layerName (channels (Image.mData img)))
     then 1 else 0)%nat.
Proof.
  unfold Image.getSortedChannels.
  destruct (getGroupedChannels (Image.mData img) layerName) as [gs|] eqn:Hgs; [|done].
  intros [= <-]. rewrite sortGroups_flat.
  set (a := alphaChannelName layerName).
  destruct (sortMembers_spec a (concat (List.map ChannelGroup.channels gs)) false [] eq_refl)
    as (Hflag & Hcount & Helem).
  assert (Hcover : forall n, n ∈ concat (List.map ChannelGroup.channels gs) <->
                     n ∈ channelsInLayer layerName (channels (Image.mData img))).
  { intros n. rewrite (getGroupedChannels_cover _ _ _ n Hgs), elem_of_concat. split.
    - intros (l & Hl & Hn). apply list_elem_of_fmap in Hl as (g & -> & Hg). eauto.
    - intros (g & Hg & Hn). exists (ChannelGroup.channels g). split; [|done].
      apply list_elem_of_fmap. eauto. }
  split.
  - intros n. rewrite Helem, elem_of_nil, Hcover. tauto.
  - rewrite Hcount, Hflag. simpl.
    destruct (found a (concat _)) eqn:E1;
      destruct (found a (channelsInLayer _ _)) eqn:E2; try done.
    + apply existsb_eqb_elem, Hcover, existsb_eqb_elem in E1. unfold found in E2. congruence.
    + apply existsb_eqb_elem, Hcover, existsb_eqb_elem in E2. unfold found in E1. congruence.
Qed.

Lemma sorted_channels_list_alpha_once_witness :
  let img := Image.mk "a.exr" "" (rgbaImage true) "a.exr"
               [ChannelGroup.mk "R,G,B,A" ["R"; "G"; "B"; "A"]] 0 in
  Image.getSortedChannels img "" = Ok ["R"; "G"; "B"; "A"] /\
  (forall n, n ∈ ["R"; "G"; "B"; "A"] <->
             n ∈ channelsInLayer "" (channels (Image.mData img))) /\
  length (List.filter (String.eqb (alphaChannelName "")) ["R"; "G"; "B"; "A"])
  = (if found (alphaChannelName "") (channelsInLayer "" (channels (Image.mData img)))
     then 1 else 0)%nat.
Proof.
  split; [reflexivity|].
  apply (sorted_channels_list_alpha_once
           (Image.mk "a.exr" "" (rgbaImage true) "a.exr"
              [ChannelGroup.mk "R,G,B,A" ["R"; "G"; "B"; "A"]] 0) "").
  reflexivity.
Defined.

(** *** The constructor and [channelsInGroup] *)

Lemma getGroupedChannels_members (mData : ImageData) (layerName : string)
  (gs : list ChannelGroup.t) (g : ChannelGroup.t) :
  getGroupedChannels mData layerName = Ok gs -> g ∈ gs ->
  ChannelGroup.channels g <> [].
Proof.
  unfold getGroupedChannels. intros Hgs Hg.
  pose proof (groupChannels_spec layerName (channelsInLayer layerName (channels mData))) as H.
  rewrite Hgs in H. destruct H as (_ & _ & Hmade & _).
  rewrite Forall_forall in Hmade. destruct (Hmade g Hg) as (_ & _ & n & Hn & _).
  intros E. rewrite E in Hn. by apply elem_of_nil in Hn.
Qed.

Lemma collectGroups_spec (data : ImageData) (ls : list string) (acc : list ChannelGroup.t) :
  match collectGroups data ls acc with
  | Ok gs =>
      exists new,
        gs = acc ++ new /\
        (forall l, l ∈ ls -> channelsInLayer l (channels data) <> []) /\
        (forall g, g ∈ new <->
           exists l gl, l ∈ ls /\ getGroupedChannels data l = Ok gl /\ g ∈ gl)
  | Throw e =>
      e = runtime_error "Images with no channels should never exist." [] /\
      exists l, l ∈ ls /\ channelsInLayer l (channels data) = []
  end.
Proof.
  revert acc. induction ls as [|l ls IH]; intros acc; simpl.
  - exists []. rewrite app_nil_r. split; [done|]. split; [by intros l ?%elem_of_nil|].
    intros g. rewrite elem_of_nil. split; [done|].
    intros (l & gl & Hl & _). by apply elem_of_nil in Hl.
  - pose proof (grouping_fails (data) l) as Hl.
    destruct (getGroupedChannels data l) as [gl|e] eqn:Hgl.
    + specialize (IH (acc ++ gl)). destruct (collectGroups data ls (acc ++ gl)) as [gs|e].
      * destruct IH as (new & -> & Hne & Hnew). exists (gl ++ new).
        split; [by rewrite app_assoc|]. split.
        -- intros l' [->|H]%elem_of_cons; [by destruct Hl|by apply Hne].
        -- intros g. rewrite elem_of_app, Hnew. split.
           ++ intros [Hg|(l' & gl' & Hl' & Hgl' & Hg)].
              ** exists l, gl. split; [left|done].
              ** exists l', gl'. split; [by right|done].
           ++ intros (l' & gl' & [->|Hl']%elem_of_cons & Hgl' & Hg).
              ** left. congruence.
              ** right. eauto.
      * destruct IH as (-> & l' & Hl' & He). split; [done|]. exists l'. split; [by right|done].
    + destruct Hl as [-> Hl]. split; [done|]. exists l. split; [left|done].
Qed.

Lemma lookupGroup_nil (groupName : string) (gs : list ChannelGroup.t) :
  (forall g, g ∈ gs -> ChannelGroup.channels g <> []) ->
  lookupGroup groupName gs = [] <->
  forall g, g ∈ gs -> ChannelGroup.name g <> groupName.
Proof.
  induction gs as [|g gs IH]; intros Hne; simpl.
  - split; [|done]. by intros _ g ?%elem_of_nil.
  - destruct (String.eqb (ChannelGroup.name g) groupName) eqn:E.
    + apply String.eqb_eq in E. split.
      * intros H. by destruct (Hne g (list_elem_of_here _ _)).
      * intros H. by destruct (H g (list_elem_of_here _ _)).
    + apply String.eqb_neq in E. rewrite IH by (intros g' Hg'; apply Hne; by right).
      split.
      * intros H g' [->|Hg']%elem_of_cons; [done|by apply H].
      * intros H g' Hg'. apply H. by right.
Qed.

(** The lookup answers with the first group of the name, in list order. *)
Lemma lookupGroup_first (g : ChannelGroup.t) (gs : list ChannelGroup.t) :
  g ∈ gs ->
  exists pre g' post,
    gs = pre ++ g' :: post /\
    (forall h, h ∈ pre -> ChannelGroup.name h <> ChannelGroup.name g) /\
    ChannelGroup.name g' = ChannelGroup.name g /\
    lookupGroup (ChannelGroup.name g) gs = ChannelGroup.channels g'.
Proof.
  induction gs as [|g0 gs IH]; [by intros ?%elem_of_nil|]. simpl.
  destruct (String.eqb (ChannelGroup.name g0) (ChannelGroup.name g)) eqn:E.
  - intros _. exists [], g0, gs. apply String.eqb_eq in E.
    split; [done|]. split; [by intros h ?%elem_of_nil|done].
  - apply String.eqb_neq in E.
    intros [->|Hg]%elem_of_cons; [done|].
    destruct (IH Hg) as (pre & g' & post & -> & Hpre & Hn & Hl).
    exists (g0 :: pre), g', post. split; [done|]. split; [|done].
    intros h [->|Hh]%elem_of_cons; [done|by apply Hpre].
Qed.

Lemma Image_spec (id : Z) (path : string) (data : ImageData) (channelSelector : string) :
  match Image.Image id path data channelSelector with
  | Ok img =>
      Image.mData img = data /\
      (forall l, l ∈ layers data -> channelsInLayer l (channels data) <> []) /\
      (forall n,
         (exists g, g ∈ Image.mChannelGroups img /\ n ∈ ChannelGroup.channels g) <->
         (exists l, l ∈ layers data /\ n ∈ channelsInLayer l (channels data))) /\
      (forall groupName,
         Image.channelsInGroup img groupName = [] <->
         forall g, g ∈ Image.mChannelGroups img -> ChannelGroup.name g <> groupName) /\
      (forall g, g ∈ Image.mChannelGroups img ->
         exists pre g' post,
           Image.mChannelGroups img = pre ++ g' :: post /\
           (forall h, h ∈ pre -> ChannelGroup.name h <> ChannelGroup.name g) /\
           ChannelGroup.name g' = ChannelGroup.name g /\
           Image.channelsInGroup img (ChannelGroup.name g)
           = ChannelGroup.channels g')
  | Throw e =>
      e = runtime_error "Images with no channels should never exist." [] /\
      exists l, l ∈ layers data /\ channelsInLayer l (channels data) = []
  end.
Proof.
  unfold Image.Image. pose proof (collectGroups_spec data (layers data) []) as H.
  destruct (collectGroups data (layers data) []) as [gs|e]; [|done].
  destruct H as (new & -> & Hne & Hnew). simpl.
  unfold Image.channelsInGroup. simpl.
  split; [done|]. split; [done|]. split; [|split].
  - intros n. split.
    + intros (g & Hg & Hn). apply Hnew in Hg as (l & gl & Hl & Hgl & Hg).
      exists l. split; [done|].
      apply (proj2 (getGroupedChannels_cover _ _ _ n Hgl)). eauto.
    + intros (l & Hl & Hn). pose proof (grouping_fails data l) as Hgl.
      destruct (getGroupedChannels data l) as [gl|] eqn:E.
      * destruct (proj1 (getGroupedChannels_cover _ _ _ n E) Hn) as (g & Hg & Hn').
        exists g. split; [|done]. apply Hnew. eauto.
      * destruct Hgl as [_ Hgl]. by destruct (Hne l Hl).
  - intros groupName. apply lookupGroup_nil.
    intros g Hg. apply Hnew in Hg as (l & gl & Hl & Hgl & Hg).
    by eapply getGroupedChannels_members.
  - intros g Hg. by apply lookupGroup_first.
Qed.

(** X17 (Image.cpp, the constructor [Image::Image] and
    [Image::channelsInGroup]).  An image can be constructed exactly when
    each of its layers has a channel; otherwise the constructor throws
    "Images with no channels should never exist.".  The groups of a
    constructed image have, between them, exactly the channels of its
    layers as members.  For the name of a group of the image,
    [channelsInGroup] answers with the members of the first group of that
    name in the list of groups, no group before it having the name; it
    answers with the empty list exactly for a name that no group has. *)
Theorem image_groups (id : Z) (path : string) (data : ImageData) (channelSelector : string) :
  match Image.Image id path data channelSelector with
  | Ok img =>
      Image.mData img = data /\
      (forall l, l ∈ layers data -> channelsInLayer l (channels data) <> []) /\
      (forall n,
         (exists g, g ∈ Image.mChannelGroups img /\ n ∈ ChannelGroup.channels g) <->
         (exists l, l ∈ layers data /\ n ∈ channelsInLayer l (channels data))) /\
      (forall groupName,
         Image.channelsInGroup img groupName = [] <->
         forall g, g ∈ Image.mChannelGroups img -> ChannelGroup.name g <> groupName) /\
      (forall g, g ∈ Image.mChannelGroups img ->
         exists pre g' post,
           Image.mChannelGroups img = pre ++ g' :: post /\
           (forall h, h ∈ pre -> ChannelGroup.name h <> ChannelGroup.name g) /\
           ChannelGroup.name g' = ChannelGroup.name g /\
           Image.channelsInGroup img (ChannelGroup.name g)
           = ChannelGroup.channels g')
  | Throw e =>
      e = runtime_error "Images with no channels should never exist." [] /\
      exists l, l ∈ layers data /\ channelsInLayer l (channels data) = []
  end.
Proof. apply Image_spec. Qed.

(** *** The short name *)

Lemma substring_full (s : string) : String.substring 0 (String.length s) s = s.
Proof. induction s as [|c s IH]; [done|]. simpl. by rewrite IH. Qed.

Lemma substring_app_l (s1 s2 : string) :
  String.substring 0 (String.length s1) (s1 +:+ s2) = s1.
Proof.
  induction s1 as [|c s1 IH]; simpl.
  - by destruct s2.
  - by rewrite IH.
Qed.

Lemma length_app_string (s1 s2 : string) :
  String.length (s1 +:+ s2) = (String.length s1 + String.length s2)%nat.
Proof. induction s1 as [|c s1 IH]; [done|]. simpl. by rewrite IH. Qed.

Lemma substr_from_app (s1 s2 : string) :
  substr_from (s1 +:+ s2) (String.length s1) = s2.
Proof.
  unfold substr_from. rewrite length_app_string.
  replace (String.length s1 + String.length s2 - String.length s1)%nat
    with (String.length s2) by lia.
  induction s1 as [|c s1 IH]; simpl; [apply substring_full|exact IH].
Qed.

Lemma substr_from_cons (c : ascii) (s : string) (k : nat) :
  substr_from (String c s) (S k) = substr_from s k.
Proof. done. Qed.

Lemma find_last_of_app (chars : list ascii) (s1 s2 : string) :
  find_last_of chars (s1 +:+ s2)
  = match find_last_of chars s2 with
    | Some k => Some (String.length s1 + k)%nat
    | None => find_last_of chars s1
    end.
Proof.
  induction s1 as [|c s1 IH].
  - change ("" +:+ s2) with s2. destruct (find_last_of chars s2); reflexivity.
  - change (String c s1 +:+ s2) with (String c (s1 +:+ s2)). simpl.
    rewrite IH. destruct (find_last_of chars s2); reflexivity.
Qed.

Lemma find_last_of_rest (chars : list ascii) (s : string) (k : nat) :
  find_last_of chars s = Some k ->
  find_last_of chars (substr_from s (k + 1)) = None.
Proof.
  revert k. induction s as [|c s IH]; intros k; [done|]. simpl find_last_of.
  rewrite Nat.add_1_r. rewrite substr_from_cons.
  destruct (find_last_of chars s) as [k'|] eqn:E.
  - intros [= <-]. specialize (IH k' eq_refl). by rewrite Nat.add_1_r in IH.
  - destruct (existsb _ chars); [|done]. intros [= <-].
    unfold substr_from. rewrite Nat.sub_0_r, substring_full. done.
Qed.

Lemma find_last_of_prefix (chars : list ascii) (s : string) (k : nat) :
  find_last_of chars s = None ->
  find_last_of chars (String.substring 0 k s) = None.
Proof.
  revert k. induction s as [|c s IH]; intros k; [by destruct k|]. simpl.
  destruct (find_last_of chars s) eqn:E; [done|].
  destruct (existsb _ chars) eqn:Ec; [done|]. intros _.
  destruct k as [|k]; [done|]. simpl. by rewrite (IH k), Ec.
Qed.

Lemma find_last_of_fewer (chars chars' : list ascii) (s : string) :
  chars' ⊆ chars ->
  find_last_of chars s = None -> find_last_of chars' s = None.
Proof.
  intros Hsub. induction s as [|c s IH]; [done|]. simpl.
  destruct (find_last_of chars s); [done|]. rewrite IH by done.
  destruct (existsb (Ascii.eqb c) chars) eqn:E; [done|]. intros _.
  destruct (existsb (Ascii.eqb c) chars') eqn:E'; [|done].
  apply existsb_exists in E' as (x & Hx & Hcx).
  assert (existsb (Ascii.eqb c) chars = true); [|congruence].
  apply existsb_exists. exists x. split; [|done].
  apply list_elem_of_In, Hsub, list_elem_of_In, Hx.
Qed.

(** X18 (Image.cpp, [Image::shortName]).  The short name of an image holds
    no path separator, neither slash nor backslash, whatever the name of
    the image is. *)
Theorem shortName_has_no_separator (img : Image.t) :
  find_last_of [slash; backslash] (Image.shortName img) = None.
Proof.
  unfold Image.shortName.
  set (r := match find_last_of [slash; backslash] (Image.mName img) with
            | Some p => substr_from (Image.mName img) (p + 1)
            | None => Image.mName img
            end).
  assert (Hr : find_last_of [slash; backslash] r = None).
  { unfold r. destruct (find_last_of _ (Image.mName img)) as [p|] eqn:E; [|done].
    by apply find_last_of_rest. }
  destruct (find_last_of [":"%char] r); [|done]. by apply find_last_of_prefix.
Qed.

Lemma append_assoc (s1 s2 s3 : string) : s1 +:+ s2 +:+ s3 = (s1 +:+ s2) +:+ s3.
Proof.
  induction s1 as [|c s1 IH]; [done|].
  change (String c s1 +:+ s2 +:+ s3) with (String c (s1 +:+ s2 +:+ s3)).
  by rewrite IH.
Qed.

Lemma strip_directory (dir t : string) :
  find_last_of [slash; backslash] t = None ->
  match find_last_of [slash; backslash] ((dir +:+ "/") +:+ t) with
  | Some p => substr_from ((dir +:+ "/") +:+ t) (p + 1)
  | None => (dir +:+ "/") +:+ t
  end = t.
Proof.
  intros Ht. rewrite find_last_of_app, Ht, find_last_of_app.
  change (find_last_of [slash; backslash] "/") with (Some 0%nat). cbv iota beta.
  replace (String.length dir + 0 + 1)%nat with (String.length (dir +:+ "/"))
    by (rewrite length_app_string; simpl; lia).
  apply substr_from_app.
Qed.

(** X19 (Image.cpp, the constructor [Image::Image] and [Image::shortName]).
    For an image made from a file [file] in a directory [dir] and a
    selector, where neither the file name nor the selector holds a slash, a
    backslash or a colon, the short name is the file name: the directory
    and the selector that the constructor put into the name are taken off
    again. *)
Theorem shortName_is_the_file_name (id : Z) (dir file : string) (data : ImageData)
  (channelSelector : string) (img : Image.t) :
  find_last_of [slash; backslash; ":"%char] file = None ->
  find_last_of [slash; backslash; ":"%char] channelSelector = None ->
  Image.Image id (dir +:+ "/" +:+ file) data channelSelector = Ok img ->
  Image.shortName img = file.
Proof.
  intros Hfile Hsel. unfold Image.Image.
  destruct (collectGroups data (layers data) []) as [gs|]; [|done].
  intros [= <-]. unfold Image.shortName. cbn [Image.mName].
  assert (Hsep : forall s, find_last_of [slash; backslash; ":"%char] s = None ->
                   find_last_of [slash; backslash] s = None).
  { intros s. apply find_last_of_fewer. intros c Hc. rewrite !elem_of_cons in *. tauto. }
  assert (Hcolon : forall s, find_last_of [slash; backslash; ":"%char] s = None ->
                     find_last_of [":"%char] s = None).
  { intros s. apply find_last_of_fewer. intros c Hc. rewrite !elem_of_cons in *. tauto. }
  destruct (String.eqb channelSelector "") eqn:E.
  - rewrite (append_assoc dir "/" file).
    rewrite strip_directory by (by apply Hsep).
    by rewrite (Hcolon _ Hfile).
  - set (t := file +:+ ":" +:+ channelSelector).
    assert (Ht : find_last_of [slash; backslash] t = None).
    { unfold t. rewrite !find_last_of_app, (Hsep _ Hsel). simpl. apply (Hsep _ Hfile). }
    assert (Hname : (dir +:+ "/" +:+ file) +:+ ":" +:+ channelSelector
                    = (dir +:+ "/") +:+ t).
    { unfold t. rewrite (append_assoc dir "/" file).
      by rewrite <- (append_assoc (dir +:+ "/") file (":" +:+ channelSelector)). }
    rewrite Hname, strip_directory by done. unfold t.
    rewrite !find_last_of_app, (Hcolon _ Hsel).
    change (find_last_of [":"%char] ":") with (Some 0%nat). cbv iota beta.
    rewrite Nat.add_0_r. apply substring_app_l.
Qed.

Lemma shortName_is_the_file_name_witness :
  exists img,
    Image.Image 0 ("/home/user" +:+ "/" +:+ "render.exr") (rgbaImage true) "R,G" = Ok img /\
    Image.shortName img = "render.exr".
Proof.
  eexists. split; [reflexivity|].
  apply (shortName_is_the_file_name 0 "/home/user" "render.exr" (rgbaImage true) "R,G");
    reflexivity.
Defined.

(** ** BackgroundImagesLoader: one call of [publishSortedLoads] *)

Section Publish.

Context {Image : Type}.

Lemma publishLoop_run q (counter : Z) (loaded : list (ImageAddition Image)) (b : bool) :
  exists taken rest,
    q = taken ++ rest /\
    List.map loadId taken = seqZ counter (Z.of_nat (length taken)) /\
    match rest with
    | [] => True
    | top :: _ => loadId top <> counter + Z.of_nat (length taken)
    end /\
    publishLoop q counter loaded b
    = (rest, counter + Z.of_nat (length taken),
       loaded ++ List.filter (fun r => succeeded (entry r)) taken,
       b || negb (bool_decide (taken = []))).
Proof.
  revert counter loaded b. induction q as [|top q IH]; intros counter loaded b.
  - exists [], []. simpl. rewrite Z.add_0_r, app_nil_r, orb_false_r. done.
  - simpl. destruct (loadId top =? counter) eqn:E.
    + apply Z.eqb_eq in E.
      destruct (IH (counter + 1)
                  (match images top with [] => loaded | _ :: _ => loaded ++ [top] end) true)
        as (taken & rest & -> & Hids & Hrest & ->).
      exists (top :: taken), rest. split; [done|]. split; [|split].
      * simpl length. rewrite Nat2Z.inj_succ, seqZ_cons by lia. simpl.
        rewrite E. f_equal. replace (Z.succ counter) with (counter + 1) by lia.
        replace (Z.pred (Z.succ (Z.of_nat (length taken)))) with (Z.of_nat (length taken))
          by lia.
        done.
      * destruct rest; [done|]. simpl length. lia.
      * rewrite (bool_decide_eq_false_2 (top :: taken = [])) by done.
        simpl negb. rewrite !orb_true_r. simpl length.
        replace (counter + 1 + Z.of_nat (length taken))
          with (counter + Z.of_nat (S (length taken))) by lia.
        assert (Hl : (match images top with [] => loaded | _ :: _ => loaded ++ [top] end)
                     ++ List.filter (fun r => succeeded (entry r)) taken
                     = loaded ++ List.filter (fun r => succeeded (entry r)) (top :: taken)).
        { simpl. unfold succeeded, failed, entry. simpl.
          destruct (images top); simpl; [done|]. by rewrite <- app_assoc. }
        by rewrite Hl.
    + apply Z.eqb_neq in E. exists [], (top :: q). simpl.
      rewrite Z.add_0_r, app_nil_r, orb_false_r. done.
Qed.

Lemma publishSortedLoads_spec (l : BackgroundImagesLoader Image) :
  exists taken rest,
    mPendingLoadedImages l = taken ++ rest /\
    List.map loadId taken = seqZ (mLoadCounter l) (Z.of_nat (length taken)) /\
    match rest with
    | [] => True
    | top :: _ => loadId top <> mLoadCounter l + Z.of_nat (length taken)
    end /\
    publishSortedLoads l
    = (negb (bool_decide (taken = [])),
       mkLoader (mUnsortedLoadCounter l)
         (mLoadCounter l + Z.of_nat (length taken))
         rest
         (mLoadedImages l ++ List.filter (fun r => succeeded (entry r)) taken)).
Proof.
  destruct (publishLoop_run (mPendingLoadedImages l) (mLoadCounter l)
              (mLoadedImages l) false) as (taken & rest & Hq & Hids & Hrest & Hrun).
  exists taken, rest. split; [done|]. split; [done|]. split; [done|].
  unfold publishSortedLoads. by rewrite Hrun.
Qed.

(** X20 (Image.cpp, [BackgroundImagesLoader::publishSortedLoads]).  One
    call takes from the top of the pending buffer the longest run of records
    whose ids are the next expected ones, one after the other, and the
    buffer keeps the rest; the counter of published loads advances by the
    length of that run; of the records taken, those with images are appended
    to the FIFO in that order and those of failed loads are dropped.  The
    call returns true exactly when it has taken a record, be it that of a
    failed load that adds nothing to the FIFO. *)
Theorem publishSortedLoads_takes_the_next_run (l : BackgroundImagesLoader Image) :
  exists taken rest,
    mPendingLoadedImages l = taken ++ rest /\
    List.map loadId taken = seqZ (mLoadCounter l) (Z.of_nat (length taken)) /\
    match rest with
    | [] => True
    | top :: _ => loadId top <> mLoadCounter l + Z.of_nat (length taken)
    end /\
    publishSortedLoads l
    = (negb (bool_decide (taken = [])),
       mkLoader (mUnsortedLoadCounter l)
         (mLoadCounter l + Z.of_nat (length taken))
         rest
         (mLoadedImages l ++ List.filter (fun r => succeeded (entry r)) taken)).
Proof. apply publishSortedLoads_spec. Qed.

(** X21 (Image.cpp, [BackgroundImagesLoader::publishSortedLoads]).  After a
    call there is nothing left to publish: a second call right behind it
    returns false and changes nothing. *)
Theorem publishSortedLoads_twice (l : BackgroundImagesLoader Image) :
  publishSortedLoads (snd (publishSortedLoads l))
  = (false, snd (publishSortedLoads l)).
Proof.
  destruct (publishLoop_run (mPendingLoadedImages l) (mLoadCounter l)
              (mLoadedImages l) false) as (taken & rest & Hq & Hids & Hrest & Hrun).
  unfold publishSortedLoads at 2 3. rewrite Hrun. simpl snd.
  unfold publishSortedLoads. simpl.
  destruct rest as [|top rest]; [done|]. simpl.
  destruct (loadId top =? _) eqn:E; [|done]. apply Z.eqb_eq in E. done.
Qed.

(** X22 (Image.cpp, [BackgroundImagesLoader::enqueue] and
    [publishSortedLoads]).  Along every run of the loader and its tasks the
    FIFO of published records only grows at its end, and neither counter
    ever goes back: what the consumer has seen stays as it is. *)
Theorem publication_is_append_only (s s' : system Image) (tr : list (event Image)) :
  run s tr = Some s' ->
  mLoadedImages (loader s) `prefix_of` mLoadedImages (loader s') /\
  mLoadCounter (loader s) <= mLoadCounter (loader s') /\
  mUnsortedLoadCounter (loader s) <= mUnsortedLoadCounter (loader s').
Proof.
  revert s. induction tr as [|ev tr IH]; intros s; simpl.
  - intros [= <-]. done.
  - destruct (step s ev) as [s1|] eqn:Hstep; [|done]. intros Hrun.
    destruct (IH s1 Hrun) as (Hp & Hc & Hu).
    assert (H1 : mLoadedImages (loader s) `prefix_of` mLoadedImages (loader s1) /\
                 mLoadCounter (loader s) <= mLoadCounter (loader s1) /\
                 mUnsortedLoadCounter (loader s) <= mUnsortedLoadCounter (loader s1)).
    { destruct ev as [select|id imgs|id]; simpl in Hstep.
      - injection Hstep as <-. simpl. split; [done|lia].
      - destruct (0 <=? id); [|done].
        destruct (tasks s !! Z.to_nat id) as [[[lid select] [| |]]|]; try done.
        injection Hstep as <-. simpl. split; [done|lia].
      - destruct (0 <=? id); [|done].
        destruct (tasks s !! Z.to_nat id) as [[[lid select] [| |]]|]; try done.
        injection Hstep as <-. cbn [loader].
        destruct (publishSortedLoads_spec (loader s)) as (taken & rest & _ & _ & _ & ->).
        simpl. split; [by eexists|lia]. }
    destruct H1 as (Hp1 & Hc1 & Hu1). split; [by etrans|lia].
Qed.

End Publish.

Lemma publication_is_append_only_witness :
  exists s s',
    run init [Enqueue false; Enqueue false; Complete 0 ["a"]; Publish 0] = Some s /\
    run s [Complete 1 ["b"]; Publish 1] = Some s' /\
    mLoadedImages (loader s) `prefix_of` mLoadedImages (loader s') /\
    mLoadCounter (loader s) <= mLoadCounter (loader s') /\
    mUnsortedLoadCounter (loader s) <= mUnsortedLoadCounter (loader s').
Proof.
  eexists. eexists. split; [reflexivity|]. split; [reflexivity|].
  apply (publication_is_append_only _ _ [Complete 1 ["b"]; Publish 1]). reflexivity.
Defined.

(** ** Utilities of Common.h *)

(** [clamp] throws exactly when the maximum is below the minimum; otherwise
    it returns the value itself where that lies between the two, the minimum
    for a value below it and the maximum for a value above it. *)
Lemma clamp_is_the_nearest_value (value min max : Z) :
  match clamp value min max with
  | Ok r =>
      min <= max /\ min <= r <= max /\
      (min <= value <= max -> r = value) /\
      (value < min -> r = min) /\
      (max < value -> r = max)
  | Throw e =>
      max < min /\
      e = runtime_error "Minimum (%f) may not be larger than maximum (%f)."
            [ArgD min; ArgD max]
  end.
Proof.
  unfold clamp. destruct (max >=? min) eqn:E.
  - apply Z.geb_le in E. lia.
  - split; [|done]. rewrite Z.geb_leb in E. apply Z.leb_gt in E. lia.
Qed.

Lemma byte_cases (P : Z -> bool) :
  forallb P (seqZ 0 256) = true -> forall b, 0 <= b < 256 -> P b = true.
Proof.
  intros H b Hb. rewrite forallb_forall in H. apply H.
  apply list_elem_of_In, elem_of_seqZ. lia.
Qed.

(** X24 (Common.h, [codePointLength]).  For the first byte [b] of a UTF-8
    sequence the result is the length of the sequence: 1 for the bytes below
    0xC0, 2 from 0xC0, 3 from 0xE0 and 4 from 0xF0 to 0xF7.  It is 1 also
    for a continuation byte (0x80 to 0xBF) and for the bytes from 0xF8 on,
    which start no sequence; and it is the same whether [char] is signed or
    not. *)
Theorem codePointLength_of_first_byte (b : Z) :
  0 <= b < 256 ->
  codePointLength (signedChar b) = codePointLength b /\
  codePointLength b
  = (if b <? 192 then 1 else if b <? 224 then 2 else if b <? 240 then 3
     else if b <? 248 then 4 else 1).
Proof.
  intros Hb.
  pose proof (byte_cases
    (fun b => (codePointLength (signedChar b) =? codePointLength b) &&
              (codePointLength b
               =? (if b <? 192 then 1 else if b <? 224 then 2 else if b <? 240 then 3
                   else if b <? 248 then 4 else 1)))
    eq_refl b Hb) as H.
  apply andb_true_iff in H as [H1 H2]. split; by apply Z.eqb_eq.
Qed.

Lemma codePointLength_of_first_byte_witness :
  codePointLength (signedChar 226) = codePointLength 226 /\
  codePointLength 226 = 3.
Proof.
  apply (codePointLength_of_first_byte 226). lia.
Defined.

(** ** Loaders: the checks of the file *)

Lemma read_result (n : nat) (s : istream) :
  let '(b, s') := read n s in
  buffer s' = buffer s /\
  (operator_bool s' && (gcount s' =? n)%nat = true <->
   good s = true /\ length (take n (drop (cursor s) (buffer s))) = n) /\
  (good s = true -> b = take n (drop (cursor s) (buffer s))).
Proof.
  unfold read. destruct (good s) eqn:Hg.
  - destruct (length (take n (drop (cursor s) (buffer s))) <? n)%nat eqn:E.
    + apply Nat.ltb_lt in E. simpl. split; [done|]. split; [|done].
      split; [done|]. intros [_ H]. lia.
    + apply Nat.ltb_ge in E. unfold operator_bool. simpl. rewrite Nat.eqb_refl.
      split; [done|]. split; [|done]. split; [|done]. intros _. split; [done|].
      pose proof (length_take_le (drop (cursor s) (buffer s)) n). 
      rewrite length_take in *. lia.
  - unfold operator_bool. simpl. split; [done|]. split; [|done]. split; [done|].
    by intros [? _].
Qed.

Lemma rewind_fresh (s : istream) :
  buffer (seekg 0 (clear s)) = buffer s /\ fresh (seekg 0 (clear s)) = true.
Proof. unfold seekg, clear, fresh, good. simpl. done. Qed.

Lemma canLoadFile_spec (n : nat) (magic : list ascii) (s : istream) :
  length magic = n ->
  let '(b, s1) := read n s in
  operator_bool s1 && (gcount s1 =? n)%nat && bool_decide (b = magic) = true <->
  good s = true /\ take n (drop (cursor s) (buffer s)) = magic.
Proof.
  intros Hn. pose proof (read_result n s) as H.
  destruct (read n s) as [b s1]. destruct H as (_ & Hok & Hb).
  rewrite andb_true_iff, Hok, bool_decide_eq_true. split.
  - intros [[Hg Hl] ->]. split; [done|]. symmetry. by apply Hb.
  - intros [Hg Hm]. split; [split; [done|]|].
    + by rewrite Hm.
    + rewrite <- Hm. by apply Hb.
Qed.

Lemma canLoadFile_both (s : istream) :
  (fst (EmptyImageLoader.canLoadFile s) = true <->
   good s = true /\ take 5 (drop (cursor s) (buffer s)) = EmptyImageLoader.magic) /\
  (fst (ExrImageLoader.canLoadFile s) = true <->
   good s = true /\ take 4 (drop (cursor s) (buffer s)) = ExrImageLoader.magic) /\
  (buffer (snd (EmptyImageLoader.canLoadFile s)) = buffer s /\
   fresh (snd (EmptyImageLoader.canLoadFile s)) = true) /\
  (buffer (snd (ExrImageLoader.canLoadFile s)) = buffer s /\
   fresh (snd (ExrImageLoader.canLoadFile s)) = true) /\
  (fst (EmptyImageLoader.canLoadFile s) && fst (ExrImageLoader.canLoadFile s) = false).
Proof.
  assert (He : fst (EmptyImageLoader.canLoadFile s) = true <->
               good s = true /\
               take 5 (drop (cursor s) (buffer s)) = EmptyImageLoader.magic).
  { unfold EmptyImageLoader.canLoadFile.
    pose proof (canLoadFile_spec 5 EmptyImageLoader.magic s eq_refl) as H.
    by destruct (read 5 s) as [b s1]. }
  assert (Hx : fst (ExrImageLoader.canLoadFile s) = true <->
               good s = true /\
               take 4 (drop (cursor s) (buffer s)) = ExrImageLoader.magic).
  { unfold ExrImageLoader.canLoadFile.
    pose proof (canLoadFile_spec 4 ExrImageLoader.magic s eq_refl) as H.
    by destruct (read 4 s) as [b s1]. }
  split; [done|]. split; [done|]. split; [|split].
  - unfold EmptyImageLoader.canLoadFile.
    pose proof (read_result 5 s) as H. destruct (read 5 s) as [b s1].
    destruct H as (Hb & _). simpl. destruct (rewind_fresh s1) as [H1 H2].
    split; [congruence|done].
  - unfold ExrImageLoader.canLoadFile.
    pose proof (read_result 4 s) as H. destruct (read 4 s) as [b s1].
    destruct H as (Hb & _). simpl. destruct (rewind_fresh s1) as [H1 H2].
    split; [congruence|done].
  - apply not_true_iff_false. intros [E1 E2]%andb_true_iff.
    apply He in E1 as [_ E1]. apply Hx in E2 as [_ E2].
    assert (H : take 4 (take 5 (drop (cursor s) (buffer s))) = ExrImageLoader.magic).
    { rewrite take_take. exact E2. }
    rewrite E1 in H. vm_compute in H. discriminate.
Qed.

(** X25 (EmptyImageLoader.cpp and ExrImageLoader.cpp, [canLoadFile]).
    Either check accepts a stream exactly when the stream is good and the
    characters at its read position are the magic of the format, "empty" or
    0x76 0x2f 0x31 0x01; a file too short for the magic is refused.
    Whatever the answer, and wherever the stream stood, it is left at the
    start of the file with no state bit set, and the file is the same.  No
    stream is accepted by both checks. *)
Theorem canLoadFile_checks_the_magic (s : istream) :
  (fst (EmptyImageLoader.canLoadFile s) = true <->
   good s = true /\ take 5 (drop (cursor s) (buffer s)) = EmptyImageLoader.magic) /\
  (fst (ExrImageLoader.canLoadFile s) = true <->
   good s = true /\ take 4 (drop (cursor s) (buffer s)) = ExrImageLoader.magic) /\
  (buffer (snd (EmptyImageLoader.canLoadFile s)) = buffer s /\
   fresh (snd (EmptyImageLoader.canLoadFile s)) = true) /\
  (buffer (snd (ExrImageLoader.canLoadFile s)) = buffer s /\
   fresh (snd (ExrImageLoader.canLoadFile s)) = true) /\
  (fst (EmptyImageLoader.canLoadFile s) && fst (ExrImageLoader.canLoadFile s) = false).
Proof. apply canLoadFile_both. Qed.

(** *** The choice of the loader in [tryLoadImage] *)

Lemma chooseLoader_from (loaders : list (istream -> bool * istream)) (k : nat)
  (s0 s : istream) :
  fresh s = true -> fresh s0 = true -> buffer s0 = buffer s ->
  Forall probes loaders ->
  match chooseLoader loaders k s0 with
  | None => loaders = []
  | Some (i, s') =>
      buffer s' = buffer s /\ fresh s' = true /\ (k <= i)%nat /\
      (forall j f, (j < i - k)%nat -> loaders !! j = Some f -> fst (f s) = false) /\
      exists f, loaders !! (i - k)%nat = Some f /\
                (fst (f s) = true \/ S (i - k) = length loaders)
  end.
Proof.
  intros Hs. revert k s0. induction loaders as [|f rest IH]; intros k s0 Hs0 Hb Hall; [done|].
  apply Forall_cons in Hall as [[Hbuf Hans] Hall]. simpl.
  destruct rest as [|g rest].
  - destruct (rewind_fresh s0) as [H1 H2]. split; [congruence|]. split; [done|].
    split; [lia|]. rewrite Nat.sub_diag. split; [intros j ? Hj; lia|].
    exists f. split; [done|]. by right.
  - destruct (f s0) as [useLoader s1] eqn:Hf.
    assert (Hfst : fst (f s) = useLoader).
    { rewrite (Hans s s0) by done. by rewrite Hf. }
    assert (Hb1 : buffer s1 = buffer s).
    { rewrite <- Hb, <- (Hbuf s0). by rewrite Hf. }
    destruct (rewind_fresh s1) as [H1 H2].
    destruct useLoader.
    + split; [congruence|]. split; [done|]. split; [lia|]. rewrite Nat.sub_diag.
      split; [intros j ? Hj; lia|]. exists f. split; [done|]. by left.
    + specialize (IH (S k) (seekg 0 (clear s1)) H2 ltac:(congruence) Hall).
      destruct (chooseLoader (g :: rest) (S k) (seekg 0 (clear s1))) as [[i s']|]; [|done].
      destruct IH as (Hb' & Hf' & Hk & Hbefore & f' & Hlook & Hlast).
      split; [done|]. split; [done|]. split; [lia|].
      replace (i - k)%nat with (S (i - S k)) by lia. split.
      * intros [|j] f0 Hj Hl; simpl in Hl.
        -- by injection Hl as <-.
        -- apply (Hbefore j f0); [lia|done].
      * exists f'. split; [done|]. destruct Hlast as [?|Hlast]; [by left|right].
        simpl length in *. lia.
Qed.

(** X26 (Image.cpp, the loop over the loaders in [tryLoadImage]).  With at
    least one loader registered a loader is always found: "No suitable
    image loader found." is thrown only for an empty registry.  The loader
    used is the first, in registration order, whose [canLoadFile] accepts
    the file, and the last one when none before it does; the last one is
    not asked.  Its [load] gets the stream at the start of the file with
    no state bit set, whatever the checks before it left. *)
Theorem chooseLoader_first_or_last (loaders : list (istream -> bool * istream))
  (s : istream) :
  fresh s = true ->
  Forall probes loaders ->
  match chooseLoader loaders 0 s with
  | None => loaders = []
  | Some (i, s') =>
      buffer s' = buffer s /\ fresh s' = true /\
      (forall j canLoadFile,
         (j < i)%nat -> loaders !! j = Some canLoadFile -> fst (canLoadFile s) = false) /\
      exists canLoadFile,
        loaders !! i = Some canLoadFile /\
        (fst (canLoadFile s) = true \/ S i = length loaders)
  end.
Proof.
  intros Hs Hall. pose proof (chooseLoader_from loaders 0 s s Hs Hs eq_refl Hall) as H.
  destruct (chooseLoader loaders 0 s) as [[i s']|]; [|done].
  rewrite Nat.sub_0_r in H. destruct H as (? & ? & _ & ? & ?). done.
Qed.

Lemma canLoadFile_probes :
  probes EmptyImageLoader.canLoadFile /\ probes ExrImageLoader.canLoadFile.
Proof.
  assert (H : forall s1 s2 n, buffer s1 = buffer s2 -> fresh s1 = true -> fresh s2 = true ->
                (good s1 = true /\ take n (drop (cursor s1) (buffer s1)) = take n (drop (cursor s2) (buffer s2)))
                /\ good s2 = true).
  { intros s1 s2 n Hb [Hc1 Hg1]%andb_true_iff [Hc2 Hg2]%andb_true_iff.
    apply Nat.eqb_eq in Hc1, Hc2. by rewrite Hb, Hc1, Hc2. }
  split; split.
  - intros s. apply (canLoadFile_both s).
  - intros s1 s2 Hb H1 H2. destruct (H s1 s2 5%nat Hb H1 H2) as [[Hg1 Ht] Hg2].
    apply eq_true_iff_eq.
    rewrite (proj1 (canLoadFile_both s1)),
            (proj1 (canLoadFile_both s2)).
    rewrite Ht. tauto.
  - intros s. apply (canLoadFile_both s).
  - intros s1 s2 Hb H1 H2. destruct (H s1 s2 4%nat Hb H1 H2) as [[Hg1 Ht] Hg2].
    apply eq_true_iff_eq.
    rewrite (proj1 (proj2 (canLoadFile_both s1))),
            (proj1 (proj2 (canLoadFile_both s2))).
    rewrite Ht. tauto.
Qed.

Lemma chooseLoader_first_or_last_witness :
  let s := mkStream (list_ascii_of_string "empty 1 1 0") 0 false false 0 in
  let loaders := [EmptyImageLoader.canLoadFile; ExrImageLoader.canLoadFile] in
  chooseLoader loaders 0 s = Some (0%nat, mkStream (buffer s) 0 false false 5) /\
  match chooseLoader loaders 0 s with
  | None => loaders = []
  | Some (i, s') =>
      buffer s' = buffer s /\ fresh s' = true /\
      (forall j canLoadFile,
         (j < i)%nat -> loaders !! j = Some canLoadFile -> fst (canLoadFile s) = false) /\
      exists canLoadFile,
        loaders !! i = Some canLoadFile /\
        (fst (canLoadFile s) = true \/ S i = length loaders)
  end.
Proof.
  split; [reflexivity|].
  apply (chooseLoader_first_or_last
           [EmptyImageLoader.canLoadFile; ExrImageLoader.canLoadFile]
           (mkStream (list_ascii_of_string "empty 1 1 0") 0 false false 0)).
  - reflexivity.
  - destruct canLoadFile_probes as [He Hx].
    apply Forall_cons_2; [exact He|]. apply Forall_cons_2; [exact Hx|]. apply Forall_nil_2.
Defined.

(** *** The header checks of the EXR loader *)

Section ExrHeader.

Variable matchesFuzzy : string -> string -> option nat.

Lemma loadHeader_inr (channelSelector : string) (parts : list ExrImageLoader.Part)
  (h : ExrImageLoader.Header) :
  ExrImageLoader.loadHeader matchesFuzzy channelSelector parts = inr h ->
  exists first rest file,
    parts = first :: rest /\
    file = nth (ExrImageLoader.findPart matchesFuzzy channelSelector 0 parts) parts first /\
    ExrImageLoader.hPartIdx h = ExrImageLoader.findPart matchesFuzzy channelSelector 0 parts /\
    ExrImageLoader.hSize h
    = (fst (ExrImageLoader.imax (ExrImageLoader.partDataWindow file))
       - fst (ExrImageLoader.imin (ExrImageLoader.partDataWindow file)) + 1,
       snd (ExrImageLoader.imax (ExrImageLoader.partDataWindow file))
       - snd (ExrImageLoader.imin (ExrImageLoader.partDataWindow file)) + 1) /\
    ExrImageLoader.hDataWindow h
    = ExrImageLoader.toBox2i (ExrImageLoader.partDataWindow file) /\
    ExrImageLoader.hDisplayWindow h
    = ExrImageLoader.toBox2i (ExrImageLoader.partDisplayWindow file) /\
    isValid (ExrImageLoader.hDataWindow h) = true /\
    isValid (ExrImageLoader.hDisplayWindow h) = true /\
    ExrImageLoader.hMatches h
    = List.filter (ExrImageLoader.matchesSelector matchesFuzzy channelSelector) (ExrImageLoader.partChannels file) /\
    ExrImageLoader.hMatches h <> [].
Proof using Type.
  unfold ExrImageLoader.loadHeader. destruct parts as [|first rest]; [done|].
  set (file := nth _ _ first).
  destruct (_ || _); [done|].
  destruct (isValid (ExrImageLoader.toBox2i (ExrImageLoader.partDataWindow file))) eqn:E1;
    [|done].
  destruct (isValid (ExrImageLoader.toBox2i (ExrImageLoader.partDisplayWindow file))) eqn:E2;
    [|done].
  simpl negb. cbv iota.
  destruct (List.filter _ (ExrImageLoader.partChannels file)) as [|m ms] eqn:Em; [done|].
  intros [= <-]. exists first, rest, file. simpl. rewrite Em. done.
Qed.


Lemma findPart_spec (channelSelector : string) (i : nat) (parts : list ExrImageLoader.Part) :
  (exists j part,
     parts !! j = Some part /\
     existsb (ExrImageLoader.matchesSelector matchesFuzzy channelSelector) (ExrImageLoader.partChannels part) = true /\
     ExrImageLoader.findPart matchesFuzzy channelSelector i parts = (i + j)%nat /\
     forall j' part', (j' < j)%nat -> parts !! j' = Some part' ->
       existsb (ExrImageLoader.matchesSelector matchesFuzzy channelSelector) (ExrImageLoader.partChannels part') = false) \/
  (ExrImageLoader.findPart matchesFuzzy channelSelector i parts = 0%nat /\
   forall part, part ∈ parts ->
     existsb (ExrImageLoader.matchesSelector matchesFuzzy channelSelector) (ExrImageLoader.partChannels part) = false).
Proof using Type.
  revert i. induction parts as [|part parts IH]; intros i; simpl.
  - right. split; [done|]. by intros part ?%elem_of_nil.
  - destruct (existsb _ (ExrImageLoader.partChannels part)) eqn:E.
    + left. exists 0%nat, part. split; [done|]. split; [done|]. split; [lia|].
      intros j' ? Hj. lia.
    + destruct (IH (S i)) as [(j & p & Hj & Hp & Hk & Hbefore)|[Hk Hnone]].
      * left. exists (S j), p. split; [done|]. split; [done|]. split; [lia|].
        intros [|j'] p' Hlt Hl; simpl in Hl; [by injection Hl as <-|].
        apply (Hbefore j' p'); [lia|done].
      * right. split; [done|]. intros p [->|Hp]%elem_of_cons; [done|by apply Hnone].
Qed.

Lemma existsb_matches_false (channelSelector : string) (names : list string) :
  existsb (ExrImageLoader.matchesSelector matchesFuzzy channelSelector) names = false <->
  forall n, n ∈ names -> matchesFuzzy n channelSelector = None.
Proof using Type.
  unfold ExrImageLoader.matchesSelector. induction names as [|m names IH]; simpl.
  - split; [by intros _ n ?%elem_of_nil|done].
  - rewrite orb_false_iff, IH. split.
    + intros [Hm Hn] n [->|H]%elem_of_cons; [by destruct (matchesFuzzy m _)|by apply Hn].
    + intros H. split; [|intros n Hn; apply H; by right].
      rewrite (H m) by left. done.
Qed.

(** X28 (ExrImageLoader.cpp, [ExrImageLoader::load]).  Of a file with
    several parts, [load] reads the first part that has a channel matching
    the selector: no part before it has one, and the channels it reads are
    the matching channels of that part, at least one.  It throws "No
    channels match" only when no channel of any part matches the
    selector. *)
Theorem exr_reads_the_first_matching_part (channelSelector : string)
  (parts : list ExrImageLoader.Part) :
  match ExrImageLoader.loadHeader matchesFuzzy channelSelector parts with
  | inr h =>
      exists file,
        parts !! ExrImageLoader.hPartIdx h = Some file /\
        ExrImageLoader.hMatches h <> [] /\
        (forall n, n ∈ ExrImageLoader.hMatches h <->
           n ∈ ExrImageLoader.partChannels file /\
           matchesFuzzy n channelSelector <> None) /\
        (forall j part n,
           (j < ExrImageLoader.hPartIdx h)%nat -> parts !! j = Some part ->
           n ∈ ExrImageLoader.partChannels part ->
           matchesFuzzy n channelSelector = None)
  | inl e =>
      e = mkInvalidArgument "No channels match '%s'." [ArgS channelSelector] ->
      forall part n, part ∈ parts -> n ∈ ExrImageLoader.partChannels part ->
        matchesFuzzy n channelSelector = None
  end.
Proof using Type.
  destruct (ExrImageLoader.loadHeader matchesFuzzy channelSelector parts) as [e|h] eqn:Hh.
  - intros ->. unfold ExrImageLoader.loadHeader in Hh.
    destruct parts as [|first rest]; [done|].
    set (file := nth _ _ first) in Hh.
    destruct (_ || _); [done|].
    destruct (negb (isValid (ExrImageLoader.toBox2i (ExrImageLoader.partDataWindow file))));
      [done|].
    destruct (negb (isValid (ExrImageLoader.toBox2i (ExrImageLoader.partDisplayWindow file))));
      [done|].
    destruct (List.filter _ (ExrImageLoader.partChannels file)) as [|m ms] eqn:Em; [|done].
    destruct (findPart_spec channelSelector 0 (first :: rest))
      as [(j & p & Hj & Hp & Hk & _)|[_ Hnone]].
    + exfalso. rewrite Nat.add_0_l in Hk. subst file.
      rewrite Hk, (nth_lookup_Some _ _ _ _ Hj) in Em.
      apply existsb_exists in Hp as (n & Hn & Hm).
      assert (Hin : In n (List.filter (ExrImageLoader.matchesSelector matchesFuzzy channelSelector)
                            (ExrImageLoader.partChannels p)))
        by (apply filter_In; done).
      by rewrite Em in Hin.
    + intros part n Hpart Hn.
      apply (proj1 (existsb_matches_false channelSelector
                      (ExrImageLoader.partChannels part))); [|done].
      by apply Hnone.
  - apply loadHeader_inr in Hh
      as (first & rest & file & -> & Hfile & Hidx & _ & _ & _ & _ & _ & Hm & Hne).
    destruct (findPart_spec channelSelector 0 (first :: rest))
      as [(j & p & Hj & Hp & Hk & Hbefore)|[Hk Hnone]].
    + rewrite Nat.add_0_l in Hk. rewrite Hk in Hfile, Hidx.
      rewrite (nth_lookup_Some _ _ _ _ Hj) in Hfile. subst file.
      exists p. rewrite Hidx. split; [done|]. split; [done|]. split.
      * intros n. rewrite Hm, list_elem_of_In, filter_In, <- list_elem_of_In.
        unfold ExrImageLoader.matchesSelector.
        destruct (matchesFuzzy n channelSelector); split; intros [? ?]; done.
      * intros j' part n Hlt Hl Hn.
        apply (proj1 (existsb_matches_false channelSelector
                        (ExrImageLoader.partChannels part))); [|done].
        by apply (Hbefore j' part).
    + exfalso. rewrite Hk in Hfile. simpl in Hfile. subst file.
      assert (H : existsb (ExrImageLoader.matchesSelector matchesFuzzy channelSelector)
                    (ExrImageLoader.partChannels first) = false)
        by (apply Hnone; left).
      destruct (ExrImageLoader.hMatches h) as [|m ms] eqn:E; [done|].
      assert (Hin : In m (m :: ms)) by (by left).
      rewrite Hm in Hin. apply filter_In in Hin as [Hin Hmatch].
      assert (existsb (ExrImageLoader.matchesSelector matchesFuzzy channelSelector)
                (ExrImageLoader.partChannels first) = true); [|congruence].
      apply existsb_exists. eauto.
Qed.

End ExrHeader.

Lemma int_of_Some (z : Z) : INT_MIN <= z <= INT_MAX -> int_of z = Some z.
Proof.
  intros H. unfold int_of.
  replace (INT_MIN <=? z) with true by (symmetry; apply Z.leb_le; lia).
  replace (z <=? INT_MAX) with true by (symmetry; apply Z.leb_le; lia).
  done.
Qed.

Lemma int_of_inv (z v : Z) : int_of z = Some v -> v = z.
Proof. unfold int_of. destruct (_ && _); [by intros [= <-]|done]. Qed.

Lemma int_div_Some (a b : Z) :
  0 <= a <= INT_MAX -> 1 <= b ->
  int_div a b = Some (Z.quot a b) /\ 0 <= Z.quot a b <= a.
Proof.
  intros Ha Hb.
  assert (H : 0 <= Z.quot a b <= a).
  { split; [apply Z.quot_pos; lia|]. apply Z.quot_le_upper_bound; nia. }
  split; [|done]. unfold int_div.
  replace (b =? 0) with false by (symmetry; apply Z.eqb_neq; lia).
  apply int_of_Some. unfold INT_MIN. lia.
Qed.

Lemma int_div_inv (a b v : Z) : int_div a b = Some v -> v = Z.quot a b.
Proof. unfold int_div. destruct (b =? 0); [done|]. apply int_of_inv. Qed.

(** X29 (ExrImageLoader.cpp, [RawChannel::copyToTyped] and
    [RawChannel::registerWith]).  For a channel of no more than [INT_MAX]
    pixels the copy out of the raw buffer stays inside it: for sampling
    rates of at least 1 and a pixel of the channel, the index, which the
    source computes in [int], is defined and is below the [width * height]
    values the buffer was sized for.  And for a channel with one sampling
    rate on both axes that is not subsampled, or whose data window starts at
    the origin, the value read for the pixel [(x, y)] of the channel is the
    one the library has stored for the pixel [(min.x + x, min.y + y)] of the
    data window: the address the registered slice gives that pixel is the
    address of the value read. *)
Theorem copy_reads_inside_the_raw_buffer (bytesPerPixel xSampling ySampling : Z)
  (dw : ExrImageLoader.ImathBox2i) (x y : Z) :
  let width := fst (ExrImageLoader.imax dw) - fst (ExrImageLoader.imin dw) + 1 in
  let height := snd (ExrImageLoader.imax dw) - snd (ExrImageLoader.imin dw) + 1 in
  1 <= xSampling -> 1 <= ySampling ->
  0 <= x < width -> 0 <= y < height ->
  width * height <= INT_MAX ->
  exists k,
    ExrImageLoader.rawIndex xSampling ySampling width x y = Some k /\
    0 <= k < width * height /\
    (xSampling = ySampling ->
     xSampling = 1 \/ ExrImageLoader.imin dw = (0, 0) ->
     forall sl,
       ExrImageLoader.registerWith bytesPerPixel xSampling ySampling dw = Some sl ->
       ExrImageLoader.sliceAddress sl
         (fst (ExrImageLoader.imin dw) + x) (snd (ExrImageLoader.imin dw) + y)
       = k * bytesPerPixel).
Proof.
  intros width height Hxs Hys Hx Hy Hmax.
  assert (Hw : 0 <= width <= INT_MAX) by nia.
  assert (Hh : 0 <= height <= INT_MAX) by nia.
  destruct (int_div_Some width ySampling Hw Hys) as [Ews Hws].
  destruct (int_div_Some x xSampling ltac:(lia) Hxs) as [Ecol Hcol].
  destruct (int_div_Some y ySampling ltac:(lia) Hys) as [Erow Hrow].
  set (ws := Z.quot width ySampling) in *.
  set (col := Z.quot x xSampling) in *.
  set (row := Z.quot y ySampling) in *.
  assert (Hbound : 0 <= row * ws /\ col + row * ws < width * height) by nia.
  exists (col + row * ws). split; [|split; [lia|]].
  - unfold ExrImageLoader.rawIndex. rewrite Ews, Ecol, Erow. simpl.
    unfold int_mul, int_add.
    rewrite (int_of_Some (row * ws)) by (unfold INT_MIN; lia). simpl.
    apply int_of_Some. unfold INT_MIN. lia.
  - intros <- Hcase sl Hsl. unfold ExrImageLoader.registerWith in Hsl.
    destruct (int_sub _ _) as [extent|] eqn:E1; [|done]. simpl in Hsl.
    destruct (int_add extent 1) as [w|] eqn:E2; [|done]. simpl in Hsl.
    destruct (int_mul _ w) as [rows|] eqn:E3; [|done]. simpl in Hsl.
    destruct (int_add _ rows) as [first|] eqn:E4; [|done]. simpl in Hsl.
    destruct (int_mul first _) as [offset|] eqn:E5; [|done]. simpl in Hsl.
    destruct (int_div w _) as [wsx|] eqn:E6; [|done]. simpl in Hsl.
    destruct (int_mul _ wsx) as [stride|] eqn:E7; [|done]. simpl in Hsl.
    injection Hsl as <-.
    apply int_of_inv in E1, E2, E3, E4, E5, E7. apply int_div_inv in E6.
    assert (w = width) by (unfold width; lia). subst w extent.
    unfold ExrImageLoader.sliceAddress. simpl. subst offset first rows stride wsx.
    fold ws. destruct Hcase as [->|Hmin].
    + unfold col, row, ws. rewrite !Z.quot_1_r. unfold width. ring.
    + rewrite Hmin. simpl fst. simpl snd. rewrite !Z.add_0_l. fold col row.
      unfold ws, width. rewrite Hmin. simpl fst. ring.
Qed.

Lemma copy_reads_inside_the_raw_buffer_witness :
  let dw := ExrImageLoader.mkImathBox (-2, 3) (1, 4) in
  exists k,
    ExrImageLoader.rawIndex 1 1 4 3 1 = Some k /\
    0 <= k < 4 * 2 /\
    (1 = 1 ->
     1 = 1 \/ ExrImageLoader.imin dw = (0, 0) ->
     forall sl,
       ExrImageLoader.registerWith 4 1 1 dw = Some sl ->
       ExrImageLoader.sliceAddress sl (-2 + 3) (3 + 1) = k * 4).
Proof.
  apply (copy_reads_inside_the_raw_buffer 4 1 1
           (ExrImageLoader.mkImathBox (-2, 3) (1, 4)) 3 1);
    simpl; unfold INT_MAX; lia.
Defined.

(** With different sampling rates on the two axes the two places differ:
    in a window of width 4 sampled at every second column, the value of 4
    bytes for the pixel (0, 1) is kept at byte 8 and read at index 4, byte
    16. *)
Example rows_of_a_subsampled_channel :
  let dw := ExrImageLoader.mkImathBox (0, 0) (3, 1) in
  (ExrImageLoader.registerWith 4 2 1 dw ≫= fun sl =>
     Some (ExrImageLoader.sliceAddress sl 0 1)) = Some 8 /\
  ExrImageLoader.rawIndex 2 1 4 0 1 = Some 4.
Proof. done. Qed.

(** Beyond [INT_MAX] pixels the index has no defined value: in a channel
    65536 pixels wide, for the first pixel of row 32768. *)
Example index_of_a_large_channel :
  ExrImageLoader.rawIndex 1 1 65536 0 32768 = None.
Proof. done. Qed.


(** ** From validation to the groups of the image *)

Lemma rfind_dot_None (n : string) : rfind_dot n = None -> contains_dot n = false.
Proof.
  induction n as [|c n IH]; [done|]. simpl.
  destruct (rfind_dot n); [done|]. destruct (Ascii.eqb c "."); [done|]. auto.
Qed.

Lemma prefix_cons (c : ascii) (s1 s2 : string) :
  String.prefix (String c s1) (String c s2) = String.prefix s1 s2.
Proof. simpl. by destruct (ascii_dec c c). Qed.

Lemma rfind_dot_Some (n : string) (k : nat) :
  rfind_dot n = Some k ->
  String.prefix (String.substring 0 k n) n = true /\
  String.length (String.substring 0 k n) = k /\
  (k < String.length n)%nat /\
  contains_dot (substr_from n (k + 1)) = false.
Proof.
  revert k. induction n as [|c n IH]; intros k; [done|]. simpl rfind_dot.
  destruct (rfind_dot n) as [k'|] eqn:E.
  - intros [= <-]. destruct (IH k' eq_refl) as (H1 & H2 & H3 & H4).
    change (String.substring 0 (S k') (String c n))
      with (String c (String.substring 0 k' n)).
    rewrite prefix_cons. simpl String.length. rewrite H2.
    split; [done|]. split; [done|]. split; [lia|].
    replace (S k' + 1)%nat with (S (k' + 1)) by lia. by rewrite substr_from_cons.
  - destruct (Ascii.eqb c "."); [|done]. intros [= <-].
    split; [done|]. split; [done|]. split; [simpl; lia|].
    change (0 + 1)%nat with 1%nat. rewrite substr_from_cons.
    unfold substr_from. rewrite Nat.sub_0_r, substring_full. by apply rfind_dot_None.
Qed.

(** A channel is listed for the layer that is the head of its name, unless
    the only dot of the name is its first character. *)
Lemma inLayer_head (n : string) :
  rfind_dot n <> Some 0%nat -> inLayer (head n) n = true.
Proof.
  intros Hn. unfold inLayer, head. destruct (rfind_dot n) as [k|] eqn:E.
  - destruct (rfind_dot_Some n k E) as (H1 & H2 & H3 & H4).
    assert (Hk : k <> 0%nat) by congruence.
    destruct (String.eqb (String.substring 0 k n) "") eqn:Ee.
    + apply String.eqb_eq in Ee. rewrite Ee in H2. simpl in H2. lia.
    + unfold starts_with. rewrite H1, H2, H4.
      replace (k <? String.length n)%nat with true by (symmetry; apply Nat.ltb_lt; lia).
      done.
  - simpl. by rewrite rfind_dot_None.
Qed.

Section Grouped.

Variable matchesFuzzy : string -> string -> option nat.

(** X30 (Image.cpp, [ImageData::ensureValid], [ImageData::channelsInLayer],
    the constructor [Image::Image] and [Image::getGroupedChannels]).  From
    validation to the groups of the image, for a producer that names no
    layers: when [ensureValid] has returned, and no channel has a name whose
    only dot is its first character, the image can be constructed, and
    every channel of the validated data is a member of one of its groups. *)
Theorem every_channel_is_grouped (channelSelector : string) (d d' : ImageData)
  (id : Z) (path localChannelSelector : string) :
  layers d = [] ->
  ensureValid matchesFuzzy channelSelector d = Done d' ->
  (forall c, c ∈ channels d' -> rfind_dot (name c) <> Some 0%nat) ->
  exists img,
    Image.Image id path d' localChannelSelector = Ok img /\
    forall c, c ∈ channels d' ->
      exists g, g ∈ Image.mChannelGroups img /\ name c ∈ ChannelGroup.channels g.
Proof using Type.
  intros Hl Hrun Hnames.
  apply ensureValid_post in Hrun as (_ & _ & _ & _ & _ & _ & _ & Hlayers & _).
  rewrite Hl in Hlayers.
  assert (Hin : forall c, c ∈ channels d' ->
            name c ∈ channelsInLayer (head (name c)) (channels d')).
  { intros c Hc. rewrite channelsInLayer_names. apply list_elem_of_In, filter_In.
    split; [|by apply inLayer_head, Hnames].
    apply list_elem_of_In, list_elem_of_fmap. eauto. }
  pose proof (Image_spec id path d' localChannelSelector) as H.
  destruct (Image.Image id path d' localChannelSelector) as [img|e].
  - exists img. split; [done|]. destruct H as (_ & _ & Hcover & _).
    intros c Hc. apply Hcover. exists (head (name c)). split; [|by apply Hin].
    rewrite Hlayers. apply layerNamesOf_elem. eauto.
  - exfalso. destruct H as (_ & l & Hlayer & Hempty).
    rewrite Hlayers in Hlayer. apply layerNamesOf_elem in Hlayer as (c & Hc & <-).
    specialize (Hin c Hc). rewrite Hempty in Hin. by apply elem_of_nil in Hin.
Qed.

End Grouped.

Lemma every_channel_is_grouped_witness :
  exists d' img,
    ensureValid matchesTail "R"
      (mkImageData layeredChannels [] noWindow noWindow true "") = Done d' /\
    Image.Image 7 "a.exr" d' "R" = Ok img /\
    forall c, c ∈ channels d' ->
      exists g, g ∈ Image.mChannelGroups img /\ name c ∈ ChannelGroup.channels g.
Proof.
  eexists.
  destruct (every_channel_is_grouped matchesTail "R"
              (mkImageData layeredChannels [] noWindow noWindow true "") _ 7 "a.exr" "R"
              eq_refl eq_refl) as (img & Himg & Hcover).
  - intros c Hc. apply elem_of_cons in Hc as [->|Hc]; [discriminate|].
    apply elem_of_cons in Hc as [->|Hc]; [discriminate|].
    by apply elem_of_nil in Hc.
  - exists img. split; [reflexivity|]. split; [exact Himg|exact Hcover].
Defined.

(** ** The texture data of a channel group *)

Lemma writeComponent_all (i : Z) (value : Z -> option F32.t) (l : list Z)
  (data : list F32.t) :
  0 <= i ->
  NoDup l ->
  (forall j, j ∈ l ->
     0 <= j /\ (Z.to_nat (j * 4 + i) < length data)%nat /\ is_Some (value j)) ->
  exists data',
    forEach (writeComponent i value) l data = Some data' /\
    length data' = length data /\
    (forall j, j ∈ l -> data' !! Z.to_nat (j * 4 + i) = value j) /\
    (forall k, (forall j, j ∈ l -> k <> Z.to_nat (j * 4 + i)) -> data' !! k = data !! k).
Proof.
  intros Hi. revert data. induction l as [|j l IH]; intros data Hnd Hl.
  - exists data. split; [done|]. split; [done|]. split; [by intros j ?%elem_of_nil|done].
  - apply NoDup_cons in Hnd as [Hj Hnd].
    destruct (Hl j) as (Hj0 & Hlt & [v Hv]); [left|].
    simpl. unfold writeComponent at 1. rewrite Hv. cbv zeta.
    replace (0 <=? j * 4 + i) with true by (symmetry; apply Z.leb_le; lia).
    replace (Z.to_nat (j * 4 + i) <? length data)%nat with true
      by (symmetry; by apply Nat.ltb_lt).
    simpl andb. cbv iota.
    destruct (IH (<[Z.to_nat (j * 4 + i) := v]> data) Hnd)
      as (data' & Hrun & Hlen & Hset & Hkeep).
    { intros j' Hj'. rewrite length_insert. apply Hl. by right. }
    exists data'. split; [done|]. rewrite length_insert in Hlen. split; [done|]. split.
    + intros j' [->|Hj']%elem_of_cons; [|by apply Hset].
      rewrite Hkeep, Hv; [by apply list_lookup_insert_eq|].
      intros j' Hj' Heq. destruct (Hl j') as (Hj'0 & _); [by right|].
      assert (j = j') by lia. by subst.
    + intros k Hk. rewrite Hkeep by (intros j' Hj'; apply Hk; by right).
      apply list_lookup_insert_ne. intros <-. by apply (Hk j); [left|].
Qed.

Lemma componentValue_defined (cs : list Channel) (channelNames : list string)
  (numPixels : Z) (i : nat) (j : Z) :
  (forall n, channelNames !! i = Some n ->
     exists k chan, channel n cs = Some (k, chan) /\
                    numPixels <= Z.of_nat (length (mData chan))) ->
  0 <= j < numPixels ->
  is_Some (componentValue cs channelNames i j).
Proof.
  intros Hpresent Hj. unfold componentValue.
  destruct (channelNames !! i) as [n|]; [|done].
  destruct (Hpresent n eq_refl) as (k & chan & -> & Hlen).
  rewrite coeff_lookup by lia. apply lookup_lt_is_Some_2. lia.
Qed.

Lemma textureComponents_spec (path : string) (cs : list Channel) (numPixels : Z)
  (channelNames : list string) (components : list nat) (data : list F32.t) :
  0 <= numPixels ->
  NoDup components ->
  (forall i, i ∈ components -> (i < 4)%nat) ->
  Z.of_nat (length data) = numPixels * 4 ->
  (forall i n, i ∈ components -> channelNames !! i = Some n ->
     exists k chan, channel n cs = Some (k, chan) /\
                    numPixels <= Z.of_nat (length (mData chan))) ->
  exists data',
    textureComponents path cs numPixels channelNames components (Some data)
    = inr (Some data') /\
    length data' = length data /\
    (forall i j, i ∈ components -> 0 <= j < numPixels ->
       data' !! Z.to_nat (j * 4 + Z.of_nat i) = componentValue cs channelNames i j) /\
    (forall i j, (i < 4)%nat -> i ∉ components -> 0 <= j < numPixels ->
       data' !! Z.to_nat (j * 4 + Z.of_nat i) = data !! Z.to_nat (j * 4 + Z.of_nat i)).
Proof.
  intros Hn. revert data.
  induction components as [|i components IH]; intros data Hnd Hlt Hlen Hpresent.
  - exists data. split; [done|]. split; [done|]. split; [by intros i j ?%elem_of_nil|done].
  - apply NoDup_cons in Hnd as [Hi Hnd].
    assert (Hi4 : (i < 4)%nat) by (apply Hlt; left).
    destruct (writeComponent_all (Z.of_nat i) (componentValue cs channelNames i)
                (indexRange 0 numPixels) data)
      as (data1 & Hrun & Hlen1 & Hset & Hkeep).
    { lia. }
    { apply NoDup_seqZ. }
    { intros j Hj. apply elem_of_seqZ in Hj. split; [lia|]. split; [lia|].
      apply (componentValue_defined cs channelNames numPixels); [|lia].
      intros n Hn'. apply (Hpresent i); [left|done]. }
    destruct (IH data1 Hnd) as (data' & Hrun' & Hlen' & Hset' & Hkeep').
    { intros i' Hi'. apply Hlt. by right. }
    { by rewrite Hlen1. }
    { intros i' n Hi'. apply Hpresent. by right. }
    exists data'. split; [|split; [congruence|split]].
    + simpl. unfold componentValue in Hrun.
      destruct (channelNames !! i) as [n|] eqn:En.
      * destruct (Hpresent i n) as (k & chan & Ec & _); [left|done|].
        rewrite Ec in Hrun |- *.
        assert (Hrun2 : parallelFor 0 numPixels
                          (writeComponent (Z.of_nat i) (coeff chan)) data = Some data1)
          by exact Hrun.
        simpl. rewrite Hrun2. exact Hrun'.
      * assert (Hrun2 : parallelFor 0 numPixels
                          (writeComponent (Z.of_nat i)
                             (fun _ => Some (if (i =? 3)%nat then F32.one else F32.zero)))
                          data = Some data1)
          by exact Hrun.
        simpl. rewrite Hrun2. exact Hrun'.
    + intros i' j [->|Hi']%elem_of_cons Hj.
      * rewrite Hkeep' by done. apply Hset. apply elem_of_seqZ. lia.
      * by apply Hset'.
    + intros i' j Hi'4 Hi' Hj. apply not_elem_of_cons in Hi' as [Hne Hi'].
      rewrite Hkeep' by done. apply Hkeep.
      intros j' Hj'. apply elem_of_seqZ in Hj'. lia.
Qed.

Lemma textureComponents_take (path : string) (cs : list Channel) (numPixels : Z)
  (channelNames : list string) (components : list nat) (data : option (list F32.t)) :
  (forall i, i ∈ components -> (i < 4)%nat) ->
  textureComponents path cs numPixels channelNames components data
  = textureComponents path cs numPixels (take 4 channelNames) components data.
Proof.
  revert data. induction components as [|i components IH]; intros data Hlt; [done|].
  simpl. rewrite (lookup_take_lt channelNames 4 i) by (apply Hlt; left).
  destruct (channelNames !! i) as [n|].
  - destruct (channel n cs) as [[k chan]|]; [|done]. apply IH.
    intros i' Hi'. apply Hlt. by right.
  - apply IH. intros i' Hi'. apply Hlt. by right.
Qed.

(** X23 (Image.cpp, [Texture* Image::texture(const vector<string>&)]).
    The data uploaded for a group are its channels interleaved pixel by
    pixel: with every one of the first four names given naming a channel
    that holds [numPixels] coefficients, the vector has four values for each
    pixel, and value [i] of pixel [j] is coefficient [j] of channel [i] of
    the group; where the group has fewer than four channels the missing
    components are 0, and the fourth, alpha, is 1.  Names behind the fourth
    have no part in the result. *)
Theorem texture_interleaves_the_group (img : Image.t) (numPixels : Z)
  (channelNames : list string) :
  0 <= numPixels ->
  (forall i n, (i < 4)%nat -> channelNames !! i = Some n ->
     exists k chan,
       channel n (channels (Image.mData img)) = Some (k, chan) /\
       numPixels <= Z.of_nat (length (mData chan))) ->
  Image.textureData img numPixels channelNames
  = Image.textureData img numPixels (take 4 channelNames) /\
  exists data,
    Image.textureData img numPixels channelNames = inr (Some data) /\
    Z.of_nat (length data) = numPixels * 4 /\
    forall j i, 0 <= j < numPixels -> (i < 4)%nat ->
      data !! Z.to_nat (j * 4 + Z.of_nat i)
      = match channelNames !! i with
        | Some n =>
            match channel n (channels (Image.mData img)) with
            | Some (_, chan) => mData chan !! Z.to_nat j
            | None => None
            end
        | None => Some (if (i =? 3)%nat then F32.one else F32.zero)
        end.
Proof.
  intros Hn Hpresent.
  assert (Hlt : forall i, i ∈ [0; 1; 2; 3]%nat -> (i < 4)%nat).
  { intros i Hi. rewrite !elem_of_cons, elem_of_nil in Hi. lia. }
  split; [by apply textureComponents_take|].
  destruct (textureComponents_spec (Image.mPath img) (channels (Image.mData img))
              numPixels channelNames [0; 1; 2; 3]%nat
              (replicate (Z.to_nat (numPixels * 4)) F32.zero))
    as (data & Hrun & Hlen & Hset & _); try done.
  - apply NoDup_ListNoDup. repeat constructor; simpl; lia.
  - rewrite length_replicate. lia.
  - intros i n Hi. apply Hpresent. by apply Hlt.
  - exists data. split; [exact Hrun|]. rewrite length_replicate in Hlen.
    split; [lia|]. intros j i Hj Hi.
    rewrite Hset; [|rewrite !elem_of_cons; lia|done].
    unfold componentValue. destruct (channelNames !! i) as [n|]; [|done].
    destruct (channel n _) as [[k chan]|]; [|done]. apply coeff_lookup. lia.
Qed.

Lemma texture_interleaves_the_group_witness :
  let img := Image.mk "a.exr" "" (mkImageData [dividend; divisor] [""]
                                    (boxOfSize (2, 1)) (boxOfSize (2, 1)) true "")
               "a.exr" [] 0 in
  Image.textureData img 2 ["R"; "A"] = Image.textureData img 2 (take 4 ["R"; "A"]) /\
  exists data,
    Image.textureData img 2 ["R"; "A"] = inr (Some data) /\
    data = [F32.one; F32.zero; F32.zero; F32.one; F32.one; F32.half; F32.zero; F32.one] /\
    Z.of_nat (length data) = 2 * 4 /\
    forall j i, 0 <= j < 2 -> (i < 4)%nat ->
      data !! Z.to_nat (j * 4 + Z.of_nat i)
      = match ["R"; "A"] !! i with
        | Some n =>
            match channel n (channels (Image.mData img)) with
            | Some (_, chan) => mData chan !! Z.to_nat j
            | None => None
            end
        | None => Some (if (i =? 3)%nat then F32.one else F32.zero)
        end.
Proof.
  destruct (texture_interleaves_the_group
              (Image.mk "a.exr" "" (mkImageData [dividend; divisor] [""]
                                      (boxOfSize (2, 1)) (boxOfSize (2, 1)) true "")
                 "a.exr" [] 0) 2 ["R"; "A"]) as (Htake & data & Hrun & Hlen & Hval).
  - lia.
  - intros [|[|i]] n Hi Hn; simpl in Hn; try discriminate.
    + injection Hn as <-. exists 0%nat, dividend. split; [reflexivity|]. simpl. lia.
    + injection Hn as <-. exists 1%nat, divisor. split; [reflexivity|]. simpl. lia.
  - split; [exact Htake|]. exists data. split; [exact Hrun|]. split; [|by split].
    vm_compute in Hrun. by injection Hrun as <-.
Defined.

